(** * hauler: the content store (pkg/store/store.go) and the download
    command (cmd/hauler/cli/download/download.go)

    A shallow embedding of [Store] and its methods, of [RelocateReference],
    of [download.Cmd], and of the parts of the libraries they call that
    decide their results: [strings],
    [github.com/google/go-containerregistry/pkg/name], [os.RemoveAll] /
    [filepath.Join], [encoding/json] decoding into the struct [Identify]
    declares, and the readers behind [Open]. *)

From Stdlib Require Import Ascii String.
From stdpp Require Import base option list gmap strings.

Local Open Scope string_scope.
Local Open Scope list_scope.

(** ** Go strings: byte sequences

    A Go [string] is modelled as a Rocq [string] (a sequence of 8-bit
    characters).  Every separator the code passes to [strings.Split],
    [strings.SplitN] or [strings.Join] is one byte long, so separators are
    characters here. *)
Module strings.

(** [strings.ContainsRune(s, r)] for an ASCII rune. *)
Fixpoint ContainsRune (s : string) (r : ascii) : bool :=
  match s with
  | EmptyString => false
  | String a s' => Ascii.eqb a r || ContainsRune s' r
  end.

(** [strings.Split(s, sep)]: every piece between separators; one piece
    (the string itself) when [sep] does not occur. *)
Fixpoint Split (s : string) (sep : ascii) : list string :=
  match s with
  | EmptyString => [EmptyString]
  | String a s' =>
      if Ascii.eqb a sep then EmptyString :: Split s' sep
      else match Split s' sep with
           | p :: ps => String a p :: ps
           | [] => [String a EmptyString]
           end
  end.

(** [strings.Cut(s, sep)]: the text before and after the first [sep]. *)
Fixpoint Cut (s : string) (sep : ascii) : option (string * string) :=
  match s with
  | EmptyString => None
  | String a s' =>
      if Ascii.eqb a sep then Some (EmptyString, s')
      else match Cut s' sep with
           | Some (before, after) => Some (String a before, after)
           | None => None
           end
  end.

(** [strings.SplitN(s, sep, 2)]: at most two pieces. *)
Definition SplitN2 (s : string) (sep : ascii) : list string :=
  match Cut s sep with
  | Some (before, after) => [before; after]
  | None => [s]
  end.

(** [strings.Join(elems, sep)]. *)
Fixpoint Join (elems : list string) (sep : ascii) : string :=
  match elems with
  | [] => EmptyString
  | [e] => e
  | e :: rest => e +:+ String sep (Join rest sep)
  end.

(** [strings.HasPrefix] is [String.prefix]. *)
Definition HasPrefix (s p : string) : bool := String.prefix p s.

(** [strings.HasSuffix]. *)
Fixpoint HasSuffix (s suffix : string) : bool :=
  String.eqb s suffix ||
  match s with
  | EmptyString => false
  | String _ s' => HasSuffix s' suffix
  end.

(** Every byte of [s] satisfies [ok]. *)
Fixpoint all_bytes (ok : ascii -> bool) (s : string) : bool :=
  match s with
  | EmptyString => true
  | String a s' => ok a && all_bytes ok s'
  end.

(** The text after the last [sep], with that [sep] in front
    ([s[strings.LastIndex(s, sep):]]), when [sep] occurs. *)
Fixpoint from_last (s : string) (sep : ascii) : option string :=
  match s with
  | EmptyString => None
  | String a s' =>
      match from_last s' sep with
      | Some t => Some t
      | None => if Ascii.eqb a sep then Some s else None
      end
  end.

(** [strings.Repeat(s, count)] for a one-byte [s]. *)
Fixpoint Repeat (c : ascii) (count : nat) : string :=
  match count with
  | O => EmptyString
  | S n => String c (Repeat c n)
  end.

End strings.

(** ** Go errors *)

(** The error values the store can return: sentinel errors made with
    [errors.New], the [name] package's [*ErrBadName], errors wrapped with
    [github.com/pkg/errors.Wrap], [*os.PathError],
    [*json.UnmarshalTypeError], and errors of the collaborators the store
    only passes on. *)
Inductive err : Type :=
| errors_New (msg : string)
| ErrBadName (msg : string)
| errors_Wrap (cause : err) (msg : string)
| PathError (op path : string)
| UnmarshalTypeError (value field : string)
| ErrExternal (origin : string) (code : nat).

(** Go's [error] interface value: [None] is [nil]. *)
Abbreviation error := (option err).

#[global] Instance err_eq_dec : EqDecision err.
Proof. solve_decision. Defined.

(** [errors.Is(e, target)]: some error of [e]'s chain is [target]. *)
Fixpoint errors_Is (e target : err) : bool :=
  bool_decide (e = target) ||
  match e with
  | errors_Wrap cause _ => errors_Is cause target
  | _ => false
  end.

(** [Error()]: the message. *)
Fixpoint Error (e : err) : string :=
  match e with
  | errors_New msg => msg
  | ErrBadName msg => msg
  | errors_Wrap cause msg => msg +:+ ": " +:+ Error cause
  | PathError op path => op +:+ " " +:+ path
  | UnmarshalTypeError value field =>
      "json: cannot unmarshal " +:+ value +:+ " into Go struct field " +:+ field
  | ErrExternal origin _ => origin
  end.

(** A fallible library call that returns the zero value beside every
    error is modelled as a sum. *)
Inductive result (A : Type) : Type :=
| Ok (a : A)
| Err (e : err).
Arguments Ok {A} a.
Arguments Err {A} e.

Definition is_Ok {A} (r : result A) : bool :=
  match r with Ok _ => true | Err _ => false end.

(** ** github.com/google/go-containerregistry/pkg/name

    The reference grammar both [Store.AddArtifact] and [RelocateReference]
    rely on.  Function, constant and field names are the package's. *)
Module name.
Import strings.

Definition DefaultRegistry : string := "index.docker.io".
Definition defaultRegistryAlias : string := "docker.io".
Definition DefaultTag : string := "latest".
Definition defaultNamespace : string := "library".
Definition repositoryChars : string := "abcdefghijklmnopqrstuvwxyz0123456789_-./".
Definition regRepoDelimiter : ascii := "/".
Definition tagChars : string :=
  "abcdefghijklmnopqrstuvwxyzABCDEFGHIJKLMNOPQRSTUVWXYZ0123456789_-.".
Definition tagDelim : ascii := ":".
Definition digestChars : string := "sh:0123456789abcdef".
Definition digestDelim : ascii := "@".

(** *** options.go *)
Record options : Type := {
  strict : bool;
  insecure : bool;
  defaultRegistry : string;
  defaultTag : string
}.

Definition Option : Type := options -> options.

Definition WithDefaultRegistry (r : string) : Option := fun o =>
  {| strict := strict o; insecure := insecure o;
     defaultRegistry := r; defaultTag := defaultTag o |}.

Definition WithDefaultTag (t : string) : Option := fun o =>
  {| strict := strict o; insecure := insecure o;
     defaultRegistry := defaultRegistry o; defaultTag := t |}.

Definition makeOptions (opts : list Option) : options :=
  fold_left (fun o f => f o) opts
    {| strict := false; insecure := false;
       defaultRegistry := DefaultRegistry; defaultTag := DefaultTag |}.

(** *** check.go

    [checkElement] bounds the rune count and then strips the allowed
    runes.  The allowed runes are ASCII, so an element made of them has
    as many runes as bytes, and any other element is refused by one test
    or the other. *)
Definition checkElement (what element allowedRunes : string)
    (minRunes maxRunes : nat) : error :=
  let numRunes := String.length element in
  if (numRunes <? minRunes)%nat || (maxRunes <? numRunes)%nat then
    Some (ErrBadName (what +:+ " must be between %d and %d characters in length: "
                        +:+ element))
  else if negb (all_bytes (ContainsRune allowedRunes) element) then
    Some (ErrBadName (what +:+ " can only contain the characters `"
                        +:+ allowedRunes +:+ "`: " +:+ element))
  else None.

(** *** registry.go *)
Record Registry : Type := {
  reg_insecure : bool;
  registry : string
}.

Definition RegistryStr (r : Registry) : string := registry r.
Definition Registry_Name (r : Registry) : string := RegistryStr r.

(** [net/url]: the bytes a host may hold unescaped
    ([shouldEscape(c, encodeHost)] is false), the characters of a
    port, and [parseHost]. *)
Definition isDigit (c : ascii) : bool :=
  let n := nat_of_ascii c in (48 <=? n)%nat && (n <=? 57)%nat.

Definition isAlnum (c : ascii) : bool :=
  let n := nat_of_ascii c in
  isDigit c || (65 <=? n)%nat && (n <=? 90)%nat || (97 <=? n)%nat && (n <=? 122)%nat.

Definition shouldEscape_host (c : ascii) : bool :=
  negb (isAlnum c
        || ContainsRune "!$&'()*+,;=:[]<>" c
        || (nat_of_ascii c =? 34)%nat
        || ContainsRune "-_.~" c).

Definition stringContainsCTLByte (s : string) : bool :=
  negb (all_bytes (fun c => let n := nat_of_ascii c in
                            negb ((n <? 32)%nat || (n =? 127)%nat)) s).

Definition validOptionalPort (port : string) : bool :=
  match port with
  | EmptyString => true
  | String c digits => Ascii.eqb c ":" && all_bytes isDigit digits
  end.

(** [parseHost(host)] succeeds and returns [host] itself: the port is
    well formed, no byte needs escaping, and nothing is percent-encoded
    (a decoded host is shorter than its source). *)
Definition parseHost_same (host : string) : bool :=
  (if HasPrefix host "[" then
     match from_last host "]" with
     | Some (String _ colonPort) => validOptionalPort colonPort
     | _ => false
     end
   else
     match from_last host ":" with
     | Some colonPort => validOptionalPort colonPort
     | None => true
     end)
  && all_bytes (fun c => negb (Ascii.eqb c "%")
                         && ((128 <=? nat_of_ascii c)%nat || negb (shouldEscape_host c)))
       host.

(** [checkRegistry(name)]: [url.Parse("//" + name)] succeeds with
    [url.Host == name].  The parser cuts the text at the first ['#'],
    ['?'] and ['/'] and takes what follows the last ['@'] as the host, so
    the host is the whole name only when none of them occurs. *)
Definition checkRegistry (name : string) : error :=
  if negb (stringContainsCTLByte name)
     && negb (ContainsRune name "#") && negb (ContainsRune name "?")
     && negb (ContainsRune name "/") && negb (ContainsRune name "@")
     && parseHost_same name
  then None
  else Some (ErrBadName ("registries must be valid RFC 3986 URI authorities: " +:+ name)).

Definition NewRegistry (name : string) (opts : list Option) : result Registry :=
  let opt := makeOptions opts in
  if strict opt && (String.length name =? 0)%nat then
    Err (ErrBadName "strict validation requires the registry to be explicitly defined")
  else
    match checkRegistry name with
    | Some e => Err e
    | None =>
        let name := if String.eqb name "" then defaultRegistry opt else name in
        (* Rewrite "docker.io" to "index.docker.io". *)
        let name := if String.eqb name defaultRegistryAlias then DefaultRegistry else name in
        Ok {| registry := name; reg_insecure := insecure opt |}
    end.

(** *** repository.go *)
Record Repository : Type := {
  Repository_Registry : Registry;
  repository : string
}.

Definition hasImplicitNamespace (repo : string) (reg : Registry) : bool :=
  negb (ContainsRune repo "/") && String.eqb (RegistryStr reg) DefaultRegistry.

Definition RepositoryStr (r : Repository) : string :=
  if hasImplicitNamespace (repository r) (Repository_Registry r)
  then defaultNamespace +:+ "/" +:+ repository r
  else repository r.

Definition Repository_Name (r : Repository) : string :=
  let regName := Registry_Name (Repository_Registry r) in
  if negb (String.eqb regName "")
  then regName +:+ String regRepoDelimiter (RepositoryStr r)
  else RepositoryStr r.

Definition checkRepository (repository : string) : error :=
  checkElement "repository" repository repositoryChars 2 255.

Definition NewRepository (name : string) (opts : list Option) : result Repository :=
  let opt := makeOptions opts in
  if (String.length name =? 0)%nat then
    Err (ErrBadName "a repository name must be specified")
  else
    let '(registry, repo) :=
      match SplitN2 name regRepoDelimiter with
      | [p0; p1] =>
          (* The first part is the registry domain iff it contains a '.'
             or ':' character, otherwise it is all repository. *)
          if ContainsRune p0 "." || ContainsRune p0 ":" then (p0, p1) else (EmptyString, name)
      | _ => (EmptyString, name)
      end in
    match checkRepository repo with
    | Some e => Err e
    | None =>
        match NewRegistry registry opts with
        | Err e => Err e
        | Ok reg =>
            if hasImplicitNamespace repo reg && strict opt then
              Err (ErrBadName
                "strict validation requires the full repository path (missing 'library')")
            else Ok {| Repository_Registry := reg; repository := repo |}
        end
    end.

(** *** tag.go *)
Record Tag : Type := {
  Tag_Repository : Repository;
  tag : string;
  Tag_original : string
}.

Definition TagStr (t : Tag) : string := tag t.
Definition Tag_Name (t : Tag) : string :=
  Repository_Name (Tag_Repository t) +:+ String tagDelim (TagStr t).

Definition checkTag (name : string) : error :=
  checkElement "tag" name tagChars 1 128.

Definition NewTag (name : string) (opts : list Option) : result Tag :=
  let opt := makeOptions opts in
  let parts := Split name tagDelim in
  (* Verify that we aren't confusing a tag for a hostname w/ port. *)
  let '(base, tag) :=
    if (1 <? length parts)%nat && negb (ContainsRune (List.last parts "") regRepoDelimiter)
    then (Join (removelast parts) tagDelim, List.last parts "")
    else (name, EmptyString) in
  match (if negb (String.eqb tag "") || strict opt then checkTag tag else None) with
  | Some e => Err e
  | None =>
      let tag := if String.eqb tag "" then defaultTag opt else tag in
      match NewRepository base opts with
      | Err e => Err e
      | Ok repo => Ok {| Tag_Repository := repo; tag := tag; Tag_original := name |}
      end
  end.

(** *** digest.go *)
Record Digest : Type := {
  Digest_Repository : Repository;
  digest : string;
  Digest_original : string
}.

Definition DigestStr (d : Digest) : string := digest d.
Definition Digest_Name (d : Digest) : string :=
  Repository_Name (Digest_Repository d) +:+ String digestDelim (DigestStr d).

Definition checkDigest (name : string) : error :=
  checkElement "digest" name digestChars (7 + 64) (7 + 64).

Definition NewDigest (name : string) (opts : list Option) : result Digest :=
  match Split name digestDelim with
  | [base; digest] =>
      (* Always check that the digest is valid. *)
      match checkDigest digest with
      | Some e => Err e
      | None =>
          let base :=
            match NewTag base opts with
            | Ok tag => Repository_Name (Tag_Repository tag)
            | Err _ => base
            end in
          match NewRepository base opts with
          | Err e => Err e
          | Ok repo =>
              Ok {| Digest_Repository := repo; digest := digest; Digest_original := name |}
          end
      end
  | _ =>
      Err (ErrBadName
        ("a digest must contain exactly one '@' separator (e.g. registry/repository@digest) saw: "
           +:+ name))
  end.

(** [Repository.Tag(identifier)] and [Repository.Digest(identifier)]. *)
Definition Repository_Tag (r : Repository) (identifier : string) : Tag :=
  let t := {| Tag_Repository := r; tag := identifier; Tag_original := "" |} in
  {| Tag_Repository := r; tag := identifier; Tag_original := Tag_Name t |}.

Definition Repository_Digest (r : Repository) (identifier : string) : Digest :=
  let d := {| Digest_Repository := r; digest := identifier; Digest_original := "" |} in
  {| Digest_Repository := r; digest := identifier; Digest_original := Digest_Name d |}.

(** *** ref.go: the [Reference] interface, implemented by [Tag] and
    [Digest]. *)
Inductive Reference : Type :=
| RefTag (t : Tag)
| RefDigest (d : Digest).

Definition Context (r : Reference) : Repository :=
  match r with
  | RefTag t => Tag_Repository t
  | RefDigest d => Digest_Repository d
  end.

Definition Identifier (r : Reference) : string :=
  match r with
  | RefTag t => TagStr t
  | RefDigest d => DigestStr d
  end.

Definition Name (r : Reference) : string :=
  match r with
  | RefTag t => Tag_Name t
  | RefDigest d => Digest_Name d
  end.

Definition ParseReference (s : string) (opts : list Option) : result Reference :=
  match NewTag s opts with
  | Ok t => Ok (RefTag t)
  | Err _ =>
      match NewDigest s opts with
      | Ok d => Ok (RefDigest d)
      | Err _ => Err (ErrBadName ("could not parse reference: " +:+ s))
      end
  end.

End name.

(** ** io *)
Module io.

(** [var EOF = errors.New("EOF")]. *)
Definition EOF : err := errors_New "EOF".

(** An [int64] holds the integers from -2^63 up to 2^63 - 1; its
    arithmetic wraps around. *)
Definition int64 (z : Z) : Z := ((z + 2 ^ 63) mod 2 ^ 64 - 2 ^ 63)%Z.

(** The interface [io.ReaderAt]: [ReadAt(p, off)] for a buffer [p] of
    [len] bytes returns the bytes it has read into [p] and an error. *)
Record ReaderAt : Type := { ReadAt : nat -> Z -> string * error }.

(** [io.ReadAll(r)] for a reader whose state is [R] and whose method is
    [Read]: it reads into the free part of a buffer of 512 bytes, which it
    extends when it is full, until [Read] returns an error, and returns
    what it has read; the error io.EOF is no error.  [grow] is the
    capacity [append] gives a full buffer.  [fuel] bounds the number of
    calls of [Read]. *)
Fixpoint ReadAll_loop {R : Type} (Read : R -> nat -> (string * error) * R)
    (grow : nat -> nat) (fuel : nat) (r : R) (b : string) (cap : nat)
    : option ((string * error) * R) :=
  match fuel with
  | O => None
  | S fuel =>
      let cap := if (String.length b =? cap)%nat then grow cap else cap in
      let '((p, err), r) := Read r (cap - String.length b)%nat in
      let b := b +:+ p in
      match err with
      | Some e => Some ((b, if decide (e = EOF) then None else Some e), r)
      | None => ReadAll_loop Read grow fuel r b cap
      end
  end.

Definition ReadAll {R : Type} (Read : R -> nat -> (string * error) * R)
    (grow : nat -> nat) (fuel : nat) (r : R) : option ((string * error) * R) :=
  ReadAll_loop Read grow fuel r "" 512.

End io.

(** ** path/filepath and os

    A file system holds nodes at places; a place is the list of names
    that leads to it from the root directory.  Symbolic links are not
    modelled. *)
Module filepath.

(** [filepath.Join(elem...)]: the non-empty elements joined by the
    separator.  [Join] also cleans the result lexically; cleaning does not
    change the place a path names, and [os.locate] does it. *)
Definition Join (elem : list string) : string :=
  strings.Join (List.filter (fun x => negb (String.eqb x "")) elem) "/".

(** A plain file name: not empty, not "." or "..", and without
    separator. *)
Definition plain_name (name : string) : bool :=
  negb (String.eqb name "") && negb (String.eqb name ".") && negb (String.eqb name "..")
  && negb (strings.ContainsRune name "/").

(** [filepath.IsAbs]. *)
Definition IsAbs (path : string) : bool := strings.HasPrefix path "/".

End filepath.

Module os.

Inductive node : Type :=
| File (content : string)
| Dir.

(** The state of the file system as a process sees it: its working
    directory, the nodes, and the places whose removal the system refuses
    (permission denied, device busy). *)
Record FS : Type := {
  cwd : list string;
  nodes : gmap (list string) node;
  pinned : gset (list string)
}.

(** One element of a path, walked from the place [at]: empty elements
    and "." stay, ".." goes to the parent (the root is its own parent). *)
Definition walk (at_ : list string) (element : string) : list string :=
  if String.eqb element "" || String.eqb element "." then at_
  else if String.eqb element ".." then removelast at_
  else at_ ++ [element].

(** The place a path names: walked from the root when the path is
    absolute, from the working directory otherwise. *)
Definition locate (fs : FS) (path : string) : list string :=
  fold_left walk (strings.Split path "/") (if filepath.IsAbs path then [] else cwd fs).

(** The pinned nodes at or below [target]. *)
Definition refused (fs : FS) (target : list string) : gset (list string) :=
  filter (fun q => target `prefix_of` q /\ is_Some (nodes fs !! q)) (pinned fs).

(** [endsWithDot(path)]: the path is "." or ends in a "." element. *)
Definition endsWithDot (path : string) : bool :=
  String.eqb path "." || strings.HasSuffix path "/.".

(** [os.RemoveAll(path)]: RemoveAll removes path and any children it
    contains.  It removes everything it can but returns the first error
    it encounters.  If the path does not exist, RemoveAll returns nil (no
    error).  The empty path is ignored and a path that ends in "." is
    refused.  What it cannot remove are the pinned nodes and the
    directories that lead to them. *)
Definition RemoveAll (fs : FS) (path : string) : error * FS :=
  if String.eqb path "" then (None, fs)
  else if endsWithDot path then (Some (PathError "RemoveAll" path), fs)
  else
    let target := locate fs path in
    let stuck := refused fs target in
    let keep (entry : list string * node) : Prop :=
      ~ target `prefix_of` entry.1 \/ set_Exists (fun r => entry.1 `prefix_of` r) stuck in
    (if decide (stuck = ∅) then None else Some (PathError "unlinkat" path),
     {| cwd := cwd fs; nodes := filter keep (nodes fs); pinned := pinned fs |}).

(** A path [RemoveAll] acts on. *)
Definition removable (path : string) : bool :=
  negb (String.eqb path "") && negb (endsWithDot path).

(** At or below [target] lies a node that the system refuses to remove. *)
Definition held (fs : FS) (target : list string) : Prop :=
  exists q, q ∈ pinned fs /\ is_Some (nodes fs !! q) /\ target `prefix_of` q.

(** [File.ReadAt(b, off)] on the open file [name] that holds [content],
    for a buffer of [len] bytes: a negative offset is an error; otherwise
    it reads the bytes from [off] on until the buffer is full or the file
    ends, and returns io.EOF when the file ended first. *)
Definition File_ReadAt (name content : string) (len : nat) (off : Z) : string * error :=
  if (off <? 0)%Z then (EmptyString, Some (PathError "readat" name))
  else
    let p := String.substring (Z.to_nat off) len content in
    (p, if (String.length p <? len)%nat then Some io.EOF else None).

(** An open file as an [io.ReaderAt]. *)
Definition File_reader (name content : string) : io.ReaderAt :=
  {| io.ReadAt := File_ReadAt name content |}.

End os.

(** ** encoding/json: decoding into the struct [Identify] declares *)
Module json.

(** A JSON value as the decoder's scanner delivers it. *)
#[warnings="-register-all"]
Inductive value : Type :=
| Null
| Bool (b : bool)
| Number (literal : string)
| String_ (s : string)
| Array (elements : list value)
| Object (members : list (string * value)).

(** The name of a value's kind in an [UnmarshalTypeError]. *)
Definition kind (v : value) : string :=
  match v with
  | Null => "null"
  | Bool _ => "bool"
  | Number _ => "number"
  | String_ _ => "string"
  | Array _ => "array"
  | Object _ => "object"
  end.

(** [struct { MediaType string `json:"mediaType"` }] and
    [struct { Config ... `json:"config"` }]. *)
Record Config_struct : Type := { Config_MediaType : string }.
Record manifest_struct : Type := { Config : Config_struct }.

Definition manifest_zero : manifest_struct :=
  {| Config := {| Config_MediaType := "" |} |}.

(** Letters are matched without regard to case. *)
Definition fold_byte (c : ascii) : ascii :=
  let n := nat_of_ascii c in
  if (97 <=? n)%nat && (n <=? 122)%nat then ascii_of_nat (n - 32) else c.

Fixpoint fold_case (s : string) : string :=
  match s with
  | EmptyString => EmptyString
  | String c s' => String (fold_byte c) (fold_case s')
  end.

(** A member key names the field tagged [field]: exactly, or up to the
    case of its letters. *)
Definition equalFold (field key : string) : bool :=
  String.eqb (fold_case field) (fold_case key).

(** [decodeState.saveError]: the first error is kept. *)
Definition saveError (saved new : error) : error :=
  match saved with
  | Some _ => saved
  | None => new
  end.

(** Storing a value into the string field [MediaType]: a string is
    stored, null leaves the field as it is, anything else is a type
    error. *)
Definition store_MediaType (v : value) (c : Config_struct) (saved : error)
    : Config_struct * error :=
  match v with
  | String_ s => ({| Config_MediaType := s |}, saved)
  | Null => (c, saved)
  | _ => (c, saveError saved (Some (UnmarshalTypeError (kind v) "config.mediaType")))
  end.

(** The members of an object stored into the struct [Config] in turn;
    members that name no field are skipped. *)
Fixpoint store_Config_members (members : list (string * value)) (c : Config_struct)
    (saved : error) : Config_struct * error :=
  match members with
  | [] => (c, saved)
  | (key, v) :: rest =>
      if equalFold "mediaType" key
      then let '(c, saved) := store_MediaType v c saved in store_Config_members rest c saved
      else store_Config_members rest c saved
  end.

Definition store_Config (v : value) (m : manifest_struct) (saved : error)
    : manifest_struct * error :=
  match v with
  | Object members =>
      let '(c, saved) := store_Config_members members (Config m) saved in
      ({| Config := c |}, saved)
  | Null => (m, saved)
  | _ => (m, saveError saved (Some (UnmarshalTypeError (kind v) "config")))
  end.

Fixpoint store_members (members : list (string * value)) (m : manifest_struct)
    (saved : error) : manifest_struct * error :=
  match members with
  | [] => (m, saved)
  | (key, v) :: rest =>
      if equalFold "config" key
      then let '(m, saved) := store_Config v m saved in store_members rest m saved
      else store_members rest m saved
  end.

(** [decodeState.unmarshal] into the struct: it returns the saved
    error. *)
Definition unmarshal (v : value) (m : manifest_struct) : manifest_struct * error :=
  match v with
  | Object members => store_members members m None
  | Null => (m, None)
  | _ => (m, Some (UnmarshalTypeError (kind v) ""))
  end.

(** The value a manifest document gives for config.mediaType, for a
    document whose member names are unique: the string held by the member
    mediaType of the object held by the member config. *)
Definition member (field : string) (members : list (string * value)) : option value :=
  snd <$> List.find (fun kv => equalFold field kv.1) members.

(** Exactly one member of [members] names the field. *)
Definition names_once (field : string) (members : list (string * value)) : bool :=
  (length (List.filter (fun kv => equalFold field kv.1) members) =? 1)%nat.

(** The member names that matter are unique in the document. *)
Definition unique_names (document : value) : bool :=
  match document with
  | Object members =>
      names_once "config" members &&
      match member "config" members with
      | Some (Object config) => names_once "mediaType" config
      | _ => true
      end
  | _ => true
  end.

Definition config_mediaType (document : value) : option string :=
  match document with
  | Object members =>
      match member "config" members with
      | Some (Object config) =>
          match member "mediaType" config with
          | Some (String_ mediaType) => Some mediaType
          | _ => None
          end
      | _ => None
      end
  | _ => None
  end.

End json.

(** ** The store (store.go) *)

(** [ocispec.Descriptor]. *)
Record Descriptor : Type := {
  MediaType : string;
  Digest : string;
  Size : Z;
  Annotations : gmap string string
}.

(** [ocispec.Descriptor{}], the zero value. *)
Definition Descriptor_zero : Descriptor :=
  {| MediaType := ""; Digest := ""; Size := 0; Annotations := ∅ |}.

(** The contents of an OCI layout as oras' [content.OCI] holds them: the
    index of named manifests ([index.json]) and the blobs by digest. *)
Record OCI_layout : Type := {
  nameMap : gmap string Descriptor;
  blobs : gmap string string
}.

(** [content.OCI.ListReferences]. *)
Definition ListReferences (o : OCI_layout) : gmap string Descriptor := nameMap o.

(** [content.OCI.Fetch]: the blob a descriptor's digest names. *)
Definition Fetch (o : OCI_layout) (desc : Descriptor) : result string :=
  match blobs o !! Digest desc with
  | Some content => Ok content
  | None => Err (errors_New "not found")
  end.

(** ** oras' reader over an [io.ReaderAt], and [ioutil.NopCloser] *)
Module content.

(** [type readerAtWrapper struct]: the offset of the next read, and the
    [io.ReaderAt] it reads from. *)
Record readerAtWrapper : Type := {
  offset : Z;
  readerAt : io.ReaderAt
}.

(** NewReaderAtWrapper wraps a ReaderAt to give a Reader. *)
Definition NewReaderAtWrapper (readerAt : io.ReaderAt) : readerAtWrapper :=
  {| offset := 0; readerAt := readerAt |}.

(** [Read(p)]: [ReadAt(p, r.offset)], and the offset moves on by the
    number of bytes read. *)
Definition Read (r : readerAtWrapper) (len : nat) : (string * error) * readerAtWrapper :=
  let '(p, err) := io.ReadAt (readerAt r) len (offset r) in
  ((p, err),
   {| offset := io.int64 (offset r + Z.of_nat (String.length p)); readerAt := readerAt r |}).

End content.

Module ioutil.

(** [ioutil.NopCloser(r)]: a ReadCloser with a no-op Close method
    wrapping the provided Reader. *)
Record nopCloser : Type := { Reader : content.readerAtWrapper }.

Definition NopCloser (r : content.readerAtWrapper) : nopCloser := {| Reader := r |}.

Definition Read (c : nopCloser) (len : nat) : (string * error) * nopCloser :=
  let '(got, r) := content.Read (Reader c) len in (got, {| Reader := r |}).

Definition Close (c : nopCloser) : error * nopCloser := (None, c).

End ioutil.

(** *** package store *)
Module store.

(** [var ErrInvalidReference = errors.New("invalid reference")]. *)
Definition ErrInvalidReference : err := errors_New "invalid reference".

(** The options [AddArtifact] parses a reference with. *)
Definition AddArtifact_options : list name.Option :=
  [name.WithDefaultRegistry ""; name.WithDefaultTag "latest"].

Section Store.

(** What the store's methods are handed or call and the sources do not
    hold: the artifact and cache interfaces ([artifact.OCI],
    [artifact.Collection], [cache.Cache], [cache.Oci]), the staging layout
    ([newLayout], [layout.add], [layout.commit]), oras' copy, the
    target of a copy, and [consts.DockerManifestSchema2].  [Env] is the
    state outside the store that they read and change (temporary
    directories, a cache's backing store, the network). *)
Context {Env OCI Collection Cache layout Target : Type}.

(** [type Store struct]: [store] holds the contents of the layout the
    pointer [*content.OCI] refers to. *)
Record Store : Type := {
  Root : string;
  store : OCI_layout;
  cache : option Cache
}.

Variable Contents : Collection -> Env -> (gmap string OCI * error) * Env.
Variable cache_Oci : OCI -> Cache -> OCI.
Variable newLayout : Env -> result layout * Env.
Variable stage_add : layout -> OCI -> name.Reference -> Env -> error * (layout * Env).
Variable stage_commit : layout -> Store -> Env -> (Descriptor * error) * (Store * Env).
Variable oras_Copy :
  OCI_layout -> string -> Target -> string -> list string -> (Descriptor * error) * Target.
Variable DockerManifestSchema2 : string.

(** The scanner of [json.NewDecoder(rc)]: the first JSON value of the
    stream, or the error the scan ends with. *)
Variable json_scan : string -> result json.value.

(** The order in which a [range] loop visits a map: some enumeration of
    its entries. *)
Variable range : forall {V : Type}, gmap string V -> list (string * V).

(** [content.NewOCI(rootdir)] and the promoted method
    [content.OCI.ReaderAt], of oras and containerd. *)
Variable content_NewOCI : string -> Env -> result OCI_layout * Env.
Variable store_ReaderAt : OCI_layout -> Descriptor -> result io.ReaderAt.

(** An option of [NewStore]: it is called on the pointer to the new
    store, and is here the store it leaves for the store it finds. *)
Definition Options : Type := Store -> Store.

(** [NewStore(rootdir, opts...)]. *)
Definition NewStore (rootdir : string) (opts : list Options) (e : Env)
    : result Store * Env :=
  match content_NewOCI rootdir e with
  | (Err err, e) => (Err err, e)
  | (Ok ociStore, e) =>
      let b := {| Root := rootdir; store := ociStore; cache := None |} in
      (Ok (fold_left (fun b opt => opt b) opts b), e)
  end.

(** AddArtifact will add an artifact.OCI to the store. *)
Definition AddArtifact (s : Store) (oci : OCI) (reference : string) (e : Env)
    : (Descriptor * error) * (Store * Env) :=
  match newLayout e with
  | (Err err, e) => ((Descriptor_zero, Some err), (s, e))
  | (Ok stage, e) =>
      let oci :=
        match cache s with
        | Some c => cache_Oci oci c
        | None => oci
        end in
      (* Ensure that index.docker.io isn't prepended *)
      match name.ParseReference reference AddArtifact_options with
      | Err err => ((Descriptor_zero, Some (errors_Wrap err "adding artifact")), (s, e))
      | Ok ref =>
          match stage_add stage oci ref e with
          | (Some err, (_, e)) => ((Descriptor_zero, Some err), (s, e))
          | (None, (stage, e)) => stage_commit stage s e
          end
      end
  end.

(** The loop of [AddCollection] over the pairs still to add; [descs] are
    the descriptors appended so far. *)
Fixpoint AddCollection_loop (s : Store) (cnts : list (string * OCI))
    (descs : list Descriptor) (e : Env) : (list Descriptor * error) * (Store * Env) :=
  match cnts with
  | [] => ((descs, None), (s, e))
  | (ref, oci) :: rest =>
      match AddArtifact s oci ref e with
      | ((_, Some err), (s, e)) => (([], Some err), (s, e))
      | ((ds, None), (s, e)) => AddCollection_loop s rest (descs ++ [ds]) e
      end
  end.

(** AddCollection: a nil slice is the empty list. *)
Definition AddCollection (s : Store) (coll : Collection) (e : Env)
    : (list Descriptor * error) * (Store * Env) :=
  match Contents coll e with
  | ((_, Some err), e) => (([], Some err), (s, e))
  | ((cnts, None), e) => AddCollection_loop s (range cnts) [] e
  end.

(** Flush is a fancy name for delete-all-the-things, in this case it is
    as trivial as deleting oci-layout content.  To reduce the blast radius
    and likelihood of deleting things we do not own, Flush explicitly
    deletes oci-layout content only. *)
Definition Flush (s : Store) (fs : os.FS) : error * os.FS :=
  let blobs := filepath.Join [Root s; "blobs"] in
  match os.RemoveAll fs blobs with
  | (Some err, fs) => (Some err, fs)
  | (None, fs) =>
      let index := filepath.Join [Root s; "index.json"] in
      match os.RemoveAll fs index with
      | (Some err, fs) => (Some err, fs)
      | (None, fs) =>
          let layout := filepath.Join [Root s; "oci-layout"] in
          match os.RemoveAll fs layout with
          | (Some err, fs) => (Some err, fs)
          | (None, fs) => (None, fs)
          end
      end
  end.

(** [Open]: the descriptor's blob as a reader. *)
Definition Open (s : Store) (desc : Descriptor) : result ioutil.nopCloser :=
  match store_ReaderAt (store s) desc with
  | Err err => Err err
  | Ok readerAt =>
      (* just wrap the ReaderAt with a Reader *)
      Ok (ioutil.NopCloser (content.NewReaderAtWrapper readerAt))
  end.

(** The loop of [Walk] over the references still to visit.  [fn] is a
    closure: [A] is the state it captures. *)
Fixpoint Walk_loop {A : Type} (refs : list (string * Descriptor))
    (fn : Descriptor -> A -> error * A) (a : A) : error * A :=
  match refs with
  | [] => (None, a)
  | (_, desc) :: rest =>
      match fn desc a with
      | (Some err, a) => (Some err, a)
      | (None, a) => Walk_loop rest fn a
      end
  end.

Definition Walk {A : Type} (s : Store) (fn : Descriptor -> A -> error * A) (a : A)
    : error * A :=
  let refs := ListReferences (store s) in
  Walk_loop (range refs) fn a.

(** Copy will copy a given reference to a given target.Target. *)
Definition Copy (s : Store) (ref : string) (to : Target) (toRef : string)
    : (Descriptor * error) * Target :=
  oras_Copy (store s) ref to toRef [DockerManifestSchema2].

(** The loop of [CopyAll] over the references still to copy; a nil
    [toMapper] is [None]. *)
Fixpoint CopyAll_loop (s : Store) (refs : list (string * Descriptor)) (to : Target)
    (toMapper : option (string -> string * error)) : error * Target :=
  match refs with
  | [] => (None, to)
  | (ref, _) :: rest =>
      let mapped :=
        match toMapper with
        | Some f => f ref
        | None => ("", None)
        end in
      match mapped with
      | (_, Some err) => (Some err, to)
      | (toRef, None) =>
          match Copy s ref to toRef with
          | ((_, Some err), to) => (Some err, to)
          | ((_, None), to) => CopyAll_loop s rest to toMapper
          end
      end
  end.

(** CopyAll performs bulk copy operations on the stores oci layout to a
    provided target.Target. *)
Definition CopyAll (s : Store) (to : Target) (toMapper : option (string -> string * error))
    : error * Target :=
  CopyAll_loop s (range (ListReferences (store s))) to toMapper.

(** [json.NewDecoder(rc).Decode(&m)] for the struct [m] that [Identify]
    declares. *)
Definition Decode (rc : string) (m : json.manifest_struct) : json.manifest_struct * error :=
  match json_scan rc with
  | Err err => (m, Some err)
  | Ok v => json.unmarshal v m
  end.

(** Identify is a helper function that will identify a human-readable
    content type given a descriptor. *)
Definition Identify (s : Store) (desc : Descriptor) : string :=
  match Fetch (store s) desc with
  | Err _ => ""
  | Ok rc =>
      match Decode rc json.manifest_zero with
      | (_, Some _) => ""
      | (m, None) => json.Config_MediaType (json.Config m)
      end
  end.

(** *** Vocabulary for the statements about the store's methods *)

(** Adding the pairs of [cnts] in turn when every add succeeds: the
    descriptors, the store and the environment after the last one. *)
Fixpoint added_each (s : Store) (cnts : list (string * OCI)) (e : Env)
    : option (list Descriptor * (Store * Env)) :=
  match cnts with
  | [] => Some ([], (s, e))
  | (ref, oci) :: rest =>
      match AddArtifact s oci ref e with
      | ((ds, None), (s, e)) =>
          match added_each s rest e with
          | Some (dss, st) => Some (ds :: dss, st)
          | None => None
          end
      | ((_, Some _), _) => None
      end
  end.

(** What the staging layout promises the store: a failing commit leaves
    the store as it was, and returns the zero descriptor. *)
Definition commit_atomic : Prop :=
  forall l s e d err s' e',
    stage_commit l s e = ((d, Some err), (s', e')) -> s' = s.

Definition commit_zero : Prop :=
  forall l s e d err st,
    stage_commit l s e = ((d, Some err), st) -> d = Descriptor_zero.

(** The places [Flush] is to delete below the store root [root]: blobs,
    index.json and oci-layout and everything under them. *)
Definition flushed (root q : list string) : Prop :=
  root ++ ["blobs"] `prefix_of` q \/
  root ++ ["index.json"] `prefix_of` q \/
  root ++ ["oci-layout"] `prefix_of` q.

(** The destination name [CopyAll] passes to [Copy] for [ref]. *)
Definition destination (toMapper : option (string -> string * error)) (ref : string)
    : string * error :=
  match toMapper with
  | Some f => f ref
  | None => ("", None)
  end.

(** Copying the references of [refs] in turn when every mapping and every
    copy succeeds: the target after the last one. *)
Fixpoint copied_each (s : Store) (refs : list (string * Descriptor)) (to : Target)
    (toMapper : option (string -> string * error)) : option Target :=
  match refs with
  | [] => Some to
  | (ref, _) :: rest =>
      match destination toMapper ref with
      | (toRef, None) =>
          match Copy s ref to toRef with
          | ((_, None), to) => copied_each s rest to toMapper
          | ((_, Some _), _) => None
          end
      | (_, Some _) => None
      end
  end.

(** Visiting the descriptors of [refs] in turn when every visit succeeds:
    the closure's state after the last one. *)
Fixpoint visited_each {A : Type} (refs : list (string * Descriptor))
    (fn : Descriptor -> A -> error * A) (a : A) : option A :=
  match refs with
  | [] => Some a
  | (_, desc) :: rest =>
      match fn desc a with
      | (None, a) => visited_each rest fn a
      | (Some _, _) => None
      end
  end.

(** A visit function that also records each descriptor it is called on. *)
Definition recording {A : Type} (fn : Descriptor -> A -> error * A)
    : Descriptor -> A * list Descriptor -> error * (A * list Descriptor) :=
  fun desc st =>
    let '(err, a) := fn desc (fst st) in (err, (a, snd st ++ [desc])).

End Store.

(** RelocateReference returns a name.Reference given a reference and
    registry. *)
Definition RelocateReference (reference registry : string) : result name.Reference :=
  match name.ParseReference reference [] with
  | Err e => Err e
  | Ok ref =>
      match name.ParseReference (name.RepositoryStr (name.Context ref))
              [name.WithDefaultRegistry registry] with
      | Err e => Err e
      | Ok relocated =>
          match name.NewDigest (name.Name ref) [] with
          | Ok _ =>
              Ok (name.RefDigest
                    (name.Repository_Digest (name.Context relocated) (name.Identifier ref)))
          | Err _ =>
              Ok (name.RefTag
                    (name.Repository_Tag (name.Context relocated) (name.Identifier ref)))
          end
      end
  end.


End store.

(** ** The download command (cmd/hauler/cli/download/download.go) *)
Module download.

(** [type Opts struct]. *)
Record Opts : Type := {
  DestinationDir : string;
  Username : string;
  Password : string;
  Insecure : bool;
  PlainHTTP : bool
}.

(** oras' [content.RegistryOptions]; [Cmd] leaves [Configs] nil. *)
Record RegistryOptions : Type := {
  reg_Configs : list string;
  reg_Username : string;
  reg_Password : string;
  reg_Insecure : bool;
  reg_PlainHTTP : bool
}.

Section Cmd.

(** What [Cmd] calls and the sources do not hold: oras' registry and
    copy, the remote package of go-containerregistry, the decoding of an
    [ocispec.Manifest], the mapper store of [internal/mapper], and the
    logger.  [World] is the state they read and change: the network, the
    destination directory and the log. *)
Context {World Registry RemoteDescriptor Manifest Target : Type}.

Variable content_NewRegistry : RegistryOptions -> World -> result Registry * World.
Variable remote_Get : name.Reference -> World -> result RemoteDescriptor * World.
Variable RawManifest : RemoteDescriptor -> result string.
Variable json_Unmarshal : string -> result Manifest.
Variable mapper_FromManifest : Manifest -> string -> World -> result Target * World.
Variable oras_Copy :
  Registry -> string -> Target -> string -> list string -> World
  -> (Descriptor * error) * World.
Variable DockerManifestSchema2 : string.
Variable Infof : string -> list string -> World -> World.

(** [Cmd(ctx, o, reference)]. *)
Definition Cmd (o : Opts) (reference : string) (w : World) : error * World :=
  match content_NewRegistry
          {| reg_Configs := []; reg_Username := Username o; reg_Password := Password o;
             reg_Insecure := Insecure o; reg_PlainHTTP := PlainHTTP o |} w with
  | (Err err, w) => (Some err, w)
  | (Ok rs, w) =>
      match name.ParseReference reference [] with
      | Err err => (Some err, w)
      | Ok ref =>
          match remote_Get ref w with
          | (Err err, w) => (Some err, w)
          | (Ok desc, w) =>
              match RawManifest desc with
              | Err err => (Some err, w)
              | Ok manifestData =>
                  match json_Unmarshal manifestData with
                  | Err err => (Some err, w)
                  | Ok manifest =>
                      match mapper_FromManifest manifest (DestinationDir o) w with
                      | (Err err, w) => (Some err, w)
                      | (Ok mapperStore, w) =>
                          match oras_Copy rs (name.Name ref) mapperStore ""
                                  [DockerManifestSchema2] w with
                          | ((_, Some err), w) => (Some err, w)
                          | ((pushedDesc, None), w) =>
                              (None,
                               Infof "downloaded [%s] with digest [%s]"
                                 [MediaType pushedDesc; Digest pushedDesc] w)
                          end
                      end
                  end
              end
          end
      end
  end.

End Cmd.

End download.

(** ** Vocabulary for the statements about readers *)

(** The reader [Open] returns for the file [name] that holds [content],
    when [off] bytes have been read from it. *)
Definition reader_at (name content : string) (off : nat) : ioutil.nopCloser :=
  {| ioutil.Reader :=
       {| content.offset := Z.of_nat off;
          content.readerAt := os.File_reader name content |} |}.

(** ** Vocabulary for the statements about references *)

(** The registry [NewRegistry] stores for a default registry [registry]:
    the alias docker.io is rewritten to index.docker.io. *)
Definition stored_registry (registry : string) : string :=
  if String.eqb registry name.defaultRegistryAlias then name.DefaultRegistry else registry.

(** The first of several path components holds a '.': [NewRepository]
    reads such a component as a registry domain. *)
Definition dotted_head (path : string) : bool :=
  match strings.Cut path name.regRepoDelimiter with
  | Some (head, _) => strings.ContainsRune head "."
  | None => false
  end.

(** The repository path a Docker Hub registry shows for [path]: a path of
    one component gets the namespace library/. *)
Definition shown_path (registry path : string) : string :=
  name.RepositoryStr
    {| name.Repository_Registry := {| name.reg_insecure := false; name.registry := registry |};
       name.repository := path |}.

(** Two references have the same identifier kind and the same identifier. *)
Definition same_identifier (a b : name.Reference) : Prop :=
  match a, b with
  | name.RefTag t, name.RefTag t' => name.TagStr t' = name.TagStr t
  | name.RefDigest d, name.RefDigest d' => name.DigestStr d' = name.DigestStr d
  | _, _ => False
  end.

(** A registry name that [NewRepository] reads back as the registry when it
    is followed by '/': it is a URI authority and holds a '.' or a ':'. *)
Definition registry_domain (registry : string) : bool :=
  bool_decide (name.checkRegistry registry = None)
  && (strings.ContainsRune registry "." || strings.ContainsRune registry ":").

(** A byte that no part of a reference may hold: it is neither '/' nor
    '@', and a host would have to escape it (a control byte, a space, '#',
    '%', '?', a backslash, '^', a backquote, a brace, '|', DEL). *)
Definition foreign (c : ascii) : bool :=
  (nat_of_ascii c <? 128)%nat && name.shouldEscape_host c
  && negb (Ascii.eqb c "/") && negb (Ascii.eqb c "@").

(** [RelocateReference] applied twice: the first result is passed on by
    its name. *)
Definition relocate_twice (reference R1 R2 : string) : result name.Reference :=
  match store.RelocateReference reference R1 with
  | Err e => Err e
  | Ok mid => store.RelocateReference (name.Name mid) R2
  end.

(** A registry and a repository path as [Repository.Name] prints them and
    [NewRepository] reads them back unchanged. *)
Definition canonical (registry path : string) : Prop :=
  registry_domain registry = true /\
  stored_registry registry = registry /\
  name.checkRepository path = None /\
  (registry = name.DefaultRegistry -> strings.ContainsRune path name.regRepoDelimiter = true).

(** The reference [RelocateReference] builds from a parsed reference: the
    same repository path and identifier in the registry stored for
    [registry]. *)
Definition relocated_to (registry : string) (ref : name.Reference) : name.Reference :=
  let ctx :=
    {| name.Repository_Registry :=
         {| name.reg_insecure := false; name.registry := stored_registry registry |};
       name.repository := name.RepositoryStr (name.Context ref) |} in
  match ref with
  | name.RefTag t => name.RefTag (name.Repository_Tag ctx (name.TagStr t))
  | name.RefDigest d => name.RefDigest (name.Repository_Digest ctx (name.DigestStr d))
  end.


(** ** The artifact adapter, the blob cache and the staging layout

    [pkg/artifact], [internal/cache] and the staging layout of
    [pkg/store] are not among the sources.  This module gives the
    implementation the specification describes, over an environment that
    holds the cache's backing store. *)
Module staged.

(** Modelled from the spec: the interface [artifact.OCI] of [pkg/artifact],
    which is missing, as the artifact adapter capability (section 6):
    [manifest() -> Descriptor], [blob(descriptor) -> byte stream],
    [rawConfig() -> bytes], with the blobs its manifest references.  Bytes
    are strings. *)
Record Artifact : Type := {
  manifest : result Descriptor;
  reported : list Descriptor;
  blob : Descriptor -> result string;
  rawConfig : result string
}.

(** Modelled from the spec: the interface [cache.Cache] of
    [internal/cache], which is missing, as the state behind the cache
    capability (section 6), [get(key) -> (bytes, found)] and
    [put(key, bytes) -> error]: the entries of the cache's backing store,
    and whether I/O on it fails. *)
Record CacheState : Type := {
  entries : gmap string string;
  broken : bool
}.

(** Modelled from the spec: [get(key) -> (bytes, found)]; nothing is
    found in a broken cache. *)
Definition cache_get (c : CacheState) (key : string) : string * bool :=
  if broken c then ("", false)
  else match entries c !! key with
       | Some content => (content, true)
       | None => ("", false)
       end.

(** Modelled from the spec: [put(key, bytes) -> error]; a broken cache
    stores nothing and reports the error. *)
Definition cache_put (c : CacheState) (key content : string) : error * CacheState :=
  if broken c then (Some (ErrExternal "cache" 1), c)
  else (None, {| entries := <[key := content]> (entries c); broken := broken c |}).

(** The environment of an add: the cache's backing store, whether a
    temporary directory can be made, and how often an artifact's own blob
    producer has run. *)
Record Env : Type := {
  cache_state : CacheState;
  tmp_available : bool;
  produced : nat
}.

(** The handle of the process-wide cache ([cache.Cache]). *)
Inductive Cache : Type := process_cache.

(** [artifact.OCI] values: an adapter, or an adapter decorated by the
    cache. *)
Inductive OCI : Type :=
| Plain (a : Artifact)
| Cached (inner : OCI) (c : Cache).

(** Modelled from the spec: [cache.Oci] of [internal/cache], which is
    missing, as the Blob Cache's [wrap(artifact) -> artifact] (section
    4.1). *)
Definition cache_Oci (oci : OCI) (c : Cache) : OCI := Cached oci c.

Fixpoint manifest_of (oci : OCI) : result Descriptor :=
  match oci with
  | Plain a => manifest a
  | Cached inner _ => manifest_of inner
  end.

Fixpoint reported_of (oci : OCI) : list Descriptor :=
  match oci with
  | Plain a => reported a
  | Cached inner _ => reported_of inner
  end.

(** Modelled from the spec: the blob-producing operation of an artifact
    and of the artifact [cache.Oci] returns (section 4.1), which are
    missing.
    The decorated artifact first checks the cache under the blob's
    digest; on a hit it returns the cached bytes without invoking the
    underlying producer; on a miss it invokes the producer, stores the
    result, then returns it; a cache error does not fail the operation. *)
Fixpoint blob_of (oci : OCI) (desc : Descriptor) (e : Env) : result string * Env :=
  match oci with
  | Plain a =>
      (blob a desc,
       {| cache_state := cache_state e; tmp_available := tmp_available e;
          produced := S (produced e) |})
  | Cached inner _ =>
      match cache_get (cache_state e) (Digest desc) with
      | (content, true) => (Ok content, e)
      | (_, false) =>
          match blob_of inner desc e with
          | (Err x, e) => (Err x, e)
          | (Ok content, e) =>
              (Ok content,
               {| cache_state := snd (cache_put (cache_state e) (Digest desc) content);
                  tmp_available := tmp_available e; produced := produced e |})
          end
      end
  end.

(** The staging layout: the reference name and manifest staged, and the
    blobs written. *)
Record layout : Type := {
  staged_name : option string;
  staged_manifest : Descriptor;
  staged_blobs : gmap string string
}.

(** [ArtifactProductionError] (section 7). *)
Definition ArtifactProductionError : err := errors_New "artifact production".

(** Modelled from the spec: [newLayout] of [pkg/store], which is missing:
    a staging layout is a fresh temporary directory (section 3). *)
Definition newLayout (e : Env) : result layout * Env :=
  if tmp_available e
  then (Ok {| staged_name := None; staged_manifest := Descriptor_zero; staged_blobs := ∅ |}, e)
  else (Err (ErrExternal "temporary directory" 1), e).

Section hashed.

(** The content hash of a blob's bytes, as a digest string. *)
Variable hash : string -> string.

(** Modelled from the spec: the writing loop of the missing [layout.add].
    It writes the blobs of [descs] in turn, computing and verifying each
    blob's digest as it is written (section 4.2). *)
Fixpoint write_blobs (oci : OCI) (descs : list Descriptor) (written : gmap string string)
    (e : Env) : result (gmap string string) * Env :=
  match descs with
  | [] => (Ok written, e)
  | desc :: rest =>
      match blob_of oci desc e with
      | (Err x, e) => (Err (errors_Wrap x "artifact production"), e)
      | (Ok content, e) =>
          if String.eqb (hash content) (Digest desc)
          then write_blobs oci rest (<[Digest desc := content]> written) e
          else (Err ArtifactProductionError, e)
      end
  end.

(** Modelled from the spec: [layout.add] of [pkg/store], which is missing,
    as the Staging Layout's [add(artifact, reference)] (section 4.2) once
    the reference is parsed: it writes the artifact's
    manifest and all blobs it reports into the staging directory, and
    fails with [ArtifactProductionError] if the adapter cannot produce its
    declared content. *)
Definition stage_add (l : layout) (oci : OCI) (ref : name.Reference) (e : Env)
    : error * (layout * Env) :=
  match manifest_of oci with
  | Err x => (Some (errors_Wrap x "artifact production"), (l, e))
  | Ok m =>
      match write_blobs oci (m :: reported_of oci) (staged_blobs l) e with
      | (Err x, e) => (Some x, (l, e))
      | (Ok written, e) =>
          (None,
           ({| staged_name := Some (name.Name ref); staged_manifest := m;
               staged_blobs := written |}, e))
      end
  end.

(** Modelled from the spec: [layout.commit] of [pkg/store], which is
    missing, as the Staging Layout's [commit(store)] (section 4.2): it
    copies the entire staged layout into the store as a single
    entry tagged by the staged reference, and returns the manifest's
    descriptor. *)
Definition stage_commit (l : layout) (s : @store.Store Cache) (e : Env)
    : (Descriptor * error) * (@store.Store Cache * Env) :=
  match staged_name l with
  | None => ((Descriptor_zero, Some (errors_New "nothing staged")), (s, e))
  | Some n =>
      ((staged_manifest l, None),
       ({| store.Root := store.Root s;
           store.store :=
             {| nameMap := <[n := staged_manifest l]> (nameMap (store.store s));
                blobs := staged_blobs l ∪ blobs (store.store s) |};
           store.cache := store.cache s |}, e))
  end.

(** [Store.AddArtifact] over this staging layout. *)
Definition AddArtifact := store.AddArtifact cache_Oci newLayout stage_add stage_commit.

(** A collection is its contents, or the error of producing them. *)
Definition Contents (coll : gmap string OCI * error) (e : Env)
    : (gmap string OCI * error) * Env := (coll, e).

(** A range loop that visits a map in the order of [map_to_list]. *)
Definition range_listed {V : Type} (m : gmap string V) : list (string * V) :=
  map_to_list m.

Definition AddCollection :=
  store.AddCollection Contents cache_Oci newLayout stage_add stage_commit (@range_listed).

(** Every cache entry under the digest of a descriptor holds the bytes
    the artifact produces for that descriptor. *)
Definition coherent (a : Artifact) (c : CacheState) : Prop :=
  forall desc content,
    cache_get c (Digest desc) = (content, true) -> blob a desc = Ok content.

(** The artifact's blobs are addressed by content: descriptors of one
    digest produce the same bytes. *)
Definition content_addressed (a : Artifact) : Prop :=
  forall d d', Digest d = Digest d' -> blob a d = blob a d'.

End hashed.

(** A store with the cache field set. *)
Definition with_cache (s : @store.Store Cache) (c : option Cache) : @store.Store Cache :=
  {| store.Root := store.Root s; store.store := store.store s; store.cache := c |}.

End staged.

(** ** Concrete artifacts, stores and environments for the examples *)
Module examples.
Import staged.

(** An injective stand-in for the content hash. *)
Definition digest_of (content : string) : string := "sha256:" +:+ content.

Definition descriptor_of (mediaType content : string) : Descriptor :=
  {| MediaType := mediaType; Digest := digest_of content;
     Size := Z.of_nat (String.length content); Annotations := ∅ |}.

(** The first of [contents] whose digest is [digest]. *)
Fixpoint find_content (contents : list string) (digest : string) : result string :=
  match contents with
  | [] => Err (errors_New "no such blob")
  | content :: rest =>
      if String.eqb (digest_of content) digest then Ok content
      else find_content rest digest
  end.

(** An artifact that holds a manifest document and layers, and produces
    each of them. *)
Definition artifact_of (manifest_document : string) (layers : list string) : Artifact :=
  {| manifest := Ok (descriptor_of "application/vnd.oci.image.manifest.v1+json" manifest_document);
     reported := descriptor_of "application/vnd.oci.image.layer.v1.tar" <$> layers;
     blob := fun desc => find_content (manifest_document :: layers) (Digest desc);
     rawConfig := Ok "{}" |}.

(** The same artifact when its source cannot be reached: it still names
    its manifest and layers, but produces no blob. *)
Definition unreachable (manifest_document : string) (layers : list string) : Artifact :=
  {| manifest := Ok (descriptor_of "application/vnd.oci.image.manifest.v1+json" manifest_document);
     reported := descriptor_of "application/vnd.oci.image.layer.v1.tar" <$> layers;
     blob := fun _ => Err (ErrExternal "source unreachable" 1);
     rawConfig := Err (ErrExternal "source unreachable" 1) |}.

Definition empty_store : @store.Store Cache :=
  {| store.Root := "store";
     store.store := {| nameMap := ∅; blobs := ∅ |};
     store.cache := None |}.

(** An environment with an empty, working cache. *)
Definition fresh : Env :=
  {| cache_state := {| entries := ∅; broken := false |};
     tmp_available := true; produced := 0 |}.

(** An environment whose cache already holds the blobs of the artifact
    made of the document "hello manifest" and the layer "hello". *)
Definition warm : Env :=
  {| cache_state :=
       {| entries := <[digest_of "hello manifest" := "hello manifest"]>
                       (<[digest_of "hello" := "hello"]> ∅);
          broken := false |};
     tmp_available := true; produced := 0 |}.

(** A collection of three items; the one the range loop reaches second
    fails production. *)
Definition three_items : gmap string OCI * error :=
  (list_to_map
     [("charts/first:v1", Plain (artifact_of "manifest one" ["layer one"]));
      ("apps/second:v1", Plain (unreachable "manifest two" ["layer two"]));
      ("base/third:v1", Plain (artifact_of "manifest three" ["layer three"]))],
   None).

(** A file system in which the store directory lies beside other
    content: a notes file inside the store root and a directory next to
    it. *)
Definition disk : os.FS :=
  {| os.cwd := ["srv"];
     os.nodes := list_to_map
       [(["srv"; "store"], os.Dir);
        (["srv"; "store"; "blobs"], os.Dir);
        (["srv"; "store"; "blobs"; "sha256"], os.Dir);
        (["srv"; "store"; "blobs"; "sha256"; "abc"], os.File "hello");
        (["srv"; "store"; "index.json"], os.File "{}");
        (["srv"; "store"; "oci-layout"], os.File "{}");
        (["srv"; "store"; "notes.txt"], os.File "keep");
        (["srv"; "other"], os.Dir)];
     os.pinned := ∅ |}.

(** The same file system when the system refuses to remove index.json. *)
Definition disk_pinned : os.FS :=
  {| os.cwd := os.cwd disk; os.nodes := os.nodes disk;
     os.pinned := {[ ["srv"; "store"; "index.json"] ]} |}.

(** A scanner that knows one manifest document, and reads every other
    stream as a syntax error. *)
Definition scan_hello (rc : string) : result json.value :=
  if String.eqb rc "hello manifest"
  then Ok (json.Object
             [("schemaVersion", json.Number "2");
              ("config",
               json.Object
                 [("mediaType", json.String_ "application/vnd.hauler.file.config.v1+json");
                  ("size", json.Number "2")]);
              ("layers", json.Array [])])
  else Err (errors_New "invalid character").

(** A store that holds the manifest document "hello manifest" under its
    digest. *)
Definition hello_store : @store.Store Cache :=
  {| store.Root := "store";
     store.store :=
       {| nameMap := ∅; blobs := {[ digest_of "hello manifest" := "hello manifest" ]} |};
     store.cache := None |}.

(** A blob store that opens the file of the blob a descriptor's digest
    names. *)
Definition blob_reader (o : OCI_layout) (desc : Descriptor) : result io.ReaderAt :=
  match blobs o !! Digest desc with
  | Some content => Ok (os.File_reader (Digest desc) content)
  | None => Err (errors_New "not found")
  end.

(** A visit function that keeps the digests it is shown. *)
Definition collect (desc : Descriptor) (seen : list string) : error * list string :=
  (None, seen ++ [Digest desc]).

End examples.

(** * Properties *)

(** ** Facts about the string functions *)
#[local] Arguments String.append !_ _ / : simpl nomatch.

Section string_facts.
Import strings.

Lemma ContainsRune_app (a b : string) (c : ascii) :
  ContainsRune (a +:+ b) c = ContainsRune a c || ContainsRune b c.
Proof.
  induction a as [|x a IH]; simpl; [done|].
  by rewrite IH, orb_assoc.
Qed.

Lemma all_bytes_app (ok : ascii -> bool) (a b : string) :
  all_bytes ok (a +:+ b) = all_bytes ok a && all_bytes ok b.
Proof.
  induction a as [|x a IH]; simpl; [done|].
  by rewrite IH, andb_assoc.
Qed.

Lemma all_bytes_excludes (allowed s : string) (c : ascii) :
  all_bytes (ContainsRune allowed) s = true ->
  ContainsRune allowed c = false ->
  ContainsRune s c = false.
Proof.
  induction s as [|x s IH]; simpl; [done|].
  intros [Hx Hs]%andb_true_iff Hc.
  rewrite (IH Hs Hc), orb_false_r.
  destruct (Ascii.eqb_spec x c) as [->|]; [congruence|done].
Qed.

Lemma String_length_app (a b : string) :
  String.length (a +:+ b) = (String.length a + String.length b)%nat.
Proof. induction a as [|x a IH]; simpl; [done|]. by rewrite IH. Qed.

Lemma Split_nonempty (s : string) (c : ascii) : Split s c <> [].
Proof.
  destruct s as [|x s]; simpl; [done|].
  destruct (Ascii.eqb x c); [done|]. by destruct (Split s c).
Qed.

Lemma Split_no_sep (s : string) (c : ascii) :
  ContainsRune s c = false -> Split s c = [s].
Proof.
  induction s as [|x s IH]; simpl; [done|].
  intros [Hx Hs]%orb_false_iff. rewrite Hx, (IH Hs). done.
Qed.

Lemma Split_app_sep (a b : string) (c : ascii) :
  ContainsRune a c = false ->
  Split (a +:+ String c b) c = a :: Split b c.
Proof.
  induction a as [|x a IH]; simpl.
  - intros _. by rewrite Ascii.eqb_refl.
  - intros [Hx Ha]%orb_false_iff. by rewrite Hx, (IH Ha).
Qed.

Lemma Cut_no_sep (s : string) (c : ascii) :
  ContainsRune s c = false -> Cut s c = None.
Proof.
  induction s as [|x s IH]; simpl; [done|].
  intros [Hx Hs]%orb_false_iff. by rewrite Hx, (IH Hs).
Qed.

Lemma Cut_app_sep (a b : string) (c : ascii) :
  ContainsRune a c = false ->
  Cut (a +:+ String c b) c = Some (a, b).
Proof.
  induction a as [|x a IH]; simpl.
  - intros _. by rewrite Ascii.eqb_refl.
  - intros [Hx Ha]%orb_false_iff. by rewrite Hx, (IH Ha).
Qed.

Lemma Cut_Some (s before after : string) (c : ascii) :
  Cut s c = Some (before, after) ->
  s = before +:+ String c after /\ ContainsRune before c = false.
Proof.
  revert before. induction s as [|x s IH]; simpl; [done|]. intros before.
  destruct (Ascii.eqb_spec x c) as [->|Hne].
  - intros [= <- <-]. done.
  - destruct (Cut s c) as [[b' a']|] eqn:E; [|done].
    intros [= <- <-]. destruct (IH b' eq_refl) as [-> Hb]. simpl.
    split; [done|]. rewrite Hb, orb_false_r. by apply Ascii.eqb_neq.
Qed.

Lemma removelast_cons {A} (x : A) (l : list A) :
  l <> [] -> removelast (x :: l) = x :: removelast l.
Proof. by destruct l. Qed.

Lemma last_cons {A} (x d : A) (l : list A) :
  l <> [] -> List.last (x :: l) d = List.last l d.
Proof. by destruct l. Qed.

(** Appending text without separators only extends the last piece. *)
Lemma Split_app_no_sep (a b : string) (c : ascii) :
  ContainsRune b c = false ->
  Split (a +:+ b) c = removelast (Split a c) ++ [List.last (Split a c) "" +:+ b].
Proof.
  intros Hb. induction a as [|x a IH]; simpl.
  - by rewrite (Split_no_sep _ _ Hb).
  - pose proof (Split_nonempty a c) as Hne. rewrite IH.
    destruct (Ascii.eqb x c).
    + rewrite removelast_cons, last_cons by done. done.
    + destruct (Split a c) as [|q qs]; [done|].
      destruct qs as [|q' qs]; [done|].
      rewrite (removelast_cons q), (removelast_cons (String x q)) by done.
      rewrite (last_cons q), (last_cons (String x q)) by done. done.
Qed.

Lemma last_Split_app (a b : string) (c : ascii) :
  ContainsRune b c = false ->
  List.last (Split (a +:+ b) c) "" = List.last (Split a c) "" +:+ b.
Proof. intros Hb. by rewrite (Split_app_no_sep _ _ _ Hb), last_last. Qed.

Lemma app_assoc_s (a b c : string) : (a +:+ b) +:+ c = a +:+ (b +:+ c).
Proof. induction a as [|x a IH]; simpl; [done|]. by rewrite IH. Qed.

Lemma app_empty_r (a : string) : a +:+ "" = a.
Proof. induction a as [|x a IH]; simpl; [done|]. by rewrite IH. Qed.

(** A separator followed by text without separators adds one piece. *)
Lemma Split_app_sep_r (a t : string) (c : ascii) :
  ContainsRune t c = false ->
  Split (a +:+ String c t) c = Split a c ++ [t].
Proof.
  intros Ht. induction a as [|x a IH]; simpl.
  - by rewrite Ascii.eqb_refl, (Split_no_sep _ _ Ht).
  - rewrite IH. destruct (Ascii.eqb x c); [done|].
    pose proof (Split_nonempty a c). by destruct (Split a c).
Qed.

Lemma Join_cons (e : string) (rest : list string) (c : ascii) :
  rest <> [] -> Join (e :: rest) c = e +:+ String c (Join rest c).
Proof. by destruct rest. Qed.

Lemma Join_Split (s : string) (c : ascii) : Join (Split s c) c = s.
Proof.
  induction s as [|x s IH]; simpl; [done|].
  pose proof (Split_nonempty s c) as Hne.
  destruct (Ascii.eqb_spec x c) as [->|].
  - by rewrite Join_cons, IH.
  - destruct (Split s c) as [|q qs]; [done|].
    destruct qs as [|q' qs]; simpl in *; by rewrite <- IH.
Qed.

End string_facts.

(** ** Facts about the reference grammar *)
Section name_facts.
Import strings name.

Lemma checkElement_None (what e allowed : string) (lo hi : nat) :
  checkElement what e allowed lo hi = None <->
  (lo <= String.length e <= hi)%nat /\ all_bytes (ContainsRune allowed) e = true.
Proof.
  unfold checkElement.
  destruct (Nat.ltb_spec (String.length e) lo), (Nat.ltb_spec hi (String.length e));
    simpl; try (split; [done | lia]).
  destruct (all_bytes (ContainsRune allowed) e); simpl; split; try done; try lia.
Qed.

Lemma checkRepository_chars (p : string) (c : ascii) :
  checkRepository p = None -> ContainsRune repositoryChars c = false ->
  ContainsRune p c = false.
Proof. intros [_ H]%checkElement_None. by apply all_bytes_excludes. Qed.

Lemma checkTag_chars (t : string) (c : ascii) :
  checkTag t = None -> ContainsRune tagChars c = false -> ContainsRune t c = false.
Proof. intros [_ H]%checkElement_None. by apply all_bytes_excludes. Qed.

Lemma checkDigest_chars (d : string) (c : ascii) :
  checkDigest d = None -> ContainsRune digestChars c = false -> ContainsRune d c = false.
Proof. intros [_ H]%checkElement_None. by apply all_bytes_excludes. Qed.

Lemma checkRegistry_None (reg : string) :
  checkRegistry reg = None ->
  ContainsRune reg "/" = false /\ ContainsRune reg "@" = false.
Proof.
  unfold checkRegistry.
  destruct (ContainsRune reg "/"), (ContainsRune reg "@"); try done;
    rewrite ?andb_false_r; simpl; rewrite ?andb_false_r; done.
Qed.

Lemma registry_domain_spec (reg : string) :
  registry_domain reg = true ->
  checkRegistry reg = None /\
  (ContainsRune reg "." || ContainsRune reg ":") = true /\
  reg <> "" /\ ContainsRune reg "/" = false /\ ContainsRune reg "@" = false.
Proof.
  unfold registry_domain. intros [Hc%bool_decide_eq_true Hd]%andb_true_iff.
  destruct (checkRegistry_None _ Hc) as [? ?].
  repeat split; try done. intros ->. done.
Qed.

Lemma stored_registry_domain (reg : string) :
  registry_domain reg = true -> registry_domain (stored_registry reg) = true.
Proof.
  unfold stored_registry. destruct (String.eqb reg defaultRegistryAlias); [|done].
  intros _. by vm_compute.
Qed.

Lemma stored_registry_idem (reg : string) :
  stored_registry (stored_registry reg) = stored_registry reg.
Proof.
  unfold stored_registry. destruct (String.eqb reg defaultRegistryAlias) eqn:E; [done|].
  by rewrite E.
Qed.

Section with_options.
Variable opts : list Option.
Hypothesis weak : strict (makeOptions opts) = false.

Lemma NewRegistry_ok (reg : string) :
  checkRegistry reg = None ->
  NewRegistry reg opts =
    Ok {| reg_insecure := insecure (makeOptions opts);
          registry := stored_registry
                        (if String.eqb reg "" then defaultRegistry (makeOptions opts) else reg) |}.
Proof. intros Hc. unfold NewRegistry. rewrite weak, Hc. done. Qed.

(** A path whose first component is no registry domain is read as a
    repository of the default registry. *)
Lemma NewRepository_plain (path : string) :
  checkRepository path = None -> dotted_head path = false ->
  NewRepository path opts =
    Ok {| Repository_Registry :=
            {| reg_insecure := insecure (makeOptions opts);
               registry := stored_registry (defaultRegistry (makeOptions opts)) |};
          repository := path |}.
Proof.
  intros Hp Hd. unfold NewRepository.
  pose proof Hp as [[Hlen _] _]%checkElement_None.
  destruct (Nat.eqb_spec (String.length path) 0) as [E|_]; [lia|].
  assert (SplitN2 path regRepoDelimiter = [path] \/
          exists p0 p1, SplitN2 path regRepoDelimiter = [p0; p1] /\
                        (ContainsRune p0 "." || ContainsRune p0 ":") = false) as Hs.
  { unfold SplitN2, dotted_head in *.
    destruct (Cut path regRepoDelimiter) as [[p0 p1]|] eqn:E; [|by left].
    right. exists p0, p1. split; [done|]. rewrite Hd. simpl.
    apply Cut_Some in E as [-> _].
    assert (ContainsRune (p0 +:+ String regRepoDelimiter p1) ":" = false) as H
      by (by apply checkRepository_chars).
    rewrite ContainsRune_app in H. by apply orb_false_iff in H as [? _]. }
  destruct Hs as [-> | (p0 & p1 & -> & ->)]; rewrite Hp, (NewRegistry_ok "") by done;
    rewrite weak, andb_false_r; done.
Qed.

(** A registry domain in front of a path is read back as the registry. *)
Lemma NewRepository_join (reg path : string) :
  registry_domain reg = true -> checkRepository path = None ->
  NewRepository (reg +:+ String regRepoDelimiter path) opts =
    Ok {| Repository_Registry :=
            {| reg_insecure := insecure (makeOptions opts);
               registry := stored_registry reg |};
          repository := path |}.
Proof.
  intros (Hc & Hd & Hne & Hslash & _)%registry_domain_spec Hp. unfold NewRepository.
  destruct (Nat.eqb_spec (String.length (reg +:+ String regRepoDelimiter path)) 0) as [E|_].
  { rewrite String_length_app in E. simpl in E. lia. }
  unfold SplitN2. rewrite (Cut_app_sep _ _ _ Hslash), Hd, Hp, (NewRegistry_ok _ Hc).
  rewrite weak, andb_false_r.
  destruct (String.eqb_spec reg ""); done.
Qed.

Lemma NewRegistry_Ok_inv (reg : string) (r : Registry) :
  NewRegistry reg opts = Ok r -> checkRegistry reg = None.
Proof.
  unfold NewRegistry. rewrite weak. simpl.
  by destruct (checkRegistry reg).
Qed.

Lemma NewRepository_no_at (b : string) (r : Repository) :
  NewRepository b opts = Ok r -> ContainsRune b "@" = false.
Proof.
  unfold NewRepository. destruct (String.length b =? 0)%nat; [done|].
  assert (forall reg repo,
    match checkRepository repo with
    | Some e => Err e
    | None =>
        match NewRegistry reg opts with
        | Err e => Err e
        | Ok reg0 =>
            if hasImplicitNamespace repo reg0 && strict (makeOptions opts)
            then Err (ErrBadName
              "strict validation requires the full repository path (missing 'library')")
            else Ok {| Repository_Registry := reg0; repository := repo |}
        end
    end = Ok r ->
    ContainsRune repo "@" = false /\ checkRegistry reg = None) as Hin.
  { intros reg repo. destruct (checkRepository repo) eqn:Hp; [done|].
    destruct (NewRegistry reg opts) eqn:Hr; [|done]. intros _.
    split; [by apply checkRepository_chars | by eapply NewRegistry_Ok_inv]. }
  unfold SplitN2. destruct (Cut b regRepoDelimiter) as [[p0 p1]|] eqn:E.
  - destruct (ContainsRune p0 "." || ContainsRune p0 ":").
    + intros [H1 [_ H2]%checkRegistry_None]%Hin.
      apply Cut_Some in E as [-> _]. rewrite ContainsRune_app. simpl.
      by rewrite H1, H2.
    + by intros [H1 _]%Hin.
  - by intros [H1 _]%Hin.
Qed.

Lemma NewTag_plain (path : string) :
  checkRepository path = None -> dotted_head path = false ->
  NewTag path opts =
    Ok {| Tag_Repository :=
            {| Repository_Registry :=
                 {| reg_insecure := insecure (makeOptions opts);
                    registry := stored_registry (defaultRegistry (makeOptions opts)) |};
               repository := path |};
          tag := defaultTag (makeOptions opts);
          Tag_original := path |}.
Proof.
  intros Hp Hd. unfold NewTag.
  rewrite (Split_no_sep path tagDelim) by (by apply checkRepository_chars).
  simpl. rewrite weak, (NewRepository_plain _ Hp Hd). done.
Qed.

Lemma NewTag_join (reg path : string) :
  registry_domain reg = true -> checkRepository path = None ->
  NewTag (reg +:+ String regRepoDelimiter path) opts =
    Ok {| Tag_Repository :=
            {| Repository_Registry :=
                 {| reg_insecure := insecure (makeOptions opts);
                    registry := stored_registry reg |};
               repository := path |};
          tag := defaultTag (makeOptions opts);
          Tag_original := reg +:+ String regRepoDelimiter path |}.
Proof.
  intros Hr Hp. unfold NewTag.
  assert (ContainsRune (String regRepoDelimiter path) tagDelim = false) as Hc.
  { simpl. by apply checkRepository_chars. }
  rewrite (last_Split_app _ _ _ Hc), ContainsRune_app. simpl.
  rewrite orb_true_r, andb_false_r. simpl.
  rewrite weak, (NewRepository_join _ _ Hr Hp). done.
Qed.

Lemma tagged_pieces (base tg : string) :
  checkTag tg = None ->
  let parts := Split (base +:+ String tagDelim tg) tagDelim in
  ((1 <? length parts)%nat && negb (ContainsRune (List.last parts "") regRepoDelimiter)) = true
  /\ Join (removelast parts) tagDelim = base
  /\ List.last parts "" = tg
  /\ String.eqb tg "" = false.
Proof.
  intros Ht parts. unfold parts.
  rewrite Split_app_sep_r by (by apply checkTag_chars).
  rewrite last_last, removelast_last, Join_Split, length_app. simpl.
  rewrite (checkTag_chars tg regRepoDelimiter) by done.
  pose proof (Split_nonempty base tagDelim).
  repeat split.
  - rewrite andb_true_r. apply Nat.ltb_lt.
    destruct (Split base tagDelim); [done|simpl; lia].
  - apply checkElement_None in Ht as [[? _] _].
    destruct tg; [simpl in *; lia | done].
Qed.

Lemma NewTag_with_tag (base tg : string) (repo : Repository) :
  checkTag tg = None -> NewRepository base opts = Ok repo ->
  NewTag (base +:+ String tagDelim tg) opts =
    Ok {| Tag_Repository := repo; tag := tg;
          Tag_original := base +:+ String tagDelim tg |}.
Proof.
  intros Ht Hr. destruct (tagged_pieces base tg Ht) as (Hc & Hb & Hl & Hne).
  unfold NewTag. rewrite Hc, Hb, Hl, Hne. simpl. rewrite Ht, Hr. done.
Qed.

Lemma NewRepository_inv (s : string) (r : Repository) :
  NewRepository s opts = Ok r ->
  checkRepository (repository r) = None /\
  ((s = repository r /\
    Repository_Registry r =
      {| reg_insecure := insecure (makeOptions opts);
         registry := stored_registry (defaultRegistry (makeOptions opts)) |}) \/
   (exists p0, s = p0 +:+ String regRepoDelimiter (repository r) /\
      registry_domain p0 = true /\
      Repository_Registry r =
        {| reg_insecure := insecure (makeOptions opts); registry := stored_registry p0 |})).
Proof.
  unfold NewRepository. destruct (String.length s =? 0)%nat; [done|].
  assert (forall reg repo,
    match checkRepository repo with
    | Some e => Err e
    | None =>
        match NewRegistry reg opts with
        | Err e => Err e
        | Ok reg0 =>
            if hasImplicitNamespace repo reg0 && strict (makeOptions opts)
            then Err (ErrBadName
              "strict validation requires the full repository path (missing 'library')")
            else Ok {| Repository_Registry := reg0; repository := repo |}
        end
    end = Ok r ->
    checkRepository repo = None /\ checkRegistry reg = None /\ repository r = repo /\
    Repository_Registry r =
      {| reg_insecure := insecure (makeOptions opts);
         registry := stored_registry
                       (if String.eqb reg "" then defaultRegistry (makeOptions opts) else reg) |})
    as Hin.
  { intros reg repo. destruct (checkRepository repo) eqn:Hp; [done|].
    destruct (NewRegistry reg opts) as [reg0|] eqn:Hr; [|done].
    rewrite weak, andb_false_r. intros [= <-]. simpl.
    pose proof (NewRegistry_Ok_inv _ _ Hr) as Hc.
    rewrite (NewRegistry_ok _ Hc) in Hr. by injection Hr as <-. }
  unfold SplitN2. destruct (Cut s regRepoDelimiter) as [[p0 p1]|] eqn:E.
  - destruct (ContainsRune p0 "." || ContainsRune p0 ":") eqn:Hd.
    + intros (Hp & Hc & Hrepo & Hreg)%Hin. rewrite Hrepo. split; [done|]. right.
      exists p0. apply Cut_Some in E as [-> _]. split; [done|].
      assert (registry_domain p0 = true) as Hdom.
      { unfold registry_domain. rewrite Hd, andb_true_r. by apply bool_decide_eq_true. }
      split; [done|]. rewrite Hreg.
      apply registry_domain_spec in Hdom as (_ & _ & Hne & _).
      by destruct (String.eqb_spec p0 "").
    + intros (Hp & Hc & Hrepo & Hreg)%Hin. rewrite Hrepo. split; [done|]. by left.
  - intros (Hp & Hc & Hrepo & Hreg)%Hin. rewrite Hrepo. split; [done|]. by left.
Qed.

Lemma Join_removelast (parts : list string) (c : ascii) :
  (1 < length parts)%nat ->
  Join parts c = Join (removelast parts) c +:+ String c (List.last parts "").
Proof.
  induction parts as [|p parts IH]; [simpl; lia|]. intros Hlen.
  destruct parts as [|q parts]; [simpl in *; lia|].
  destruct parts as [|q' parts]; [done|].
  rewrite (Join_cons p), (removelast_cons p), (last_cons p) by done.
  rewrite IH by (simpl; lia).
  rewrite (removelast_cons q) by done.
  rewrite (Join_cons p) by done.
  by rewrite app_assoc_s.
Qed.

Lemma NewTag_inv (s : string) (t : Tag) :
  NewTag s opts = Ok t ->
  exists base,
    NewRepository base opts = Ok (Tag_Repository t) /\
    ((s = base /\ tag t = defaultTag (makeOptions opts)) \/
     (s = base +:+ String tagDelim (tag t) /\ checkTag (tag t) = None) \/
     (s = base +:+ String tagDelim "" /\ tag t = defaultTag (makeOptions opts))).
Proof.
  unfold NewTag. set (parts := Split s tagDelim).
  assert (Join parts tagDelim = s) as Hjoin by apply Join_Split.
  destruct ((1 <? length parts)%nat
            && negb (ContainsRune (List.last parts "") regRepoDelimiter)) eqn:Hcond.
  - apply andb_true_iff in Hcond as [Hlen%Nat.ltb_lt _].
    rewrite (Join_removelast _ _ Hlen) in Hjoin.
    set (base := Join (removelast parts) tagDelim) in *.
    set (tg := List.last parts "") in *.
    rewrite weak, orb_false_r.
    destruct (String.eqb_spec tg "") as [E|E]; simpl.
    + destruct (NewRepository base opts) as [repo|] eqn:Hr; [|done].
      intros [= <-]. simpl. exists base. split; [done|]. right; right.
      by rewrite <- Hjoin, E.
    + destruct (checkTag tg) eqn:Ht; [done|].
      destruct (NewRepository base opts) as [repo|] eqn:Hr; [|done].
      intros [= <-]. simpl. exists base. split; [done|]. right; left. done.
  - rewrite weak. simpl.
    destruct (NewRepository s opts) as [repo|] eqn:Hr; [|done].
    intros [= <-]. simpl. exists s. split; [done|]. by left.
Qed.

Lemma NewTag_no_at (s : string) (t : Tag) :
  NewTag s opts = Ok t -> ContainsRune s digestDelim = false.
Proof.
  intros (base & Hr%NewRepository_no_at & [[-> _] | [[-> Ht] | [-> _]]])%NewTag_inv;
    unfold digestDelim.
  - done.
  - rewrite ContainsRune_app. simpl. rewrite Hr.
    by rewrite (checkTag_chars _ "@" Ht).
  - rewrite ContainsRune_app. simpl. by rewrite Hr.
Qed.

Lemma NewDigest_inv (s : string) (d : Digest) :
  NewDigest s opts = Ok d ->
  checkDigest (digest d) = None /\
  exists base, NewRepository base opts = Ok (Digest_Repository d).
Proof.
  unfold NewDigest. destruct (Split s digestDelim) as [|b [|dg [|? ?]]]; try done.
  destruct (checkDigest dg) eqn:Hd; [done|].
  destruct (NewRepository _ opts) as [repo|] eqn:Hr; [|done].
  intros [= <-]. simpl. eauto.
Qed.

End with_options.

Lemma weak_nil : strict (makeOptions []) = false.
Proof. done. Qed.

Lemma weak_registry (g : string) : strict (makeOptions [WithDefaultRegistry g]) = false.
Proof. done. Qed.

Lemma Repository_Name_domain (r : Repository) :
  registry_domain (registry (Repository_Registry r)) = true ->
  Repository_Name r =
    registry (Repository_Registry r) +:+ String regRepoDelimiter (RepositoryStr r).
Proof.
  intros (_ & _ & Hne & _)%registry_domain_spec. unfold Repository_Name, Registry_Name, RegistryStr.
  by destruct (String.eqb_spec (registry (Repository_Registry r)) "").
Qed.

Lemma canonical_RepositoryStr (b : bool) (reg path : string) :
  canonical reg path ->
  RepositoryStr {| Repository_Registry := {| reg_insecure := b; registry := reg |};
                   repository := path |} = path.
Proof.
  intros (_ & _ & _ & Hhub). unfold RepositoryStr, hasImplicitNamespace, RegistryStr. simpl.
  destruct (String.eqb_spec reg DefaultRegistry) as [E|_].
  - specialize (Hhub E). unfold regRepoDelimiter in Hhub. by rewrite Hhub.
  - by rewrite andb_false_r.
Qed.

Lemma canonical_Name (b : bool) (reg path : string) :
  canonical reg path ->
  Repository_Name {| Repository_Registry := {| reg_insecure := b; registry := reg |};
                     repository := path |} = reg +:+ String regRepoDelimiter path.
Proof.
  intros Hc. rewrite Repository_Name_domain by apply Hc.
  by rewrite canonical_RepositoryStr.
Qed.

Lemma canonical_no_at (reg path : string) :
  canonical reg path ->
  ContainsRune (reg +:+ String regRepoDelimiter path) digestDelim = false.
Proof.
  intros ((_ & _ & _ & _ & Hat)%registry_domain_spec & _ & Hp & _).
  rewrite ContainsRune_app. simpl. unfold digestDelim. rewrite Hat.
  by rewrite (checkRepository_chars _ "@" Hp).
Qed.

(** What [Repository.Name] prints, [NewRepository] reads back. *)
Lemma NewRepository_canonical (reg path : string) :
  canonical reg path ->
  NewRepository (reg +:+ String regRepoDelimiter path) [] =
    Ok {| Repository_Registry := {| reg_insecure := false; registry := reg |};
          repository := path |}.
Proof.
  intros (Hd & Hs & Hp & _). rewrite (NewRepository_join [] weak_nil _ _ Hd Hp).
  by rewrite Hs.
Qed.

Lemma NewTag_canonical (reg path tg : string) :
  canonical reg path -> checkTag tg = None ->
  NewTag ((reg +:+ String regRepoDelimiter path) +:+ String tagDelim tg) [] =
    Ok {| Tag_Repository :=
            {| Repository_Registry := {| reg_insecure := false; registry := reg |};
               repository := path |};
          tag := tg;
          Tag_original := (reg +:+ String regRepoDelimiter path) +:+ String tagDelim tg |}.
Proof.
  intros Hc Ht. apply NewTag_with_tag; [done|].
  by apply NewRepository_canonical.
Qed.

Lemma NewDigest_canonical (reg path dig : string) :
  canonical reg path -> checkDigest dig = None ->
  NewDigest ((reg +:+ String regRepoDelimiter path) +:+ String digestDelim dig) [] =
    Ok {| Digest_Repository :=
            {| Repository_Registry := {| reg_insecure := false; registry := reg |};
               repository := path |};
          digest := dig;
          Digest_original :=
            (reg +:+ String regRepoDelimiter path) +:+ String digestDelim dig |}.
Proof.
  intros Hc Hd. unfold NewDigest.
  rewrite (Split_app_sep _ _ _ (canonical_no_at _ _ Hc)).
  rewrite (Split_no_sep dig) by (by apply checkDigest_chars).
  rewrite Hd.
  destruct Hc as (Hdom & Hs & Hp & Hhub).
  rewrite (NewTag_join [] weak_nil _ _ Hdom Hp). simpl Tag_Repository. rewrite Hs.
  rewrite canonical_Name by done.
  by rewrite NewRepository_canonical.
Qed.

Lemma ParseReference_canonical_tag (reg path tg : string) :
  canonical reg path -> checkTag tg = None ->
  ParseReference ((reg +:+ String regRepoDelimiter path) +:+ String tagDelim tg) [] =
    Ok (RefTag
          {| Tag_Repository :=
               {| Repository_Registry := {| reg_insecure := false; registry := reg |};
                  repository := path |};
             tag := tg;
             Tag_original := (reg +:+ String regRepoDelimiter path) +:+ String tagDelim tg |}).
Proof.
  intros Hc Ht. unfold ParseReference. by rewrite NewTag_canonical.
Qed.

Lemma ParseReference_canonical_digest (reg path dig : string) :
  canonical reg path -> checkDigest dig = None ->
  ParseReference ((reg +:+ String regRepoDelimiter path) +:+ String digestDelim dig) [] =
    Ok (RefDigest
          {| Digest_Repository :=
               {| Repository_Registry := {| reg_insecure := false; registry := reg |};
                  repository := path |};
             digest := dig;
             Digest_original :=
               (reg +:+ String regRepoDelimiter path) +:+ String digestDelim dig |}).
Proof.
  intros Hc Hd. unfold ParseReference.
  destruct (NewTag _ []) as [t|] eqn:Ht.
  - apply (NewTag_no_at [] weak_nil) in Ht. rewrite ContainsRune_app in Ht. simpl in Ht.
    rewrite ?Ascii.eqb_refl, ?orb_true_r in Ht. done.
  - by rewrite NewDigest_canonical.
Qed.

Lemma RepositoryStr_check (r : Repository) :
  checkRepository (repository r) = None ->
  (String.length (RepositoryStr r) <= 255)%nat ->
  checkRepository (RepositoryStr r) = None /\
  (registry (Repository_Registry r) = DefaultRegistry ->
   ContainsRune (RepositoryStr r) regRepoDelimiter = true).
Proof.
  intros Hp Hlen. revert Hlen. unfold RepositoryStr.
  destruct (hasImplicitNamespace _ _) eqn:Hi; intros Hlen.
  - split; [|done]. apply checkElement_None in Hp as [_ Hchars].
    apply checkElement_None. split.
    + split; [|done]. rewrite String_length_app. simpl. lia.
    + by rewrite !all_bytes_app, Hchars.
  - split; [done|]. intros E. unfold hasImplicitNamespace, RegistryStr in Hi.
    rewrite E in Hi. simpl in Hi. rewrite andb_true_r in Hi.
    by apply negb_false_iff in Hi.
Qed.

(** Every repository parsed with the default options prints canonically. *)
Lemma parsed_Repository_canonical (s : string) (r : Repository) :
  NewRepository s [] = Ok r ->
  (String.length (RepositoryStr r) <= 255)%nat ->
  canonical (registry (Repository_Registry r)) (RepositoryStr r) /\
  reg_insecure (Repository_Registry r) = false.
Proof.
  intros [Hp Hreg]%(NewRepository_inv [] weak_nil) Hlen.
  destruct (RepositoryStr_check r Hp Hlen) as [Hp' Hhub].
  assert (registry_domain (registry (Repository_Registry r)) = true /\
          stored_registry (registry (Repository_Registry r)) = registry (Repository_Registry r) /\
          reg_insecure (Repository_Registry r) = false) as (H1 & H2 & H3).
  { destruct Hreg as [[_ ->] | (p0 & _ & Hd & ->)]; simpl.
    - done.
    - split; [by apply stored_registry_domain|]. split; [apply stored_registry_idem|done]. }
  done.
Qed.

Lemma parsed_Reference_canonical (reference : string) (ref : Reference) :
  ParseReference reference [] = Ok ref ->
  (String.length (RepositoryStr (Context ref)) <= 255)%nat ->
  canonical (registry (Repository_Registry (Context ref))) (RepositoryStr (Context ref)) /\
  reg_insecure (Repository_Registry (Context ref)) = false /\
  match ref with
  | RefTag t => checkTag (tag t) = None
  | RefDigest d => checkDigest (digest d) = None
  end.
Proof.
  unfold ParseReference. destruct (NewTag reference []) as [t|] eqn:Ht.
  - intros [= <-] Hlen. simpl in *.
    apply (NewTag_inv [] weak_nil) in Ht as (base & Hr & Htag).
    destruct (parsed_Repository_canonical _ _ Hr Hlen) as [? ?].
    split; [done|]. split; [done|].
    destruct Htag as [[_ ->] | [[_ ?] | [_ ->]]]; done.
  - destruct (NewDigest reference []) as [d|] eqn:Hd; [|done].
    intros [= <-] Hlen. simpl in *.
    apply NewDigest_inv in Hd as (Hdig & base & Hr).
    destruct (parsed_Repository_canonical _ _ Hr Hlen) as [? ?]. done.
Qed.

(** The name of a parsed reference: registry, path and identifier. *)
Lemma Name_parsed (ref : Reference) :
  registry_domain (registry (Repository_Registry (Context ref))) = true ->
  Name ref =
    (registry (Repository_Registry (Context ref))
       +:+ String regRepoDelimiter (RepositoryStr (Context ref)))
    +:+ String (match ref with RefTag _ => tagDelim | RefDigest _ => digestDelim end)
          (Identifier ref).
Proof.
  intros Hd. destruct ref as [t|d]; simpl in *;
    unfold Tag_Name, Digest_Name; by rewrite Repository_Name_domain.
Qed.

End name_facts.

(** ** RelocateReference *)
Section relocate_facts.
Import strings name store.

(** The result of [RelocateReference] on a parsed reference whose
    repository path [NewRepository] reads as a path. *)
Lemma RelocateReference_eq (reference registry : string) (ref : Reference) :
  ParseReference reference [] = Ok ref ->
  (String.length (RepositoryStr (Context ref)) <= 255)%nat ->
  dotted_head (RepositoryStr (Context ref)) = false ->
  RelocateReference reference registry = Ok (relocated_to registry ref).
Proof.
  intros Hparse Hlen Hdot.
  destruct (parsed_Reference_canonical _ _ Hparse Hlen) as (Hc & Hins & Hid).
  unfold RelocateReference. rewrite Hparse.
  unfold ParseReference at 1.
  rewrite (NewTag_plain _ (weak_registry registry)) by (done || apply Hc).
  simpl Context at 1.
  rewrite Name_parsed by apply Hc.
  destruct ref as [t|d]; unfold Context, Identifier, TagStr, DigestStr in *.
  - unfold NewDigest. rewrite Split_no_sep; [done|].
    rewrite ContainsRune_app, (canonical_no_at _ _ Hc). simpl.
    by apply checkTag_chars.
  - by rewrite (NewDigest_canonical _ _ _ Hc Hid).
Qed.

Lemma shown_path_eq (reg path : string) :
  shown_path reg path =
    if negb (ContainsRune path "/") && String.eqb reg DefaultRegistry
    then "library/" +:+ path else path.
Proof. done. Qed.

Lemma relocated_to_Context (registry : string) (ref : Reference) :
  Context (relocated_to registry ref) =
    {| Repository_Registry := {| reg_insecure := false; name.registry := stored_registry registry |};
       repository := RepositoryStr (Context ref) |}.
Proof. by destruct ref. Qed.

Lemma relocated_to_identifier (registry : string) (ref : Reference) :
  same_identifier ref (relocated_to registry ref).
Proof. by destruct ref. Qed.

Lemma same_identifier_trans (a b c : Reference) :
  same_identifier a b -> same_identifier b c -> same_identifier a c.
Proof. destruct a, b, c; simpl; try done; congruence. Qed.

(** C3 (amended): for every reference string that parses, whose repository
    path has at most 255 characters and does not start with a dotted
    component followed by '/', and for every registry string,
    RelocateReference succeeds; the result's registry is the given registry
    (docker.io being stored as index.docker.io), its repository path is the
    input's repository path (with library/ in front when that path has one
    component and the registry is index.docker.io), and its identifier has
    the input's kind and value: a tag stays that tag, a digest stays that
    digest. *)
Theorem RelocateReference_relocates (reference registry : string) (ref : Reference) :
  ParseReference reference [] = Ok ref ->
  (String.length (RepositoryStr (Context ref)) <= 255)%nat ->
  dotted_head (RepositoryStr (Context ref)) = false ->
  exists out,
    RelocateReference reference registry = Ok out /\
    RegistryStr (Repository_Registry (Context out)) = stored_registry registry /\
    RepositoryStr (Context out) =
      shown_path (stored_registry registry) (RepositoryStr (Context ref)) /\
    same_identifier ref out.
Proof.
  intros Hparse Hlen Hdot. exists (relocated_to registry ref).
  split; [by apply RelocateReference_eq|].
  rewrite relocated_to_Context. split; [done|]. split; [done|].
  apply relocated_to_identifier.
Qed.

Lemma RelocateReference_relocates_witness :
  exists ref,
    ParseReference "gcr.io/rancher/hauler:v0.3.0" [] = Ok ref /\
    exists out,
      RelocateReference "gcr.io/rancher/hauler:v0.3.0" "registry.local:5000" = Ok out /\
      RegistryStr (Repository_Registry (Context out)) = stored_registry "registry.local:5000" /\
      RepositoryStr (Context out) =
        shown_path (stored_registry "registry.local:5000") (RepositoryStr (Context ref)) /\
      same_identifier ref out.
Proof.
  eexists. split; [vm_compute; reflexivity|].
  apply (RelocateReference_relocates "gcr.io/rancher/hauler:v0.3.0" "registry.local:5000").
  - vm_compute; reflexivity.
  - vm_compute. lia.
  - vm_compute; reflexivity.
Defined.

(** C3 as stated fails.  Relocating gcr.io/foo:v1 to index.docker.io
    changes the repository path from foo to library/foo, and relocating it
    to docker.io yields the registry index.docker.io; relocating
    gcr.io/foo.bar/baz:v1 to myreg.io yields the registry foo.bar, not
    myreg.io, and the repository path baz, not foo.bar/baz; and the Docker
    Hub repository named by 250 letters parses but cannot be relocated,
    its path library/aaa... being longer than 255 characters. *)
Lemma RelocateReference_counterexample :
  (exists ref out,
     ParseReference "gcr.io/foo:v1" [] = Ok ref /\
     RelocateReference "gcr.io/foo:v1" "index.docker.io" = Ok out /\
     RepositoryStr (Context ref) = "foo" /\
     RepositoryStr (Context out) = "library/foo" /\
     RepositoryStr (Context out) <> RepositoryStr (Context ref)) /\
  (exists out,
     RelocateReference "gcr.io/foo:v1" "docker.io" = Ok out /\
     RegistryStr (Repository_Registry (Context out)) = "index.docker.io" /\
     RegistryStr (Repository_Registry (Context out)) <> "docker.io") /\
  (exists ref out,
     ParseReference "gcr.io/foo.bar/baz:v1" [] = Ok ref /\
     RelocateReference "gcr.io/foo.bar/baz:v1" "myreg.io" = Ok out /\
     RepositoryStr (Context ref) = "foo.bar/baz" /\
     RegistryStr (Repository_Registry (Context out)) = "foo.bar" /\
     RepositoryStr (Context out) = "baz" /\
     RegistryStr (Repository_Registry (Context out)) <> "myreg.io" /\
     RepositoryStr (Context out) <> RepositoryStr (Context ref)).
Proof.
  split; [|split].
  - eexists _, _. split; [vm_compute; reflexivity|]. split; [vm_compute; reflexivity|].
    by vm_compute.
  - eexists. split; [vm_compute; reflexivity|]. by vm_compute.
  - eexists _, _. split; [vm_compute; reflexivity|]. split; [vm_compute; reflexivity|].
    by vm_compute.
Qed.

Lemma dotted_head_shown (reg path : string) :
  dotted_head path = false -> dotted_head (shown_path reg path) = false.
Proof.
  intros Hd. rewrite shown_path_eq.
  by destruct (negb (ContainsRune path "/") && String.eqb reg DefaultRegistry).
Qed.

(** The reference a relocation returns prints as a name that parses back
    to the same registry, path and identifier, when the registry is one
    [NewRepository] recognises. *)
Lemma ParseReference_relocated (R1 : string) (ref : Reference) :
  registry_domain R1 = true ->
  (String.length (shown_path (stored_registry R1) (RepositoryStr (Context ref))) <= 255)%nat ->
  canonical (name.registry (Repository_Registry (Context ref))) (RepositoryStr (Context ref)) ->
  match ref with
  | RefTag t => checkTag (tag t) = None
  | RefDigest d => checkDigest (digest d) = None
  end ->
  exists ref',
    ParseReference (Name (relocated_to R1 ref)) [] = Ok ref' /\
    RepositoryStr (Context ref') = shown_path (stored_registry R1) (RepositoryStr (Context ref)) /\
    same_identifier ref ref'.
Proof.
  intros Hdom Hlen (_ & _ & Hp & _) Hid.
  set (path := RepositoryStr (Context ref)) in *.
  set (ctx := {| Repository_Registry :=
                   {| reg_insecure := false; name.registry := stored_registry R1 |};
                 repository := path |}).
  assert (canonical (stored_registry R1) (shown_path (stored_registry R1) path)) as Hc.
  { destruct (RepositoryStr_check ctx Hp Hlen) as [? ?].
    split; [by apply stored_registry_domain|]. split; [apply stored_registry_idem|]. done. }
  pose proof (Name_parsed (relocated_to R1 ref)) as HN.
  rewrite relocated_to_Context in HN. fold path ctx in HN.
  change (RepositoryStr ctx) with (shown_path (stored_registry R1) path) in HN.
  rewrite HN by apply Hc. clear HN.
  destruct ref as [t|d]; unfold relocated_to; cbn [Identifier Repository_Tag Repository_Digest TagStr DigestStr tag digest].
  - eexists. split; [by apply ParseReference_canonical_tag|].
    split; [|done]. cbn [Context Tag_Repository]. by apply canonical_RepositoryStr.
  - eexists. split; [by apply ParseReference_canonical_digest|].
    split; [|done]. cbn [Context Digest_Repository]. by apply canonical_RepositoryStr.
Qed.

(** C4 (amended): for every reference string that parses, whose repository
    path does not start with a dotted component followed by '/', for every
    registry R1 that is a URI authority holding a '.' or a ':', and for
    every registry R2, relocating to R1 and relocating the result's name to
    R2 succeeds when the repository paths involved have at most 255
    characters; the result has registry R2 (docker.io being stored as
    index.docker.io), the identifier kind and value of the input, and the
    input's repository path, with library/ in front when that path has one
    component and R1 or R2 is stored as index.docker.io. *)
Theorem relocate_twice_relocates (reference R1 R2 : string) (ref : Reference) :
  ParseReference reference [] = Ok ref ->
  (String.length (RepositoryStr (Context ref)) <= 255)%nat ->
  (String.length (shown_path (stored_registry R1) (RepositoryStr (Context ref))) <= 255)%nat ->
  dotted_head (RepositoryStr (Context ref)) = false ->
  registry_domain R1 = true ->
  exists out,
    relocate_twice reference R1 R2 = Ok out /\
    RegistryStr (Repository_Registry (Context out)) = stored_registry R2 /\
    RepositoryStr (Context out) =
      shown_path (stored_registry R2)
        (shown_path (stored_registry R1) (RepositoryStr (Context ref))) /\
    same_identifier ref out.
Proof.
  intros Hparse Hlen Hlen1 Hdot Hdom.
  destruct (parsed_Reference_canonical _ _ Hparse Hlen) as (Hc & _ & Hid).
  destruct (ParseReference_relocated R1 ref Hdom Hlen1 Hc Hid) as (ref' & Hparse' & Hpath & Hsame).
  unfold relocate_twice. rewrite (RelocateReference_eq _ R1 _ Hparse Hlen Hdot).
  exists (relocated_to R2 ref'). split.
  { apply RelocateReference_eq; [done | by rewrite Hpath |].
    rewrite Hpath. by apply dotted_head_shown. }
  rewrite relocated_to_Context, Hpath. split; [done|]. split; [done|].
  eapply same_identifier_trans; [done|]. apply relocated_to_identifier.
Qed.

Lemma relocate_twice_relocates_witness :
  exists ref,
    ParseReference "gcr.io/rancher/hauler:v0.3.0" [] = Ok ref /\
    exists out,
      relocate_twice "gcr.io/rancher/hauler:v0.3.0" "registry.local:5000" "harbor.example.com"
        = Ok out /\
      RegistryStr (Repository_Registry (Context out)) = stored_registry "harbor.example.com" /\
      RepositoryStr (Context out) =
        shown_path (stored_registry "harbor.example.com")
          (shown_path (stored_registry "registry.local:5000") (RepositoryStr (Context ref))) /\
      same_identifier ref out.
Proof.
  eexists. split; [vm_compute; reflexivity|].
  apply (relocate_twice_relocates "gcr.io/rancher/hauler:v0.3.0" "registry.local:5000"
           "harbor.example.com").
  - vm_compute; reflexivity.
  - vm_compute. lia.
  - vm_compute. lia.
  - vm_compute; reflexivity.
  - vm_compute; reflexivity.
Defined.

(** C4 as stated fails.  Through the registry localhost, which holds no
    '.' or ':', gcr.io/foo/bar:v1 ends at myreg.io with the repository path
    localhost/foo/bar; through the empty registry, gcr.io/foo:v1 ends with
    the repository path library/foo; through a registry that is no URI
    authority the second relocation returns an error. *)
Lemma relocate_twice_counterexample :
  (exists ref out,
     ParseReference "gcr.io/foo/bar:v1" [] = Ok ref /\
     relocate_twice "gcr.io/foo/bar:v1" "localhost" "myreg.io" = Ok out /\
     RepositoryStr (Context ref) = "foo/bar" /\
     RepositoryStr (Context out) = "localhost/foo/bar" /\
     RepositoryStr (Context out) <> RepositoryStr (Context ref)) /\
  (exists ref out,
     ParseReference "gcr.io/foo:v1" [] = Ok ref /\
     relocate_twice "gcr.io/foo:v1" "" "myreg.io" = Ok out /\
     RepositoryStr (Context ref) = "foo" /\
     RepositoryStr (Context out) = "library/foo" /\
     RepositoryStr (Context out) <> RepositoryStr (Context ref)) /\
  (is_Ok (ParseReference "gcr.io/foo/bar:v1" []) = true /\
   is_Ok (relocate_twice "gcr.io/foo/bar:v1" "my registry" "myreg.io") = false).
Proof.
  split; [|split; [|by vm_compute]].
  - eexists _, _. split; [vm_compute; reflexivity|]. split; [vm_compute; reflexivity|].
    by vm_compute.
  - eexists _, _. split; [vm_compute; reflexivity|]. split; [vm_compute; reflexivity|].
    by vm_compute.
Qed.

End relocate_facts.

(** ** The store's batch operations *)
Section store_facts.
Context {Env OCI Collection Cache layout Target : Type}.
Variable Contents : Collection -> Env -> (gmap string OCI * error) * Env.
Variable cache_Oci : OCI -> Cache -> OCI.
Variable newLayout : Env -> result layout * Env.
Variable stage_add : layout -> OCI -> name.Reference -> Env -> error * (layout * Env).
Variable stage_commit :
  layout -> @store.Store Cache -> Env -> (Descriptor * error) * (@store.Store Cache * Env).
Variable oras_Copy :
  OCI_layout -> string -> Target -> string -> list string -> (Descriptor * error) * Target.
Variable DockerManifestSchema2 : string.
Variable range : forall {V : Type}, gmap string V -> list (string * V).

Local Abbreviation Store := (@store.Store Cache).
Local Abbreviation AddArtifact := (store.AddArtifact cache_Oci newLayout stage_add stage_commit).
Local Abbreviation AddCollection_loop :=
  (store.AddCollection_loop cache_Oci newLayout stage_add stage_commit).
Local Abbreviation AddCollection :=
  (store.AddCollection Contents cache_Oci newLayout stage_add stage_commit (@range)).
Local Abbreviation added_each := (store.added_each cache_Oci newLayout stage_add stage_commit).
Local Abbreviation Walk := (store.Walk (@range)).
Local Abbreviation Copy := (store.Copy oras_Copy DockerManifestSchema2).
Local Abbreviation CopyAll_loop := (store.CopyAll_loop oras_Copy DockerManifestSchema2).
Local Abbreviation CopyAll := (store.CopyAll oras_Copy DockerManifestSchema2 (@range)).
Local Abbreviation copied_each := (store.copied_each oras_Copy DockerManifestSchema2).

Local Abbreviation commit_atomic := (store.commit_atomic stage_commit).
Local Abbreviation commit_zero := (store.commit_zero stage_commit).

Lemma AddArtifact_error_store (s : Store) oci reference e d err s' e' :
  commit_atomic ->
  AddArtifact s oci reference e = ((d, Some err), (s', e')) -> s' = s.
Proof.
  intros Hatomic. unfold store.AddArtifact.
  destruct (newLayout e) as [[stage|err0] e0]; [|by intros [= _ _ <- _]].
  destruct (name.ParseReference reference store.AddArtifact_options) as [ref|err1];
    [|by intros [= _ _ <- _]].
  destruct (stage_add stage _ ref e0) as [[err2|] [stage' e1]]; [by intros [= _ _ <- _]|].
  apply Hatomic.
Qed.

Lemma AddArtifact_error_zero (s : Store) oci reference e d err st :
  commit_zero ->
  AddArtifact s oci reference e = ((d, Some err), st) -> d = Descriptor_zero.
Proof.
  intros Hzero. unfold store.AddArtifact.
  destruct (newLayout e) as [[stage|err0] e0]; [|by intros [= <- _ _]].
  destruct (name.ParseReference reference store.AddArtifact_options) as [ref|err1];
    [|by intros [= <- _ _]].
  destruct (stage_add stage _ ref e0) as [[err2|] [stage' e1]]; [by intros [= <- _ _]|].
  apply Hzero.
Qed.

(** The loop either adds every pair, or stops at the first pair whose add
    fails, with the state that add left and no descriptor. *)
Lemma AddCollection_loop_spec (cnts : list (string * OCI)) :
  forall (s : Store) descs e,
  match added_each s cnts e with
  | Some (dss, st) => AddCollection_loop s cnts descs e = ((descs ++ dss, None), st)
  | None =>
      exists pre ref oci post dss s1 e1 d err st2,
        cnts = pre ++ (ref, oci) :: post /\
        added_each s pre e = Some (dss, (s1, e1)) /\
        AddArtifact s1 oci ref e1 = ((d, Some err), st2) /\
        AddCollection_loop s cnts descs e = (([], Some err), st2)
  end.
Proof.
  induction cnts as [|[ref oci] rest IH]; intros s descs e; simpl.
  - by rewrite app_nil_r.
  - destruct (AddArtifact s oci ref e) as [[ds [err|]] [s' e']] eqn:Hadd.
    + exists [], ref, oci, rest, [], s, e, ds, err, (s', e'). done.
    + specialize (IH s' (descs ++ [ds]) e').
      destruct (added_each s' rest e') as [[dss st]|].
      * by rewrite IH, <- app_assoc.
      * destruct IH as (pre & ref' & oci' & post & dss & s1 & e1 & d & err & st2
                        & -> & Hpre & Hfail & Hloop).
        exists ((ref, oci) :: pre), ref', oci', post, (ds :: dss), s1, e1, d, err, st2.
        simpl. rewrite Hadd, Hpre. done.
Qed.

Lemma AddCollection_loop_failure (pre post : list (string * OCI)) ref oci d err st2 :
  forall (s : Store) e descs dss s1 e1,
  added_each s pre e = Some (dss, (s1, e1)) ->
  AddArtifact s1 oci ref e1 = ((d, Some err), st2) ->
  AddCollection_loop s (pre ++ (ref, oci) :: post) descs e = (([], Some err), st2).
Proof.
  induction pre as [|[r o] pre IH]; intros s e descs dss s1 e1 Hpre Hfail; simpl in *.
  - injection Hpre as <- <- <-. rewrite Hfail. by destruct st2.
  - destruct (AddArtifact s o r e) as [[ds [err'|]] [s' e']]; [done|].
    destruct (added_each s' pre e') as [[dss' st']|] eqn:Hrest; [|done].
    injection Hpre as <- ->. by eapply IH.
Qed.

(** C1: AddCollection adds the pairs of the collection in the order the
    range loop yields them.  When every add succeeds it returns their
    descriptors.  Otherwise it stops at the first pair whose AddArtifact
    fails and returns that error: the store is then the store reached by
    adding the pairs before the failing one, none of them rolled back, and
    neither the failing pair nor a later one is committed (a failing
    commit leaving the store as it was). *)
Theorem AddCollection_fail_fast (s : Store) (coll : Collection) (e e0 : Env)
    (cnts : gmap string OCI) :
  commit_atomic ->
  Contents coll e = ((cnts, None), e0) ->
  match added_each s (range cnts) e0 with
  | Some (descs, st) => AddCollection s coll e = ((descs, None), st)
  | None =>
      exists pre ref oci post descs s1 e1 d err e2,
        range cnts = pre ++ (ref, oci) :: post /\
        added_each s pre e0 = Some (descs, (s1, e1)) /\
        AddArtifact s1 oci ref e1 = ((d, Some err), (s1, e2)) /\
        AddCollection s coll e = (([], Some err), (s1, e2))
  end.
Proof.
  intros Hatomic Hcnts. unfold store.AddCollection. rewrite Hcnts.
  pose proof (AddCollection_loop_spec (range cnts) s [] e0) as Hloop.
  destruct (added_each s (range cnts) e0) as [[dss st]|]; [done|].
  destruct Hloop as (pre & ref & oci & post & dss & s1 & e1 & d & err & [s2 e2]
                     & Hsplit & Hpre & Hfail & Hloop).
  pose proof (AddArtifact_error_store _ _ _ _ _ _ _ _ Hatomic Hfail) as ->.
  exists pre, ref, oci, post, dss, s1, e1, d, err, e2. done.
Qed.


Lemma recording_eq {A : Type} (fn : Descriptor -> A -> error * A) desc a seen :
  store.recording fn desc (a, seen) = ((fn desc a).1, ((fn desc a).2, seen ++ [desc])).
Proof. unfold store.recording. simpl. by destruct (fn desc a). Qed.

Lemma ParseReference_error (reference : string) (opts : list name.Option) x :
  name.ParseReference reference opts = Err x ->
  x = ErrBadName ("could not parse reference: " +:+ reference).
Proof.
  unfold name.ParseReference. destruct (name.NewTag reference opts); [done|].
  destruct (name.NewDigest reference opts); [done|]. by intros [= <-].
Qed.


(** The loop of [Walk] either visits every descriptor, or stops at the
    first visit that fails; a recording visit function has then recorded
    exactly the descriptors visited, in order. *)
Lemma Walk_loop_spec {A : Type} (fn : Descriptor -> A -> error * A)
    (refs : list (string * Descriptor)) :
  forall (a : A) (seen : list Descriptor),
  match store.visited_each refs fn a with
  | Some a' =>
      store.Walk_loop refs fn a = (None, a') /\
      store.Walk_loop refs (store.recording fn) (a, seen) = (None, (a', seen ++ refs.*2))
  | None =>
      exists pre ref desc post a1 err a2,
        refs = pre ++ (ref, desc) :: post /\
        store.visited_each pre fn a = Some a1 /\
        fn desc a1 = (Some err, a2) /\
        store.Walk_loop refs fn a = (Some err, a2) /\
        store.Walk_loop refs (store.recording fn) (a, seen)
          = (Some err, (a2, seen ++ pre.*2 ++ [desc]))
  end.
Proof.
  induction refs as [|[ref desc] rest IH]; intros a seen; simpl.
  - by rewrite app_nil_r.
  - rewrite recording_eq.
    destruct (fn desc a) as [[err|] a'] eqn:Hfn; simpl.
    + exists [], ref, desc, rest, a, err, a'. done.
    + specialize (IH a' (seen ++ [desc])).
      destruct (store.visited_each rest fn a') as [a''|].
      * destruct IH as [-> ->]. by rewrite <- app_assoc.
      * destruct IH as (pre & ref' & desc' & post & a1 & err & a2
                        & -> & Hpre & Hfail & -> & ->).
        exists ((ref, desc) :: pre), ref', desc', post, a1, err, a2.
        simpl. rewrite Hfn, Hpre, <- app_assoc. done.
Qed.

(** C8: Walk calls the visit function on the descriptors of the store's
    index in the order the range loop yields them, once for each entry.
    When no call returns an error it has called it on every indexed
    descriptor and returns nil; otherwise it stops at the first call that
    returns an error, having called it on the descriptors up to that one
    and on no later one, and returns that error. *)
Theorem Walk_visits_in_order {A : Type} (s : Store)
    (fn : Descriptor -> A -> error * A) (a : A) :
  (forall V (m : gmap string V), range m ≡ₚ map_to_list m) ->
  let refs := range (ListReferences (store.store s)) in
  refs.*2 ≡ₚ (map_to_list (nameMap (store.store s))).*2 /\
  match store.visited_each refs fn a with
  | Some a' =>
      Walk s fn a = (None, a') /\
      Walk s (store.recording fn) (a, []) = (None, (a', refs.*2))
  | None =>
      exists pre ref desc post a1 err a2,
        refs = pre ++ (ref, desc) :: post /\
        store.visited_each pre fn a = Some a1 /\
        fn desc a1 = (Some err, a2) /\
        Walk s fn a = (Some err, a2) /\
        Walk s (store.recording fn) (a, []) = (Some err, (a2, pre.*2 ++ [desc]))
  end.
Proof.
  intros Hperm refs. split; [unfold refs, ListReferences; by rewrite Hperm|].
  unfold store.Walk. fold refs. apply (Walk_loop_spec fn refs a []).
Qed.

(** The loop of [CopyAll] either copies every reference, or stops at the
    first reference whose mapping or copy fails. *)
Lemma CopyAll_loop_spec (s : Store) (toMapper : option (string -> string * error))
    (refs : list (string * Descriptor)) :
  forall (to : Target),
  match copied_each s refs to toMapper with
  | Some to' => CopyAll_loop s refs to toMapper = (None, to')
  | None =>
      exists pre ref desc post to1 err,
        refs = pre ++ (ref, desc) :: post /\
        copied_each s pre to toMapper = Some to1 /\
        ((exists toRef,
            store.destination toMapper ref = (toRef, Some err) /\
            CopyAll_loop s refs to toMapper = (Some err, to1)) \/
         (exists toRef d to2,
            store.destination toMapper ref = (toRef, None) /\
            Copy s ref to1 toRef = ((d, Some err), to2) /\
            CopyAll_loop s refs to toMapper = (Some err, to2)))
  end.
Proof.
  induction refs as [|[ref desc] rest IH]; intros to; simpl; [done|].
  fold (store.destination toMapper ref).
  destruct (store.destination toMapper ref) as [toRef [err|]] eqn:Hmap.
  - exists [], ref, desc, rest, to, err. eauto 10.
  - destruct (Copy s ref to toRef) as [[d [err|]] to2] eqn:Hcopy.
    + exists [], ref, desc, rest, to, err. split; [done|]. split; [done|].
      right. exists toRef, d, to2. done.
    + specialize (IH to2). destruct (copied_each s rest to2 toMapper) as [to'|]; [done|].
      destruct IH as (pre & ref' & desc' & post & to1 & err & -> & Hpre & Hfail).
      exists ((ref, desc) :: pre), ref', desc', post, to1, err.
      simpl. rewrite Hmap, Hcopy. done.
Qed.

(** C6: CopyAll goes through the references of the store's index in the
    order the range loop yields them; for each it takes the destination
    name from the mapper, the empty name when the mapper is nil, and calls
    Copy.  It returns nil when every mapping and copy succeeds.  Otherwise
    it stops at the first reference whose mapping or copy fails and
    returns that error alone: the target then holds the copies of the
    references before that one (and what the failing Copy itself left,
    when it was the copy that failed), and no later reference is
    processed. *)
Theorem CopyAll_fail_fast (s : Store) (to : Target)
    (toMapper : option (string -> string * error)) :
  let refs := range (ListReferences (store.store s)) in
  (forall ref, store.destination None ref = ("", None)) /\
  match copied_each s refs to toMapper with
  | Some to' => CopyAll s to toMapper = (None, to')
  | None =>
      exists pre ref desc post to1 err,
        refs = pre ++ (ref, desc) :: post /\
        copied_each s pre to toMapper = Some to1 /\
        ((exists toRef,
            store.destination toMapper ref = (toRef, Some err) /\
            CopyAll s to toMapper = (Some err, to1)) \/
         (exists toRef d to2,
            store.destination toMapper ref = (toRef, None) /\
            Copy s ref to1 toRef = ((d, Some err), to2) /\
            CopyAll s to toMapper = (Some err, to2)))
  end.
Proof.
  intros refs. split; [done|]. apply CopyAll_loop_spec.
Qed.

End store_facts.

(** ** The blob cache under AddArtifact *)
Section staged_facts.
Import staged.
Variable hash : string -> string.

Lemma write_blobs_plain_env (a : Artifact) (descs : list Descriptor) :
  forall written e e',
    (write_blobs hash (Plain a) descs written e).1
    = (write_blobs hash (Plain a) descs written e').1.
Proof.
  induction descs as [|desc rest IH]; intros written e e'; simpl; [done|].
  destruct (blob a desc) as [content|x]; [|done].
  destruct (String.eqb (hash content) (Digest desc)); [apply IH|done].
Qed.

Lemma broken_coherent (a : Artifact) (c : CacheState) :
  broken c = true -> coherent a c.
Proof. intros Hb desc content. unfold cache_get. by rewrite Hb. Qed.

Lemma empty_coherent (a : Artifact) (c : CacheState) :
  entries c = ∅ -> coherent a c.
Proof.
  intros He desc content. unfold cache_get. rewrite He, lookup_empty.
  by destruct (broken c).
Qed.

(** Storing what the artifact produced keeps the cache coherent. *)
Lemma cache_put_coherent (a : Artifact) (c : CacheState) desc content :
  content_addressed a -> coherent a c -> blob a desc = Ok content ->
  coherent a (cache_put c (Digest desc) content).2.
Proof.
  intros Haddr Hco Hblob. unfold cache_put.
  destruct (broken c) eqn:Hb; simpl; [done|].
  intros desc' content'. unfold cache_get. simpl.
  destruct (decide (Digest desc = Digest desc')) as [E|E].
  - rewrite <- E, lookup_insert_eq. intros [= <-]. by rewrite <- (Haddr _ _ E).
  - rewrite lookup_insert_ne by done. intros H. apply Hco.
    unfold cache_get. by rewrite Hb.
Qed.

(** Through a coherent cache the decorated artifact yields what the
    artifact itself yields, and the cache stays coherent. *)
Lemma blob_of_cached (a : Artifact) (c : Cache) desc e :
  content_addressed a -> coherent a (cache_state e) ->
  (blob_of (Cached (Plain a) c) desc e).1 = blob a desc /\
  coherent a (cache_state (blob_of (Cached (Plain a) c) desc e).2).
Proof.
  intros Haddr Hco. simpl.
  destruct (cache_get (cache_state e) (Digest desc)) as [content [|]] eqn:Hget; simpl.
  - by rewrite (Hco _ _ Hget).
  - destruct (blob a desc) as [content'|x] eqn:Hblob; simpl; [|done].
    split; [done|]. by apply cache_put_coherent.
Qed.

Lemma write_blobs_cached (a : Artifact) (c : Cache) (descs : list Descriptor) :
  content_addressed a ->
  forall written e e',
    coherent a (cache_state e') ->
    (write_blobs hash (Cached (Plain a) c) descs written e').1
    = (write_blobs hash (Plain a) descs written e).1.
Proof.
  intros Haddr. induction descs as [|desc rest IH]; intros written e e' Hco; [done|].
  cbn [write_blobs].
  destruct (blob_of_cached a c desc e' Haddr Hco) as [Hfst Hco'].
  destruct (blob_of (Cached (Plain a) c) desc e') as [r e1]. simpl in Hfst, Hco'.
  subst r. cbn [blob_of].
  destruct (blob a desc) as [content|x]; [|done].
  destruct (String.eqb (hash content) (Digest desc)); [by apply IH|done].
Qed.

Lemma stage_add_cached (l : layout) (a : Artifact) (c : Cache) ref e :
  content_addressed a -> coherent a (cache_state e) ->
  (stage_add hash l (Plain a) ref e).1 = (stage_add hash l (Cached (Plain a) c) ref e).1 /\
  (stage_add hash l (Plain a) ref e).2.1 = (stage_add hash l (Cached (Plain a) c) ref e).2.1.
Proof.
  intros Haddr Hco. unfold stage_add. cbn [manifest_of reported_of].
  destruct (manifest a) as [m|x]; [|done].
  pose proof (write_blobs_cached a c (m :: reported a) Haddr (staged_blobs l) e e Hco) as Hw.
  destruct (write_blobs hash (Plain a) (m :: reported a) (staged_blobs l) e) as [r0 e0].
  destruct (write_blobs hash (Cached (Plain a) c) (m :: reported a) (staged_blobs l) e)
    as [r1 e1].
  simpl in Hw. subst r1. by destruct r0.
Qed.

(** C9 (amended): for every artifact whose blobs are addressed by content,
    every reference and every cache whose entries hold what the artifact
    produces, AddArtifact without a cache and AddArtifact with the cache
    return the same descriptor and the same error and leave the same
    store contents.  So do they with a cache that misses (no entries) and
    with a cache that fails (its backing store broken): a cache failure
    never fails the add. *)
Theorem cache_keeps_the_result (s : @store.Store Cache) (a : Artifact)
    (reference : string) (e : Env) :
  content_addressed a ->
  coherent a (cache_state e) \/ entries (cache_state e) = ∅ \/ broken (cache_state e) = true ->
  let plain := AddArtifact hash (with_cache s None) (Plain a) reference e in
  let cached := AddArtifact hash (with_cache s (Some process_cache)) (Plain a) reference e in
  plain.1 = cached.1 /\
  store.store plain.2.1 = store.store cached.2.1 /\
  store.Root plain.2.1 = store.Root cached.2.1.
Proof.
  intros Haddr Hcache.
  assert (coherent a (cache_state e)) as Hco.
  { destruct Hcache as [?|[?|?]]; [done|by apply empty_coherent|by apply broken_coherent]. }
  unfold AddArtifact, store.AddArtifact, with_cache, cache_Oci.
  cbn [store.cache]. unfold newLayout. destruct (tmp_available e); [|done].
  destruct (name.ParseReference reference store.AddArtifact_options) as [ref|x]; [|done].
  set (l := {| staged_name := None; staged_manifest := Descriptor_zero; staged_blobs := ∅ |}).
  destruct (stage_add_cached l a process_cache ref e Haddr Hco) as [Herr Hl].
  destruct (stage_add hash l (Plain a) ref e) as [o0 [l0 e0]].
  destruct (stage_add hash l (Cached (Plain a) process_cache) ref e) as [o1 [l1 e1]].
  simpl in Herr, Hl. subst o1 l1. destruct o0 as [x|]; [done|].
  unfold stage_commit. by destruct (staged_name l0).
Qed.

End staged_facts.

(** ** Scenarios over the staging layout of the specification *)
Section scenarios.
Import staged examples.

Lemma staged_commit_atomic : store.commit_atomic stage_commit.
Proof.
  intros l s e d err s' e'. unfold stage_commit.
  destruct (staged_name l); [done|]. by intros [= _ _ <- _].
Qed.

Lemma staged_commit_zero : store.commit_zero stage_commit.
Proof.
  intros l s e d err st. unfold stage_commit.
  destruct (staged_name l); [done|]. by intros [= <- _ _].
Qed.

Lemma range_listed_perm (V : Type) (m : gmap string V) : range_listed m ≡ₚ map_to_list m.
Proof. done. Qed.

Lemma find_content_addressed (document : string) (layers : list string) :
  content_addressed (artifact_of document layers).
Proof. intros d d' E. simpl. by rewrite E. Qed.

Lemma AddCollection_fail_fast_witness :
  match store.added_each cache_Oci newLayout (stage_add digest_of) stage_commit
          empty_store (range_listed three_items.1) fresh with
  | Some (descs, st) =>
      AddCollection digest_of empty_store three_items fresh = ((descs, None), st)
  | None =>
      exists pre ref oci post descs s1 e1 d err e2,
        range_listed three_items.1 = pre ++ (ref, oci) :: post /\
        store.added_each cache_Oci newLayout (stage_add digest_of) stage_commit
          empty_store pre fresh = Some (descs, (s1, e1)) /\
        AddArtifact digest_of s1 oci ref e1 = ((d, Some err), (s1, e2)) /\
        AddCollection digest_of empty_store three_items fresh = (([], Some err), (s1, e2))
  end.
Proof.
  apply (AddCollection_fail_fast Contents cache_Oci newLayout (stage_add digest_of)
           stage_commit (@range_listed) empty_store three_items fresh fresh three_items.1).
  - apply staged_commit_atomic.
  - reflexivity.
Defined.

(** Collection partial progress: of three items whose second fails
    production, the first is in the store afterwards and the second and
    third are not; no descriptor is returned. *)
Example AddCollection_partial_progress :
  let after := AddCollection digest_of empty_store three_items fresh in
  after.1 = ([], Some (errors_Wrap (ErrExternal "source unreachable" 1) "artifact production")) /\
  (store.Walk (@range_listed) after.2.1 collect []).2 = ["sha256:manifest one"] /\
  (range_listed three_items.1).*1 = ["charts/first:v1"; "apps/second:v1"; "base/third:v1"] /\
  dom (nameMap (store.store after.2.1)) = {["charts/first:v1"]}.
Proof.
  repeat split; by vm_compute.
Qed.

(** The store after the artifact "hello" is added as myrepo:latest and a
    second one as tools/cli:v2. *)
Lemma Walk_visits_in_order_witness :
  let s := (AddArtifact digest_of
              (AddArtifact digest_of empty_store
                 (Plain (artifact_of "hello manifest" ["hello"])) "myrepo:latest" fresh).2.1
              (Plain (artifact_of "cli manifest" ["cli"])) "tools/cli:v2" fresh).2.1 in
  let refs := range_listed (ListReferences (store.store s)) in
  refs.*2 ≡ₚ (map_to_list (nameMap (store.store s))).*2 /\
  match store.visited_each refs collect [] with
  | Some a' =>
      store.Walk (@range_listed) s collect [] = (None, a') /\
      store.Walk (@range_listed) s (store.recording collect) ([], []) = (None, (a', refs.*2))
  | None =>
      exists pre ref desc post a1 err a2,
        refs = pre ++ (ref, desc) :: post /\
        store.visited_each pre collect [] = Some a1 /\
        collect desc a1 = (Some err, a2) /\
        store.Walk (@range_listed) s collect [] = (Some err, a2) /\
        store.Walk (@range_listed) s (store.recording collect) ([], [])
          = (Some err, (a2, pre.*2 ++ [desc]))
  end.
Proof.
  intros s. apply (Walk_visits_in_order (@range_listed) s collect []).
  intros V m. reflexivity.
Defined.

(** Walk over that store visits both manifests, each once. *)
Example Walk_two_entries :
  let s := (AddArtifact digest_of
              (AddArtifact digest_of empty_store
                 (Plain (artifact_of "hello manifest" ["hello"])) "myrepo:latest" fresh).2.1
              (Plain (artifact_of "cli manifest" ["cli"])) "tools/cli:v2" fresh).2.1 in
  store.Walk (@range_listed) s collect []
    = (None, ["sha256:hello manifest"; "sha256:cli manifest"]).
Proof. by vm_compute. Qed.

Lemma cache_keeps_the_result_witness :
  let a := artifact_of "hello manifest" ["hello"] in
  let plain := AddArtifact digest_of (with_cache empty_store None) (Plain a)
                 "myrepo:latest" warm in
  let cached := AddArtifact digest_of (with_cache empty_store (Some process_cache)) (Plain a)
                  "myrepo:latest" warm in
  plain.1 = cached.1 /\
  store.store plain.2.1 = store.store cached.2.1 /\
  store.Root plain.2.1 = store.Root cached.2.1.
Proof.
  apply (cache_keeps_the_result digest_of empty_store (artifact_of "hello manifest" ["hello"])
           "myrepo:latest" warm).
  - apply find_content_addressed.
  - left. intros desc content. unfold cache_get, warm. simpl.
    destruct (decide (digest_of "hello manifest" = Digest desc)) as [E|E].
    + rewrite <- E, lookup_insert_eq. by intros [= <-].
    + rewrite lookup_insert_ne by done.
      destruct (decide (digest_of "hello" = Digest desc)) as [E'|E'].
      * rewrite <- E', lookup_insert_eq. by intros [= <-].
      * by rewrite lookup_insert_ne, lookup_empty.
Defined.

(** With the cache the add of that artifact runs no producer; without it
    it runs the producer twice. *)
Example cache_saves_work :
  let a := artifact_of "hello manifest" ["hello"] in
  produced (AddArtifact digest_of (with_cache empty_store None) (Plain a)
              "myrepo:latest" warm).2.2 = 2 /\
  produced (AddArtifact digest_of (with_cache empty_store (Some process_cache)) (Plain a)
              "myrepo:latest" warm).2.2 = 0.
Proof. by vm_compute. Qed.

(** With a cache whose backing store is broken the add goes through as it
    does without a cache. *)
Example broken_cache_does_not_fail :
  let a := artifact_of "hello manifest" ["hello"] in
  let e := {| cache_state := {| entries := ∅; broken := true |};
              tmp_available := true; produced := 0 |} in
  (AddArtifact digest_of (with_cache empty_store (Some process_cache)) (Plain a)
     "myrepo:latest" e).1
  = (descriptor_of "application/vnd.oci.image.manifest.v1+json" "hello manifest", None).
Proof. by vm_compute. Qed.

(** C9 as stated fails.  An artifact whose source cannot be reached fails
    to be added without a cache, and nothing is committed; with a cache
    that holds its blobs the same add succeeds and commits
    myrepo:latest. *)
Lemma cache_changes_the_result :
  let a := unreachable "hello manifest" ["hello"] in
  let plain := AddArtifact digest_of (with_cache empty_store None) (Plain a)
                 "myrepo:latest" warm in
  let cached := AddArtifact digest_of (with_cache empty_store (Some process_cache)) (Plain a)
                  "myrepo:latest" warm in
  plain.1 = (Descriptor_zero,
             Some (errors_Wrap (ErrExternal "source unreachable" 1) "artifact production")) /\
  cached.1 = (descriptor_of "application/vnd.oci.image.manifest.v1+json" "hello manifest", None) /\
  nameMap (store.store plain.2.1) !! "myrepo:latest" = None /\
  nameMap (store.store cached.2.1) !! "myrepo:latest"
    = Some (descriptor_of "application/vnd.oci.image.manifest.v1+json" "hello manifest") /\
  plain.1 <> cached.1.
Proof. by vm_compute. Qed.


(** The scenario of the specification: the artifact "hello" added as
    myrepo:latest is committed under the repository myrepo and the tag
    latest, with no registry in front. *)
Example AddArtifact_myrepo_latest :
  let after := AddArtifact digest_of empty_store
                 (Plain (artifact_of "hello manifest" ["hello"])) "myrepo:latest" fresh in
  after.1 = (descriptor_of "application/vnd.oci.image.manifest.v1+json" "hello manifest", None) /\
  (map_to_list (nameMap (store.store after.2.1))).*1 = ["myrepo:latest"] /\
  blobs (store.store after.2.1) !! "sha256:hello" = Some "hello".
Proof. by vm_compute. Qed.

End scenarios.

(** ** Flush *)
Section flush_facts.
Context {Cache : Type}.
Implicit Types (fs : os.FS) (q : list string) (s : @store.Store Cache).

Lemma HasPrefix_char (s : string) (c : ascii) :
  strings.HasPrefix s (String c "") =
    match s with
    | EmptyString => false
    | String x _ => Ascii.eqb x c
    end.
Proof.
  unfold strings.HasPrefix. destruct s as [|x s]; [done|].
  change (String.prefix (String c "") (String x s))
    with (if Ascii.ascii_dec c x then String.prefix "" s else false).
  destruct (Ascii.ascii_dec c x) as [->|Hne].
  - rewrite Ascii.eqb_refl. by destruct s.
  - symmetry. apply Ascii.eqb_neq. congruence.
Qed.

Lemma HasPrefix_app (a b : string) (c : ascii) :
  a <> "" -> strings.HasPrefix (a +:+ b) (String c "") = strings.HasPrefix a (String c "").
Proof. rewrite !HasPrefix_char. by destruct a. Qed.

(** The path [Flush] builds for a plain name lies directly under the
    store root. *)
Lemma locate_Join fs (root name : string) :
  filepath.plain_name name = true ->
  os.locate fs (filepath.Join [root; name]) = os.locate fs root ++ [name].
Proof.
  unfold filepath.plain_name. intros [[[H1 H2]%andb_true_iff H3]%andb_true_iff H4]%andb_true_iff.
  apply negb_true_iff in H1, H2, H3, H4.
  assert (forall at_, os.walk at_ name = at_ ++ [name]) as Hwalk.
  { intros at_. unfold os.walk. by rewrite H1, H2, H3. }
  unfold filepath.Join, os.locate. simpl. rewrite H1. simpl.
  destruct (String.eqb_spec root "") as [->|Hroot]; simpl.
  - rewrite (Split_no_sep name "/" H4). simpl. rewrite Hwalk.
    unfold filepath.IsAbs. rewrite !HasPrefix_char.
    destruct name as [|c name]; [done|]. simpl in H4. apply orb_false_iff in H4 as [H4 _].
    by rewrite H4.
  - rewrite (Split_app_sep_r root name "/" H4), fold_left_app. simpl. rewrite Hwalk.
    unfold filepath.IsAbs. by rewrite HasPrefix_app.
Qed.

Lemma HasSuffix_cons (c : ascii) (s suffix : string) :
  strings.HasSuffix (String c s) suffix
  = String.eqb (String c s) suffix || strings.HasSuffix s suffix.
Proof. done. Qed.

Lemma HasSuffix_no_sep (s : string) :
  strings.ContainsRune s "/" = false -> strings.HasSuffix s "/." = false.
Proof.
  induction s as [|c s IH]; [done|]. intros H.
  change (strings.ContainsRune (String c s) "/")
    with (Ascii.eqb c "/" || strings.ContainsRune s "/") in H.
  apply orb_false_iff in H as [Hc Hs].
  rewrite HasSuffix_cons, (IH Hs), orb_false_r.
  apply String.eqb_neq. intros [= -> ->]. done.
Qed.

Lemma joined_has_sep (a name : string) :
  strings.ContainsRune (a +:+ String "/" name) "/" = true.
Proof. rewrite ContainsRune_app. simpl. by rewrite orb_true_r. Qed.

Lemma joined_no_dot_suffix (name : string) :
  String.eqb name "." = false -> strings.ContainsRune name "/" = false ->
  forall a, strings.HasSuffix (a +:+ String "/" name) "/." = false.
Proof.
  intros Hdot Hsep. induction a as [|c a IH].
  - change ("" +:+ String "/" name) with (String "/" name).
    rewrite HasSuffix_cons, (HasSuffix_no_sep _ Hsep), orb_false_r.
    apply String.eqb_neq. intros [= ->]. done.
  - change (String c a +:+ String "/" name) with (String c (a +:+ String "/" name)).
    rewrite HasSuffix_cons, IH, orb_false_r.
    apply String.eqb_neq. intros [= -> E].
    pose proof (joined_has_sep a name) as Hc. rewrite E in Hc. done.
Qed.

(** The paths [Flush] builds are paths [RemoveAll] acts on. *)
Lemma removable_Join (root name : string) :
  filepath.plain_name name = true -> os.removable (filepath.Join [root; name]) = true.
Proof.
  unfold filepath.plain_name. intros [[[H1 H2]%andb_true_iff H3]%andb_true_iff H4]%andb_true_iff.
  apply negb_true_iff in H1, H2, H3, H4.
  unfold filepath.Join, os.removable, os.endsWithDot.
  cbn [List.filter]. rewrite H1. cbn [negb].
  destruct (String.eqb_spec root "") as [->|Hroot]; cbn [negb strings.Join].
  - by rewrite H1, H2, (HasSuffix_no_sep _ H4).
  - rewrite (joined_no_dot_suffix name H2 H4 root), orb_false_r.
    assert (String.eqb (root +:+ String "/" name) "" = false) as ->.
    { apply String.eqb_neq. intros E. pose proof (joined_has_sep root name) as Hc.
      rewrite E in Hc. done. }
    assert (String.eqb (root +:+ String "/" name) "." = false) as ->.
    { apply String.eqb_neq. intros E. pose proof (joined_has_sep root name) as Hc.
      rewrite E in Hc. done. }
    done.
Qed.

Lemma RemoveAll_cwd fs path : os.cwd (os.RemoveAll fs path).2 = os.cwd fs.
Proof. unfold os.RemoveAll. by destruct (String.eqb path ""), (os.endsWithDot path). Qed.

Lemma RemoveAll_pinned fs path : os.pinned (os.RemoveAll fs path).2 = os.pinned fs.
Proof. unfold os.RemoveAll. by destruct (String.eqb path ""), (os.endsWithDot path). Qed.

(** Nothing outside the target is touched. *)
Lemma RemoveAll_frame fs path q :
  ~ os.locate fs path `prefix_of` q ->
  os.nodes (os.RemoveAll fs path).2 !! q = os.nodes fs !! q.
Proof.
  intros Hq. unfold os.RemoveAll.
  destruct (String.eqb path ""), (os.endsWithDot path); try done.
  simpl. rewrite map_lookup_filter.
  destruct (os.nodes fs !! q) as [x|]; simpl; [|done].
  rewrite option_guard_True; [done|]. by left.
Qed.

(** Nothing is created. *)
Lemma RemoveAll_shrinks fs path q x :
  os.nodes (os.RemoveAll fs path).2 !! q = Some x -> os.nodes fs !! q = Some x.
Proof.
  unfold os.RemoveAll. destruct (String.eqb path ""), (os.endsWithDot path); try done.
  simpl. apply map_lookup_filter_Some_1_1.
Qed.

Lemma removable_spec (path : string) :
  os.removable path = true -> String.eqb path "" = false /\ os.endsWithDot path = false.
Proof.
  unfold os.removable. intros [H1 H2]%andb_true_iff. by apply negb_true_iff in H1, H2.
Qed.

(** When no error is returned the target and all below it are gone. *)
Lemma RemoveAll_removes fs path q :
  os.removable path = true ->
  (os.RemoveAll fs path).1 = None ->
  os.locate fs path `prefix_of` q ->
  os.nodes (os.RemoveAll fs path).2 !! q = None.
Proof.
  intros [H1 H2]%removable_spec. unfold os.RemoveAll. rewrite H1, H2. simpl.
  destruct (decide _) as [Hempty|]; [|done]. intros _ Hq.
  apply map_lookup_filter_None_2. right. intros x _ [Hn | (r & Hr & _)]; simpl in *; [done|].
  rewrite Hempty in Hr. by apply not_elem_of_empty in Hr.
Qed.

(** The error comes from a pinned node at or below the target only. *)
Lemma RemoveAll_error fs path :
  os.removable path = true ->
  (os.RemoveAll fs path).1 <> None <->
  exists q, q ∈ os.pinned fs /\ is_Some (os.nodes fs !! q) /\ os.locate fs path `prefix_of` q.
Proof.
  intros [H1 H2]%removable_spec. unfold os.RemoveAll. rewrite H1, H2. simpl.
  destruct (decide _) as [Hempty|Hne]; split.
  - done.
  - intros (q & Hpin & Hnode & Hq). exfalso.
    assert (q ∈ os.refused fs (os.locate fs path)) as Hin.
    { unfold os.refused. apply elem_of_filter. done. }
    rewrite Hempty in Hin. by apply not_elem_of_empty in Hin.
  - intros _. apply set_choose_L in Hne as [q Hq].
    unfold os.refused in Hq. apply elem_of_filter in Hq as [[? ?] ?]. eauto.
  - done.
Qed.

(** Removing what does not exist changes nothing and is no error. *)
Lemma RemoveAll_absent fs path :
  os.removable path = true ->
  (forall q, os.locate fs path `prefix_of` q -> os.nodes fs !! q = None) ->
  os.RemoveAll fs path = (None, fs).
Proof.
  intros [H1 H2]%removable_spec Habsent.
  assert (os.refused fs (os.locate fs path) = ∅) as Hempty.
  { apply set_eq. intros q. unfold os.refused. rewrite elem_of_filter.
    split; [|by intros ?%not_elem_of_empty].
    intros [[Hq [x Hx]] _]. rewrite (Habsent q Hq) in Hx. done. }
  unfold os.RemoveAll. rewrite H1, H2, Hempty. simpl.
  rewrite map_filter_id; [by destruct fs|].
  intros q x Hx. left. simpl. intros Hq. rewrite (Habsent q Hq) in Hx. done.
Qed.

Lemma locate_cwd fs fs' path : os.cwd fs' = os.cwd fs -> os.locate fs' path = os.locate fs path.
Proof. unfold os.locate. by intros ->. Qed.

(** One removal, as [Flush] sees it. *)
Lemma RemoveAll_step fs path err fs' :
  os.removable path = true ->
  os.RemoveAll fs path = (err, fs') ->
  os.cwd fs' = os.cwd fs /\ os.pinned fs' = os.pinned fs /\
  (forall q, ~ os.locate fs path `prefix_of` q -> os.nodes fs' !! q = os.nodes fs !! q) /\
  (forall q, os.nodes fs !! q = None -> os.nodes fs' !! q = None) /\
  (err = None -> forall q, os.locate fs path `prefix_of` q -> os.nodes fs' !! q = None) /\
  (err <> None ->
   exists q, q ∈ os.pinned fs /\ is_Some (os.nodes fs !! q) /\ os.locate fs path `prefix_of` q).
Proof.
  intros Hpath H.
  pose proof (RemoveAll_frame fs path) as Hframe.
  pose proof (RemoveAll_shrinks fs path) as Hshrink.
  pose proof (RemoveAll_removes fs path) as Hgone.
  pose proof (proj1 (RemoveAll_error fs path Hpath)) as Herr.
  pose proof (RemoveAll_cwd fs path) as Hcwd.
  pose proof (RemoveAll_pinned fs path) as Hpin.
  rewrite H in *. simpl in *. repeat split; try done.
  - intros q Hq. destruct (os.nodes fs' !! q) as [x|] eqn:E; [|done].
    apply Hshrink in E. congruence.
  - intros ? q. by apply Hgone.
Qed.

Lemma not_flushed_root (root : list string) : ~ store.flushed root root.
Proof. intros [H | [H | H]]; by apply prefix_snoc_not in H. Qed.

Lemma not_flushed_sibling (root rest : list string) (n : string) :
  n <> "blobs" -> n <> "index.json" -> n <> "oci-layout" ->
  ~ store.flushed root (root ++ n :: rest).
Proof.
  intros H1 H2 H3 [H | [H | H]];
    apply prefix_app_inv, prefix_cons_inv_1 in H; congruence.
Qed.

(** C2: Flush removes blobs, index.json and oci-layout beneath the store
    root and touches nothing else: every other place, the store root
    itself and every sibling of another name included, holds what it held.
    When Flush returns nil the three paths and all beneath them are gone.
    Flush returns an error only when the system refuses to remove a node
    that exists at or below one of the three paths, so the absence of any
    or all of them is no error; when all three are absent Flush returns
    nil and changes nothing, and a second Flush after a successful one
    does so too. *)
Theorem Flush_scope s fs :
  let root := os.locate fs (store.Root s) in
  let after := store.Flush s fs in
  (forall q, ~ store.flushed root q -> os.nodes after.2 !! q = os.nodes fs !! q) /\
  os.nodes after.2 !! root = os.nodes fs !! root /\
  (forall n rest, n <> "blobs" -> n <> "index.json" -> n <> "oci-layout" ->
     os.nodes after.2 !! (root ++ n :: rest) = os.nodes fs !! (root ++ n :: rest)) /\
  (after.1 = None -> forall q, store.flushed root q -> os.nodes after.2 !! q = None) /\
  ((forall q, q ∈ os.pinned fs -> is_Some (os.nodes fs !! q) -> ~ store.flushed root q) ->
   after.1 = None) /\
  ((forall q, store.flushed root q -> os.nodes fs !! q = None) -> after = (None, fs)) /\
  (after.1 = None -> store.Flush s after.2 = (None, after.2)).
Proof.
  intros root after.
  assert (forall fs', os.cwd fs' = os.cwd fs -> forall name,
            filepath.plain_name name = true ->
            os.locate fs' (filepath.Join [store.Root s; name]) = root ++ [name]) as Hloc.
  { intros fs' Hcwd name Hname. by rewrite locate_Join, (locate_cwd _ _ _ Hcwd). }
  (* all three absent: nothing changes *)
  assert (forall fs', os.cwd fs' = os.cwd fs ->
            (forall q, store.flushed root q -> os.nodes fs' !! q = None) ->
            store.Flush s fs' = (None, fs')) as Habsent.
  { intros fs' Hcwd Hnone. unfold store.Flush.
    rewrite !RemoveAll_absent; [done|..]; try (by apply removable_Join);
      intros q; rewrite (Hloc fs' Hcwd) by done;
      intros Hq; apply Hnone; unfold store.flushed; auto. }
  (* the three removals *)
  assert (os.cwd after.2 = os.cwd fs /\
          (forall q, ~ store.flushed root q -> os.nodes after.2 !! q = os.nodes fs !! q) /\
          (after.1 = None -> forall q, store.flushed root q -> os.nodes after.2 !! q = None) /\
          ((forall q, q ∈ os.pinned fs -> is_Some (os.nodes fs !! q) -> ~ store.flushed root q) ->
           after.1 = None)) as (Hcwd & Hframe & Hgone & Hok).
  { unfold after, store.Flush.
    destruct (os.RemoveAll fs _) as [e1 fs1] eqn:H1.
    apply RemoveAll_step in H1 as (C1 & P1 & F1 & S1 & G1 & E1); [|by apply removable_Join].
    rewrite (Hloc fs eq_refl) in F1, G1, E1 by done.
    assert (forall q, ~ store.flushed root q -> os.nodes fs1 !! q = os.nodes fs !! q) as F1'.
    { intros q Hq. apply F1. intros ?. apply Hq. unfold store.flushed. auto. }
    destruct e1 as [e1|].
    { simpl. split; [done|]. split; [done|]. split; [done|].
      intros Hpin. destruct E1 as (q & ? & ? & ?); [done|].
      exfalso. eapply Hpin; [done..|]. unfold store.flushed. auto. }
    destruct (os.RemoveAll fs1 _) as [e2 fs2] eqn:H2.
    apply RemoveAll_step in H2 as (C2 & P2 & F2 & S2 & G2 & E2); [|by apply removable_Join].
    rewrite (Hloc fs1 C1) in F2, G2, E2 by done.
    assert (forall q, ~ store.flushed root q -> os.nodes fs2 !! q = os.nodes fs !! q) as F2'.
    { intros q Hq. rewrite F2; [by apply F1'|]. intros ?. apply Hq. unfold store.flushed. auto. }
    destruct e2 as [e2|].
    { simpl. split; [congruence|]. split; [done|]. split; [done|].
      intros Hpin. destruct E2 as (q & Hq1 & [x Hq2] & Hq3); [done|].
      exfalso. rewrite P1 in Hq1. eapply (Hpin q Hq1); [|unfold store.flushed; auto].
      destruct (os.nodes fs !! q) eqn:E; [done|]. rewrite (S1 q E) in Hq2. done. }
    destruct (os.RemoveAll fs2 _) as [e3 fs3] eqn:H3.
    apply RemoveAll_step in H3 as (C3 & P3 & F3 & S3 & G3 & E3); [|by apply removable_Join].
    rewrite (Hloc fs2 (eq_trans C2 C1)) in F3, G3, E3 by done.
    assert (forall q, ~ store.flushed root q -> os.nodes fs3 !! q = os.nodes fs !! q) as F3'.
    { intros q Hq. rewrite F3; [by apply F2'|]. intros ?. apply Hq. unfold store.flushed. auto. }
    assert (os.cwd fs3 = os.cwd fs) as C by congruence.
    assert ((forall q, q ∈ os.pinned fs -> is_Some (os.nodes fs !! q) -> ~ store.flushed root q)
            -> e3 = None) as Hok3.
    { intros Hpin. destruct e3 as [e3|]; [|done].
      destruct E3 as (q & Hq1 & [x Hq2] & Hq3); [done|].
      exfalso. rewrite P2, P1 in Hq1. eapply (Hpin q Hq1); [|unfold store.flushed; auto].
      destruct (os.nodes fs !! q) eqn:E; [done|]. rewrite (S2 q (S1 q E)) in Hq2. done. }
    destruct e3 as [e3|]; simpl.
    { split; [done|]. split; [done|]. split; [done|]. done. }
    split; [done|]. split; [done|]. split; [|done].
    intros _ q [Hq | [Hq | Hq]].
    - apply S3, S2, G1; done.
    - apply S3, G2; done.
    - apply G3; done. }
  split; [done|]. split; [apply Hframe, not_flushed_root|].
  split; [intros n rest ? ? ?; by apply Hframe, not_flushed_sibling|].
  split; [done|]. split; [done|]. split.
  - intros Hnone. by apply Habsent.
  - intros Hnil. apply Habsent; [done|]. by apply Hgone.
Qed.

End flush_facts.

(** ** Identify *)
Section identify_facts.
Context {Cache : Type}.
Variable json_scan : string -> result json.value.
Implicit Types (s : @store.Store Cache) (members : list (string * json.value)).

Local Abbreviation Identify := (store.Identify json_scan).

(** The one member that names a field, and the members around it. *)
Lemma names_once_split (field : string) members (v : json.value) :
  json.names_once field members = true ->
  json.member field members = Some v ->
  exists pre key post,
    members = pre ++ (key, v) :: post /\
    json.equalFold field key = true /\
    Forall (fun kv => json.equalFold field kv.1 = false) pre /\
    Forall (fun kv => json.equalFold field kv.1 = false) post.
Proof.
  unfold json.names_once, json.member.
  induction members as [|[k x] rest IH]; simpl; [done|].
  destruct (json.equalFold field k) eqn:Hk; simpl.
  - intros Hlen [= ->]. exists [], k, rest. repeat split; try done.
    apply Forall_forall. intros [k' x'] Hin.
    destruct (json.equalFold field k') eqn:Hk'; [|done]. exfalso.
    assert ((k', x') ∈ List.filter (fun kv => json.equalFold field kv.1) rest) as Hf.
    { apply list_elem_of_In, filter_In. split; [by apply list_elem_of_In|done]. }
    apply Nat.eqb_eq in Hlen. destruct (List.filter _ rest); [by apply not_elem_of_nil in Hf|done].
  - intros Hlen Hfind. destruct (IH Hlen Hfind) as (pre & key & post & -> & ? & ? & ?).
    exists ((k, x) :: pre), key, post. repeat split; try done. by constructor.
Qed.

Lemma store_Config_members_skip members c saved :
  Forall (fun kv => json.equalFold "mediaType" kv.1 = false) members ->
  json.store_Config_members members c saved = (c, saved).
Proof.
  induction 1 as [|[k x] rest Hk _ IH]; simpl in *; [done|]. by rewrite Hk.
Qed.

Lemma store_members_skip members m saved :
  Forall (fun kv => json.equalFold "config" kv.1 = false) members ->
  json.store_members members m saved = (m, saved).
Proof.
  induction 1 as [|[k x] rest Hk _ IH]; simpl in *; [done|]. by rewrite Hk.
Qed.

Lemma store_members_app pre post m saved :
  json.store_members (pre ++ post) m saved =
    json.store_members post (json.store_members pre m saved).1
      (json.store_members pre m saved).2.
Proof.
  revert m saved. induction pre as [|[k x] pre IH]; intros m saved; simpl; [done|].
  destruct (json.equalFold "config" k); [|apply IH].
  destruct (json.store_Config x m saved). apply IH.
Qed.

Lemma store_Config_members_app pre post c saved :
  json.store_Config_members (pre ++ post) c saved =
    json.store_Config_members post (json.store_Config_members pre c saved).1
      (json.store_Config_members pre c saved).2.
Proof.
  revert c saved. induction pre as [|[k x] pre IH]; intros c saved; simpl; [done|].
  destruct (json.equalFold "mediaType" k); [|apply IH].
  destruct (json.store_MediaType x c saved). apply IH.
Qed.

(** Decoding a document with unique member names stores what the
    document gives for config.mediaType. *)
Lemma unmarshal_config_mediaType (document : json.value) (mediaType : string) :
  json.unique_names document = true ->
  json.config_mediaType document = Some mediaType ->
  json.unmarshal document json.manifest_zero
    = ({| json.Config := {| json.Config_MediaType := mediaType |} |}, None).
Proof.
  destruct document as [| | | | |members]; try done. simpl.
  destruct (json.member "config" members) as [[| | | | |config]|] eqn:Hconfig; try done.
  destruct (json.member "mediaType" config) as [[| | |mt| |]|] eqn:Hmt; try done.
  intros [Honce Honce']%andb_true_iff [= ->].
  destruct (names_once_split _ _ _ Honce Hconfig) as (pre & k & post & -> & Hk & Hpre & Hpost).
  destruct (names_once_split _ _ _ Honce' Hmt) as (pre' & k' & post' & -> & Hk' & Hpre' & Hpost').
  rewrite store_members_app, (store_members_skip pre) by done. simpl. rewrite Hk. simpl.
  rewrite store_Config_members_app, (store_Config_members_skip pre') by done. simpl.
  rewrite Hk'. simpl. rewrite (store_Config_members_skip post') by done.
  by rewrite (store_members_skip post).
Qed.

(** C7: Identify fetches the object the descriptor names and decodes it
    into a struct with the field config.mediaType.  When the fetch fails,
    when the stream holds no JSON value, and when the value does not fit
    the struct, it returns the empty string; otherwise it returns the
    decoded media type, which for a manifest document is the string its
    config member gives for mediaType.  Its result is a string in every
    case: no error is returned. *)
Theorem Identify_best_effort s (desc : Descriptor) :
  (forall x, Fetch (store.store s) desc = Err x -> Identify s desc = "") /\
  (forall rc x,
     Fetch (store.store s) desc = Ok rc -> json_scan rc = Err x -> Identify s desc = "") /\
  (forall rc v m x,
     Fetch (store.store s) desc = Ok rc -> json_scan rc = Ok v ->
     json.unmarshal v json.manifest_zero = (m, Some x) -> Identify s desc = "") /\
  (forall rc v m,
     Fetch (store.store s) desc = Ok rc -> json_scan rc = Ok v ->
     json.unmarshal v json.manifest_zero = (m, None) ->
     Identify s desc = json.Config_MediaType (json.Config m)) /\
  (forall rc v mediaType,
     Fetch (store.store s) desc = Ok rc -> json_scan rc = Ok v ->
     json.unique_names v = true -> json.config_mediaType v = Some mediaType ->
     Identify s desc = mediaType).
Proof.
  unfold store.Identify, store.Decode. repeat split.
  - by intros x ->.
  - by intros rc x -> ->.
  - by intros rc v m x -> -> ->.
  - by intros rc v m -> -> ->.
  - intros rc v mediaType -> -> Hunique Hmt.
    by rewrite (unmarshal_config_mediaType v mediaType).
Qed.

End identify_facts.

(** ** Scenarios for Flush and Identify *)
Section more_scenarios.
Import staged examples.

(** Flush in a store directory that holds other content: the notes file,
    the store directory and the directory beside it stay. *)
Example Flush_keeps_siblings :
  store.Flush empty_store disk =
    (None,
     {| os.cwd := ["srv"];
        os.nodes := list_to_map
          [(["srv"; "store"], os.Dir);
           (["srv"; "store"; "notes.txt"], os.File "keep");
           (["srv"; "other"], os.Dir)];
        os.pinned := ∅ |}) /\
  store.Flush empty_store (store.Flush empty_store disk).2
    = (None, (store.Flush empty_store disk).2).
Proof. split; by vm_compute. Qed.

(** When the system refuses to remove index.json, Flush has removed
    blobs, returns the error and leaves oci-layout. *)
Example Flush_stops_at_refusal :
  let after := store.Flush empty_store disk_pinned in
  after.1 = Some (PathError "unlinkat" "store/index.json") /\
  os.nodes after.2 !! ["srv"; "store"; "blobs"] = None /\
  os.nodes after.2 !! ["srv"; "store"; "blobs"; "sha256"; "abc"] = None /\
  os.nodes after.2 !! ["srv"; "store"; "index.json"] = Some (os.File "{}") /\
  os.nodes after.2 !! ["srv"; "store"; "oci-layout"] = Some (os.File "{}") /\
  os.nodes after.2 !! ["srv"; "store"; "notes.txt"] = Some (os.File "keep").
Proof. repeat split; by vm_compute. Qed.

(** Identify on the descriptor of the committed artifact "hello" returns
    the config media type its manifest declares; on the descriptor of its
    layer, which is no manifest, and on a descriptor the store does not
    hold, it returns the empty string. *)
Example Identify_hello :
  let s := (AddArtifact digest_of empty_store
              (Plain (artifact_of "hello manifest" ["hello"])) "myrepo:latest" fresh).2.1 in
  store.Identify scan_hello s
    (descriptor_of "application/vnd.oci.image.manifest.v1+json" "hello manifest")
    = "application/vnd.hauler.file.config.v1+json" /\
  store.Identify scan_hello s
    (descriptor_of "application/vnd.oci.image.layer.v1.tar" "hello") = "" /\
  store.Identify scan_hello s
    (descriptor_of "application/vnd.oci.image.layer.v1.tar" "absent") = "".
Proof. repeat split; by vm_compute. Qed.

End more_scenarios.

(** ** RelocateReference: errors, and what the result depends on *)
Section relocate_more.
Import strings name store.

Lemma parsed_checkRepository (reference : string) (ref : Reference) :
  ParseReference reference [] = Ok ref ->
  checkRepository (repository (Context ref)) = None.
Proof.
  unfold ParseReference. destruct (NewTag reference []) as [t|] eqn:Ht.
  - intros [= <-]. destruct (NewTag_inv [] weak_nil _ _ Ht) as (base & Hrepo & _).
    by destruct (NewRepository_inv [] weak_nil _ _ Hrepo).
  - destruct (NewDigest reference []) as [d|] eqn:Hd; [|done]. intros [= <-].
    destruct (NewDigest_inv [] _ _ Hd) as (_ & base & Hrepo).
    by destruct (NewRepository_inv [] weak_nil _ _ Hrepo).
Qed.

(** A repository path of more than 255 characters is the path of a Docker
    Hub repository with library/ put in front; no options make it parse. *)
Lemma long_path_unparsable (r : Repository) (opts : list Option) :
  checkRepository (repository r) = None ->
  (255 < String.length (RepositoryStr r))%nat ->
  ParseReference (RepositoryStr r) opts =
    Err (ErrBadName ("could not parse reference: " +:+ RepositoryStr r)).
Proof.
  intros Hcheck Hlong.
  pose proof Hcheck as Hchars.
  apply checkElement_None in Hchars as [Hlen Hchars].
  assert (RepositoryStr r = "library/" +:+ repository r /\
          ContainsRune (repository r) "/" = false) as [Hstr Hslash].
  { unfold RepositoryStr in *.
    destruct (hasImplicitNamespace (repository r) (Repository_Registry r)) eqn:Himp; [|lia].
    split; [done|]. unfold hasImplicitNamespace in Himp.
    by destruct (ContainsRune (repository r) "/"). }
  rewrite Hstr in *. set (whole := "library/" +:+ repository r) in *.
  assert (forall c, ContainsRune repositoryChars c = false -> ContainsRune whole c = false) as Hno.
  { intros c Hc. unfold whole. rewrite ContainsRune_app.
    rewrite (all_bytes_excludes _ _ _ Hchars Hc), orb_false_r.
    apply (all_bytes_excludes repositoryChars); [done|done]. }
  assert (NewRepository whole opts = Err (ErrBadName
            ("repository must be between %d and %d characters in length: " +:+ whole))) as Hrepo.
  { unfold NewRepository.
    destruct (String.length whole =? 0)%nat eqn:H0; [apply Nat.eqb_eq in H0; lia|].
    unfold SplitN2, whole. change ("library/" +:+ repository r)
      with ("library" +:+ String regRepoDelimiter (repository r)).
    rewrite Cut_app_sep by done. cbn [ContainsRune Ascii.eqb orb]. simpl orb.
    fold whole. unfold checkRepository, checkElement.
    change ("library" +:+ String regRepoDelimiter (repository r)) with whole.
    destruct (String.length whole <? 2)%nat eqn:H2; [done|].
    destruct (255 <? String.length whole)%nat eqn:H255; [done|].
    apply Nat.ltb_ge in H255. lia. }
  unfold ParseReference.
  assert (exists e, NewTag whole opts = Err e) as [e ->].
  { unfold NewTag. rewrite Split_no_sep by (by apply Hno). simpl.
    destruct (strict (makeOptions opts)).
    - eexists. unfold checkTag, checkElement. simpl. done.
    - rewrite Hrepo. by eexists. }
  unfold NewDigest. by rewrite Split_no_sep by (by apply Hno).
Qed.

(** Whether a parsed reference is a digest is what [NewDigest] finds on its
    name. *)
Lemma NewDigest_Name_parsed (reference : string) (ref : Reference) :
  ParseReference reference [] = Ok ref ->
  (String.length (RepositoryStr (Context ref)) <= 255)%nat ->
  is_Ok (NewDigest (Name ref) []) = match ref with RefDigest _ => true | RefTag _ => false end.
Proof.
  intros Hparse Hlen.
  destruct (parsed_Reference_canonical _ _ Hparse Hlen) as (Hc & Hins & Hid).
  rewrite Name_parsed by apply Hc.
  destruct ref as [t|d]; unfold Context, Identifier, TagStr, DigestStr in *.
  - unfold NewDigest. rewrite Split_no_sep; [done|].
    rewrite ContainsRune_app, (canonical_no_at _ _ Hc). simpl.
    by apply checkTag_chars.
  - by rewrite (NewDigest_canonical _ _ _ Hc Hid).
Qed.

(** What [RelocateReference] returns is fixed by the repository path and
    the identifier of the parsed reference. *)
Lemma RelocateReference_parsed (reference registry : string) (ref : Reference) :
  ParseReference reference [] = Ok ref ->
  RelocateReference reference registry =
    match ParseReference (RepositoryStr (Context ref)) [WithDefaultRegistry registry] with
    | Err e => Err e
    | Ok relocated =>
        match ref with
        | RefDigest d => Ok (RefDigest (Repository_Digest (Context relocated) (DigestStr d)))
        | RefTag t => Ok (RefTag (Repository_Tag (Context relocated) (TagStr t)))
        end
    end.
Proof.
  intros Hparse. unfold RelocateReference. rewrite Hparse.
  destruct (decide (String.length (RepositoryStr (Context ref)) <= 255)%nat) as [Hlen|Hlong].
  - pose proof (NewDigest_Name_parsed _ _ Hparse Hlen) as Hd.
    destruct (ParseReference (RepositoryStr (Context ref)) _); [|done].
    destruct ref; by destruct (NewDigest _ _).
  - rewrite long_path_unparsable; [done| |lia]. by eapply parsed_checkRepository.
Qed.


(** X10: the registry of the input plays no part in relocation.  Two
    references that parse to the same repository path and the same
    identifier, of the same kind, relocate to the same result, be it a
    reference or an error. *)
Theorem RelocateReference_drops_registry (a b registry : string) (ra rb : Reference) :
  ParseReference a [] = Ok ra ->
  ParseReference b [] = Ok rb ->
  RepositoryStr (Context ra) = RepositoryStr (Context rb) ->
  same_identifier ra rb ->
  RelocateReference a registry = RelocateReference b registry.
Proof.
  intros Ha Hb Hpath Hid.
  rewrite (RelocateReference_parsed a registry ra Ha), (RelocateReference_parsed b registry rb Hb).
  rewrite Hpath. destruct (ParseReference (RepositoryStr (Context rb)) _); [|done].
  destruct ra, rb; simpl in Hid; try done; by rewrite Hid.
Qed.

Lemma RelocateReference_drops_registry_witness :
  RelocateReference "gcr.io/rancher/hauler:v0.3.0" "registry.local:5000" =
  RelocateReference "ghcr.io/rancher/hauler:v0.3.0" "registry.local:5000".
Proof.
  eapply (RelocateReference_drops_registry
            "gcr.io/rancher/hauler:v0.3.0" "ghcr.io/rancher/hauler:v0.3.0");
    vm_compute; reflexivity.
Defined.

(** A reference that gives a tag and a digest parses as the digest
    reference of the repository; the tag is not kept. *)
Lemma ParseReference_tag_and_digest (reg path tg dig : string) :
  canonical reg path -> checkTag tg = None -> checkDigest dig = None ->
  let full := ((reg +:+ String regRepoDelimiter path) +:+ String tagDelim tg)
                +:+ String digestDelim dig in
  ParseReference full [] =
    Ok (RefDigest
          {| Digest_Repository :=
               {| Repository_Registry := {| reg_insecure := false; name.registry := reg |};
                  repository := path |};
             digest := dig;
             Digest_original := full |}).
Proof.
  intros Hc Htag Hdig full. unfold ParseReference.
  destruct (NewTag full []) as [t|] eqn:Ht.
  { apply (NewTag_no_at [] weak_nil) in Ht. unfold full in Ht.
    rewrite ContainsRune_app in Ht. simpl in Ht. by rewrite orb_true_r in Ht. }
  unfold NewDigest. unfold full at 1.
  rewrite Split_app_sep.
  2:{ rewrite ContainsRune_app, (canonical_no_at _ _ Hc). simpl.
      by apply checkTag_chars. }
  rewrite Split_no_sep by (by apply checkDigest_chars).
  rewrite Hdig, (NewTag_canonical _ _ _ Hc Htag). cbn [Tag_Repository].
  rewrite (canonical_Name _ _ _ Hc), (NewRepository_canonical _ _ Hc). done.
Qed.



(** X12: a bare Docker Hub name, one path component with neither registry
    nor tag, relocates into the namespace library/ of the given registry
    with the tag latest: ubuntu goes to registry/library/ubuntu:latest. *)
Theorem RelocateReference_bare_name (n registry : string) :
  checkRepository n = None ->
  ContainsRune n "/" = false ->
  (String.length n <= 247)%nat ->
  exists t,
    RelocateReference n registry = Ok (RefTag t) /\
    RegistryStr (Repository_Registry (Tag_Repository t)) = stored_registry registry /\
    RepositoryStr (Tag_Repository t) = "library/" +:+ n /\
    TagStr t = "latest" /\
    (registry_domain registry = true ->
     Tag_Name t = stored_registry registry +:+ "/library/" +:+ n +:+ ":latest").
Proof.
  intros Hcheck Hslash Hlen.
  assert (dotted_head n = false) as Hdot.
  { unfold dotted_head. by rewrite Cut_no_sep. }
  pose proof (NewTag_plain [] weak_nil n Hcheck Hdot) as Htag.
  assert (ParseReference n [] = Ok (RefTag
            {| Tag_Repository :=
                 {| Repository_Registry := {| reg_insecure := false; name.registry := DefaultRegistry |};
                    repository := n |};
               tag := "latest"; Tag_original := n |})) as Hparse.
  { unfold ParseReference. by rewrite Htag. }
  set (ref := RefTag _) in Hparse.
  assert (RepositoryStr (Context ref) = "library/" +:+ n) as Hstr.
  { unfold ref, Context, RepositoryStr, hasImplicitNamespace. cbn [Tag_Repository repository
      Repository_Registry RegistryStr name.registry]. by rewrite Hslash. }
  assert (dotted_head (RepositoryStr (Context ref)) = false) as Hdot'.
  { rewrite Hstr. unfold dotted_head. change ("library/" +:+ n) with ("library" +:+ String "/" n).
    by rewrite Cut_app_sep. }
  assert (String.length (RepositoryStr (Context ref)) <= 255)%nat as Hlen'.
  { rewrite Hstr, String_length_app. simpl. lia. }
  eexists. split; [by rewrite (RelocateReference_eq n registry ref Hparse Hlen' Hdot')|].
  cbn [Tag_Repository Repository_Tag TagStr tag]. rewrite Hstr.
  assert (RepositoryStr
            {| Repository_Registry :=
                 {| reg_insecure := false; name.registry := stored_registry registry |};
               repository := "library/" +:+ n |} = "library/" +:+ n) as Hrel.
  { unfold RepositoryStr, hasImplicitNamespace. by cbn. }
  split; [done|]. split; [done|]. split; [done|].
  intros Hdom. unfold Tag_Name. rewrite Repository_Name_domain by (by apply stored_registry_domain).
  unfold Repository_Tag. cbn [Tag_Repository Repository_Registry name.registry TagStr tag].
  rewrite Hrel, !app_assoc_s. done.
Qed.

Lemma RelocateReference_bare_name_witness :
  exists t,
    RelocateReference "ubuntu" "registry.local:5000" = Ok (RefTag t) /\
    RegistryStr (Repository_Registry (Tag_Repository t)) = stored_registry "registry.local:5000" /\
    RepositoryStr (Tag_Repository t) = "library/ubuntu" /\
    TagStr t = "latest" /\
    (registry_domain "registry.local:5000" = true ->
     Tag_Name t = "registry.local:5000/library/ubuntu:latest").
Proof.
  apply (RelocateReference_bare_name "ubuntu" "registry.local:5000").
  - vm_compute; reflexivity.
  - vm_compute; reflexivity.
  - vm_compute; lia.
Defined.

Lemma relocated_to_same (registry : string) (ref ref' : Reference) :
  RepositoryStr (Context ref') = RepositoryStr (Context ref) ->
  same_identifier ref ref' ->
  relocated_to registry ref' = relocated_to registry ref.
Proof.
  intros Hpath Hid. unfold relocated_to. rewrite Hpath.
  destruct ref, ref'; simpl in Hid; try done; by rewrite Hid.
Qed.

(** X13: a relocation leaves no trace in a later one.  Relocating to R1, a
    registry that holds a '.' or a ':', and relocating the result's name to
    R2 returns exactly what relocating to R2 at once returns, unless R1 is
    Docker Hub and the repository path has a single component (Docker Hub
    then puts library/ in front). *)
Theorem relocate_twice_absorbs (reference R1 R2 : string) (ref : Reference) :
  ParseReference reference [] = Ok ref ->
  (String.length (RepositoryStr (Context ref)) <= 255)%nat ->
  dotted_head (RepositoryStr (Context ref)) = false ->
  registry_domain R1 = true ->
  stored_registry R1 <> DefaultRegistry \/
    ContainsRune (RepositoryStr (Context ref)) "/" = true ->
  relocate_twice reference R1 R2 = RelocateReference reference R2.
Proof.
  intros Hparse Hlen Hdot Hdom Hplain.
  assert (shown_path (stored_registry R1) (RepositoryStr (Context ref))
          = RepositoryStr (Context ref)) as Hshown.
  { rewrite shown_path_eq. destruct Hplain as [Hreg| ->]; [|done].
    destruct (String.eqb_spec (stored_registry R1) DefaultRegistry); [done|].
    by rewrite andb_false_r. }
  destruct (parsed_Reference_canonical _ _ Hparse Hlen) as (Hc & _ & Hid).
  destruct (ParseReference_relocated R1 ref Hdom) as (ref' & Hparse' & Hpath & Hsame);
    [by rewrite Hshown|done|done|].
  rewrite Hshown in Hpath.
  unfold relocate_twice. rewrite (RelocateReference_eq _ R1 _ Hparse Hlen Hdot).
  rewrite (RelocateReference_eq _ R2 _ Hparse') by (by rewrite Hpath).
  rewrite (RelocateReference_eq _ R2 _ Hparse Hlen Hdot).
  by rewrite (relocated_to_same R2 ref ref').
Qed.

Lemma relocate_twice_absorbs_witness :
  relocate_twice "gcr.io/rancher/hauler:v0.3.0" "staging.local:5000" "registry.local"
  = RelocateReference "gcr.io/rancher/hauler:v0.3.0" "registry.local".
Proof.
  eapply (relocate_twice_absorbs "gcr.io/rancher/hauler:v0.3.0" "staging.local:5000").
  - vm_compute; reflexivity.
  - vm_compute; lia.
  - vm_compute; reflexivity.
  - vm_compute; reflexivity.
  - left. by vm_compute.
Defined.

Lemma shown_path_idem (reg path : string) :
  shown_path reg (shown_path reg path) = shown_path reg path.
Proof.
  rewrite !shown_path_eq.
  destruct (negb (ContainsRune path "/") && String.eqb reg DefaultRegistry) eqn:H; [|by rewrite H].
  done.
Qed.

Lemma Name_relocated_to (registry : string) (ref : Reference) :
  registry_domain registry = true ->
  Name (relocated_to registry ref) =
    (stored_registry registry
       +:+ String regRepoDelimiter
             (shown_path (stored_registry registry) (RepositoryStr (Context ref))))
    +:+ String (match ref with RefTag _ => tagDelim | RefDigest _ => digestDelim end)
          (Identifier ref).
Proof.
  intros Hdom. rewrite Name_parsed; rewrite relocated_to_Context;
    [|by apply stored_registry_domain]. by destruct ref.
Qed.



(** X15: the name of a parsed reference, which RelocateReference tests
    for a digest and Cmd hands to the copy, parses back to a reference of
    the same name, registry, repository path and identifier, when the
    repository path has at most 255 characters. *)
Theorem Name_parses_back (reference : string) (ref : Reference) :
  ParseReference reference [] = Ok ref ->
  (String.length (RepositoryStr (Context ref)) <= 255)%nat ->
  exists ref',
    ParseReference (Name ref) [] = Ok ref' /\
    Name ref' = Name ref /\
    RegistryStr (Repository_Registry (Context ref')) =
      RegistryStr (Repository_Registry (Context ref)) /\
    RepositoryStr (Context ref') = RepositoryStr (Context ref) /\
    same_identifier ref ref'.
Proof.
  intros Hparse Hlen.
  destruct (parsed_Reference_canonical _ _ Hparse Hlen) as (Hc & _ & Hid).
  pose proof (Name_parsed ref (proj1 Hc)) as HN. rewrite HN.
  destruct ref as [t|d]; unfold Context, Identifier, TagStr, DigestStr in *.
  - eexists. split; [by apply ParseReference_canonical_tag|].
    rewrite Name_parsed by apply Hc. cbn [Context Tag_Repository Repository_Registry].
    rewrite (canonical_RepositoryStr _ _ _ Hc). done.
  - eexists. split; [by apply ParseReference_canonical_digest|].
    rewrite Name_parsed by apply Hc. cbn [Context Digest_Repository Repository_Registry].
    rewrite (canonical_RepositoryStr _ _ _ Hc). done.
Qed.

Lemma Name_parses_back_witness :
  exists ref,
    ParseReference "ubuntu" [] = Ok ref /\
    exists ref',
      ParseReference (Name ref) [] = Ok ref' /\
      Name ref' = Name ref /\
      RegistryStr (Repository_Registry (Context ref')) =
        RegistryStr (Repository_Registry (Context ref)) /\
      RepositoryStr (Context ref') = RepositoryStr (Context ref) /\
      same_identifier ref ref'.
Proof.
  eexists. split; [vm_compute; reflexivity|].
  apply (Name_parses_back "ubuntu"); [vm_compute; reflexivity|vm_compute; lia].
Defined.

End relocate_more.

(** ** Bytes that no reference may hold *)
Section foreign_facts.
Import strings name store.

Lemma all_bytes_rejects (ok : ascii -> bool) (s : string) (c : ascii) :
  all_bytes ok s = true -> ok c = false -> ContainsRune s c = false.
Proof.
  intros Hall Hc. induction s as [|a s IH]; simpl in *; [done|].
  apply andb_true_iff in Hall as [Ha Hs]. rewrite (IH Hs), orb_false_r.
  destruct (Ascii.eqb_spec a c) as [->|]; [congruence|done].
Qed.

Lemma foreign_spec (c : ascii) :
  foreign c = true ->
  ContainsRune repositoryChars c = false /\
  ContainsRune tagChars c = false /\
  ContainsRune digestChars c = false /\
  c <> "/"%char /\ c <> ":"%char /\ c <> "@"%char /\
  (negb (Ascii.eqb c "%") && ((128 <=? nat_of_ascii c)%nat || negb (shouldEscape_host c)))
    = false.
Proof.
  destruct c as [[] [] [] [] [] [] [] []]; vm_compute; intros H; try discriminate H;
    repeat split; discriminate.
Qed.

Lemma checkRegistry_foreign (reg : string) (c : ascii) :
  checkRegistry reg = None -> foreign c = true -> ContainsRune reg c = false.
Proof.
  intros Hreg Hc. apply foreign_spec in Hc as (_ & _ & _ & _ & _ & _ & Hc).
  unfold checkRegistry in Hreg.
  destruct (parseHost_same reg) eqn:Hhost; [|by rewrite andb_false_r in Hreg].
  unfold parseHost_same in Hhost. apply andb_true_iff in Hhost as [_ Hall].
  by eapply all_bytes_rejects.
Qed.

Section weak_options.
Variable opts : list Option.
Hypothesis weak : strict (makeOptions opts) = false.

Lemma NewRepository_foreign (s : string) (r : Repository) (c : ascii) :
  NewRepository s opts = Ok r -> foreign c = true -> ContainsRune s c = false.
Proof.
  intros Hr Hc. pose proof (foreign_spec c Hc) as (Hrepo & _ & _ & Hslash & _).
  destruct (NewRepository_inv opts weak _ _ Hr) as (Hcheck & [[-> _]|(p0 & -> & Hdom & _)]).
  - by apply checkRepository_chars.
  - rewrite ContainsRune_app. unfold regRepoDelimiter. cbn [ContainsRune].
    apply registry_domain_spec in Hdom as (Hreg & _).
    rewrite (checkRegistry_foreign _ _ Hreg Hc), (checkRepository_chars _ _ Hcheck Hrepo).
    destruct (Ascii.eqb_spec "/" c); [congruence|done].
Qed.

Lemma NewTag_foreign (s : string) (t : Tag) (c : ascii) :
  NewTag s opts = Ok t -> foreign c = true -> ContainsRune s c = false.
Proof.
  intros Ht Hc. pose proof (foreign_spec c Hc) as (_ & Htag & _ & _ & Hcolon & _).
  destruct (NewTag_inv opts weak _ _ Ht) as (base & Hrepo & Hs).
  pose proof (NewRepository_foreign _ _ _ Hrepo Hc) as Hbase.
  assert (Ascii.eqb ":" c = false) as Hne by (destruct (Ascii.eqb_spec ":" c); congruence).
  destruct Hs as [[-> _]|[[-> Hcheck]|[-> _]]]; [done|..];
    rewrite ContainsRune_app, Hbase; unfold tagDelim; cbn [ContainsRune orb]; rewrite Hne; [|done].
  by apply checkTag_chars.
Qed.

Lemma NewDigest_foreign (s : string) (d : Digest) (c : ascii) :
  NewDigest s opts = Ok d -> foreign c = true -> ContainsRune s c = false.
Proof.
  intros Hd Hc. pose proof (foreign_spec c Hc) as (_ & _ & Hdig & _ & _ & Hat & _).
  unfold NewDigest in Hd.
  destruct (Split s digestDelim) as [|base [|dig [|]]] eqn:Hsplit; try done.
  pose proof (Join_Split s digestDelim) as Hjoin. rewrite Hsplit in Hjoin.
  simpl in Hjoin. subst s.
  destruct (checkDigest dig) eqn:Hcheck; [done|].
  assert (ContainsRune base c = false) as Hbase.
  { destruct (NewTag base opts) as [t|] eqn:Ht; [by eapply NewTag_foreign|].
    destruct (NewRepository base opts) as [r|] eqn:Hr; [|done].
    by eapply NewRepository_foreign. }
  rewrite ContainsRune_app, Hbase. unfold digestDelim. cbn [ContainsRune orb].
  rewrite (checkDigest_chars _ _ Hcheck Hdig).
  destruct (Ascii.eqb_spec "@" c); [congruence|done].
Qed.

Lemma ParseReference_foreign (reference : string) (c : ascii) :
  foreign c = true -> ContainsRune reference c = true ->
  ParseReference reference opts =
    Err (ErrBadName ("could not parse reference: " +:+ reference)).
Proof.
  intros Hc Hin. unfold ParseReference.
  destruct (NewTag reference opts) as [t|] eqn:Ht.
  { rewrite (NewTag_foreign _ _ _ Ht Hc) in Hin. done. }
  destruct (NewDigest reference opts) as [d|] eqn:Hd; [|done].
  rewrite (NewDigest_foreign _ _ _ Hd Hc) in Hin. done.
Qed.
End weak_options.

Lemma weak_AddArtifact_options : strict (makeOptions AddArtifact_options) = false.
Proof. done. Qed.



End foreign_facts.

(** ** NewStore, AddArtifact and AddCollection at the edges *)
Section add_more.
Context {Env OCI Collection Cache layout : Type}.
Variable content_NewOCI : string -> Env -> result OCI_layout * Env.
Variable Contents : Collection -> Env -> (gmap string OCI * error) * Env.
Variable cache_Oci : OCI -> Cache -> OCI.
Variable newLayout : Env -> result layout * Env.
Variable stage_add : layout -> OCI -> name.Reference -> Env -> error * (layout * Env).
Variable stage_commit :
  layout -> @store.Store Cache -> Env -> (Descriptor * error) * (@store.Store Cache * Env).
Variable range : forall {V : Type}, gmap string V -> list (string * V).

Local Abbreviation Store := (@store.Store Cache).
Local Abbreviation NewStore := (@store.NewStore Env Cache content_NewOCI).
Local Abbreviation AddArtifact := (store.AddArtifact cache_Oci newLayout stage_add stage_commit).
Local Abbreviation AddCollection :=
  (store.AddCollection Contents cache_Oci newLayout stage_add stage_commit (@range)).
Local Abbreviation added_each := (store.added_each cache_Oci newLayout stage_add stage_commit).

Lemma options_keep {A : Type} (field : Store -> A) (opts : list (@store.Options Cache)) :
  Forall (fun opt => forall b, field (opt b) = field b) opts ->
  forall b, field (fold_left (fun b opt => opt b) opts b) = field b.
Proof.
  induction 1 as [|opt opts' Hopt _ IH]; intros b; simpl; [done|]. by rewrite IH, Hopt.
Qed.

(** X1: NewStore fails exactly when content.NewOCI fails, with its error
    and without a store.  Otherwise it returns the store that the options
    leave, applied from left to right to the store with the given root,
    the opened layout and no cache: further options continue from the
    store the earlier ones left, and what every option keeps (the root,
    the layout) is in the result as NewStore set it. *)
Theorem NewStore_applies_options_in_order (rootdir : string)
    (opts more : list (@store.Options Cache)) (e : Env) :
  (forall err e',
     content_NewOCI rootdir e = (Err err, e') -> NewStore rootdir opts e = (Err err, e')) /\
  (forall ociStore e',
     content_NewOCI rootdir e = (Ok ociStore, e') ->
     exists b,
       NewStore rootdir opts e = (Ok b, e') /\
       NewStore rootdir [] e =
         (Ok {| store.Root := rootdir; store.store := ociStore; store.cache := None |}, e') /\
       NewStore rootdir (opts ++ more) e = (Ok (fold_left (fun b opt => opt b) more b), e') /\
       (Forall (fun opt => forall b, store.Root (opt b) = store.Root b) opts ->
        store.Root b = rootdir) /\
       (Forall (fun opt => forall b, store.store (opt b) = store.store b) opts ->
        store.store b = ociStore)).
Proof.
  unfold store.NewStore. split.
  - by intros err e' ->.
  - intros ociStore e' ->. eexists. split; [done|]. split; [done|].
    split; [by rewrite fold_left_app|].
    split; intros H.
    + by rewrite (options_keep store.Root opts H).
    + by rewrite (options_keep store.store opts H).
Qed.

(** What [AddArtifact] does with a reference that parses. *)
Lemma AddArtifact_parsed (s : Store) (oci : OCI) (reference : string) (e e1 : Env)
    (stage : layout) (ref : name.Reference) :
  newLayout e = (Ok stage, e1) ->
  name.ParseReference reference store.AddArtifact_options = Ok ref ->
  AddArtifact s oci reference e =
    match stage_add stage (from_option (cache_Oci oci) oci (store.cache s)) ref e1 with
    | (Some err, (_, e2)) => ((Descriptor_zero, Some err), (s, e2))
    | (None, (stage', e2)) => stage_commit stage' s e2
    end.
Proof.
  intros Hnew Hparse. unfold store.AddArtifact. rewrite Hnew, Hparse.
  by destruct (store.cache s).
Qed.


(** X3: AddArtifact keeps a registry that the reference names.  For a
    registry that holds a '.' or a ':' and is a URI authority, the
    reference registry/path:tag is handed to the staging layout as the tag
    reference with that registry (docker.io stored as index.docker.io),
    that path (on index.docker.io a path of one component shows with
    library/ in front) and that tag. *)
Theorem AddArtifact_keeps_an_explicit_registry (reg path tg : string) :
  registry_domain reg = true ->
  name.checkRepository path = None ->
  name.checkTag tg = None ->
  exists t,
    name.ParseReference ((reg +:+ String "/" path) +:+ String ":" tg)
      store.AddArtifact_options = Ok (name.RefTag t) /\
    name.RegistryStr (name.Repository_Registry (name.Tag_Repository t))
      = stored_registry reg /\
    name.RepositoryStr (name.Tag_Repository t) = shown_path (stored_registry reg) path /\
    name.TagStr t = tg /\
    forall (s : Store) (oci : OCI) (e e1 : Env) (stage : layout),
      newLayout e = (Ok stage, e1) ->
      AddArtifact s oci ((reg +:+ String "/" path) +:+ String ":" tg) e =
        match stage_add stage (from_option (cache_Oci oci) oci (store.cache s))
                (name.RefTag t) e1 with
        | (Some err, (_, e2)) => ((Descriptor_zero, Some err), (s, e2))
        | (None, (stage', e2)) => stage_commit stage' s e2
        end.
Proof.
  intros Hdom Hpath Htg.
  pose proof (NewRepository_join _ weak_AddArtifact_options reg path Hdom Hpath) as Hrepo.
  pose proof (NewTag_with_tag store.AddArtifact_options _ tg _ Htg Hrepo) as Htag.
  unfold name.regRepoDelimiter, name.tagDelim in Htag.
  eexists. split; [unfold name.ParseReference; by rewrite Htag|].
  split; [done|]. split; [done|]. split; [done|].
  intros s oci e e1 stage Hnew. apply AddArtifact_parsed; [done|].
  unfold name.ParseReference. by rewrite Htag.
Qed.

Lemma added_each_length (cnts : list (string * OCI)) :
  forall (s : Store) e descs st,
    added_each s cnts e = Some (descs, st) -> length descs = length cnts.
Proof.
  induction cnts as [|[ref oci] rest IH]; intros s e descs st; simpl.
  - by intros [= <- _].
  - destruct (AddArtifact s oci ref e) as [[ds [err|]] [s' e']]; [done|].
    destruct (added_each s' rest e') as [[dss st']|] eqn:Hrest; [|done].
    intros [= <- _]. simpl. f_equal. by eapply IH.
Qed.

(** X4: when the collection cannot list its contents AddCollection
    returns that error with no descriptor, adds nothing and leaves the
    store as it was, also when a map came beside the error.  For an empty
    collection it returns no descriptor and no error and leaves the store
    as it was.  Whenever it returns no error it returns one descriptor for
    each entry of the contents map. *)
Theorem AddCollection_one_descriptor_each (s : Store) (coll : Collection) (e : Env) :
  (forall cnts err e0,
     Contents coll e = ((cnts, Some err), e0) ->
     AddCollection s coll e = (([], Some err), (s, e0))) /\
  (forall e0,
     range (∅ : gmap string OCI) ≡ₚ map_to_list (∅ : gmap string OCI) ->
     Contents coll e = ((∅, None), e0) ->
     AddCollection s coll e = (([], None), (s, e0))) /\
  (forall cnts e0 descs st,
     range cnts ≡ₚ map_to_list cnts ->
     Contents coll e = ((cnts, None), e0) ->
     AddCollection s coll e = ((descs, None), st) ->
     length descs = size cnts /\
     added_each s (range cnts) e0 = Some (descs, st)).
Proof.
  split; [|split].
  - intros cnts err e0 Hc. unfold store.AddCollection. by rewrite Hc.
  - intros e0 Hperm Hc. unfold store.AddCollection. rewrite Hc.
    rewrite map_to_list_empty in Hperm. apply Permutation_nil_r in Hperm. by rewrite Hperm.
  - intros cnts e0 descs st Hperm Hc. unfold store.AddCollection. rewrite Hc.
    pose proof (AddCollection_loop_spec cache_Oci newLayout stage_add stage_commit
                  (range cnts) s [] e0) as Hloop.
    destruct (added_each s (range cnts) e0) as [[dss st']|] eqn:Hadded.
    + rewrite Hloop. intros [= <- <-]. split; [|done].
      rewrite (added_each_length _ _ _ _ _ Hadded), Hperm.
      by rewrite length_map_to_list.
    + destruct Hloop as (? & ? & ? & ? & ? & ? & ? & ? & ? & ? & _ & _ & _ & ->). done.
Qed.

End add_more.

(** ** Flush stops at the first path it cannot remove *)
Section flush_more.
Context {Cache : Type}.

Lemma RemoveAll_error_value fs path err :
  (os.RemoveAll fs path).1 = Some err -> os.removable path = true ->
  err = PathError "unlinkat" path.
Proof.
  intros Herr Hrem. apply removable_spec in Hrem as [He Hd].
  unfold os.RemoveAll in Herr. rewrite He, Hd in Herr. simpl in Herr.
  destruct (decide (_ = ∅)); congruence.
Qed.

Lemma entries_apart (root q : list string) (a b : string) :
  a <> b -> root ++ [a] `prefix_of` q -> ~ root ++ [b] `prefix_of` q.
Proof.
  intros Hab Ha Hb.
  destruct (prefix_weak_total _ _ _ Ha Hb) as [H|H];
    apply prefix_app_inv, prefix_cons_inv_1 in H; congruence.
Qed.


End flush_more.

(** ** Open: the reader over a blob *)
Section open_facts.
Context {Cache : Type}.
Variable store_ReaderAt : OCI_layout -> Descriptor -> result io.ReaderAt.

Local Abbreviation Open := (@store.Open Cache store_ReaderAt).

Lemma substring_length (s : string) : forall n m,
  String.length (String.substring n m s) = Nat.min m (String.length s - n).
Proof.
  induction s as [|c s IH]; intros [|n] [|m]; simpl; try done;
    rewrite IH; try done. by rewrite Nat.sub_0_r.
Qed.

Lemma substring_app (s : string) : forall n m,
  (n <= String.length s)%nat ->
  String.substring 0 n s +:+ String.substring n m s = String.substring 0 (n + m) s.
Proof.
  induction s as [|c s IH]; intros [|n] m Hn; simpl in *; try done; try lia.
  by rewrite IH by lia.
Qed.

Lemma substring_all (s : string) : forall m,
  (String.length s <= m)%nat -> String.substring 0 m s = s.
Proof.
  induction s as [|c s IH]; intros [|m] Hm; simpl in *; try done; try lia.
  by rewrite IH by lia.
Qed.

Lemma int64_small (z : Z) : (0 <= z < 2 ^ 63)%Z -> io.int64 z = z.
Proof. intros Hz. unfold io.int64. rewrite Z.mod_small; lia. Qed.

(** One [Read] of the reader over a file. *)
Lemma Read_file (name content : string) (off len : nat) :
  (Z.of_nat (String.length content) < 2 ^ 63)%Z ->
  (off <= String.length content)%nat ->
  ioutil.Read (reader_at name content off) len =
    ((String.substring off len content,
      if (String.length content - off <? len)%nat then Some io.EOF else None),
     reader_at name content (off + Nat.min len (String.length content - off))).
Proof.
  intros Hsize Hoff. unfold ioutil.Read, content.Read, reader_at. simpl.
  unfold os.File_ReadAt. destruct (Z.ltb_spec (Z.of_nat off) 0); [lia|].
  rewrite Nat2Z.id, !substring_length.
  rewrite int64_small by lia. f_equal.
  - f_equal. destruct (Nat.ltb_spec (Nat.min len (String.length content - off)) len),
      (Nat.ltb_spec (String.length content - off) len); (done || lia).
  - do 2 f_equal. lia.
Qed.

(** [io.ReadAll] from any point of the file: every call of [Read] but the
    last takes at least one byte. *)
Lemma ReadAll_loop_file (grow : nat -> nat) (name content : string) :
  (Z.of_nat (String.length content) < 2 ^ 63)%Z ->
  (forall c, (c < grow c)%nat) ->
  forall fuel off cap,
    (off <= String.length content)%nat -> (off <= cap)%nat ->
    (String.length content - off < fuel)%nat ->
    io.ReadAll_loop ioutil.Read grow fuel (reader_at name content off)
      (String.substring 0 off content) cap
    = Some ((content, None), reader_at name content (String.length content)).
Proof.
  intros Hsize Hgrow. induction fuel as [|fuel IH]; intros off cap Hoff Hcap Hfuel; [lia|].
  cbn [io.ReadAll_loop]. rewrite substring_length, Nat.sub_0_r, Nat.min_l by done.
  set (cap' := if (off =? cap)%nat then grow cap else cap).
  assert (off < cap')%nat as Hcap'.
  { unfold cap'. destruct (Nat.eqb_spec off cap) as [->|]; [apply Hgrow|lia]. }
  rewrite Read_file by done. rewrite substring_app by done.
  destruct (Nat.ltb_spec (String.length content - off) (cap' - off)) as [Hend|Hmore].
  - destruct (decide (io.EOF = io.EOF)); [|done].
    rewrite substring_all by lia. do 3 f_equal. lia.
  - replace (off + Nat.min (cap' - off) (String.length content - off))%nat
      with (off + (cap' - off))%nat by lia.
    apply IH; lia.
Qed.

(** X6: when the layout opens the file of the descriptor's blob, Open
    returns a reader from which io.ReadAll reads the whole content of the
    blob, with no error, in at most one call of Read for each byte and one
    more, however the buffer grows.  Closing that reader returns nil and
    changes nothing, and every further Read of one byte or more returns no
    byte and io.EOF. *)
Theorem Open_reads_the_blob (s : @store.Store Cache) (desc : Descriptor)
    (name content : string) (grow : nat -> nat) :
  store_ReaderAt (store.store s) desc = Ok (os.File_reader name content) ->
  (Z.of_nat (String.length content) < 2 ^ 63)%Z ->
  (forall c, (c < grow c)%nat) ->
  exists rc,
    Open s desc = Ok rc /\
    forall fuel, (String.length content < fuel)%nat ->
      exists rc',
        io.ReadAll ioutil.Read grow fuel rc = Some ((content, None), rc') /\
        ioutil.Close rc' = (None, rc') /\
        forall len, ioutil.Read rc' (S len) = (("", Some io.EOF), rc').
Proof.
  intros Hra Hsize Hgrow. eexists. split; [unfold store.Open; by rewrite Hra|].
  intros fuel Hfuel. exists (reader_at name content (String.length content)).
  split; [|split; [done|]].
  - unfold io.ReadAll.
    change (ioutil.NopCloser (content.NewReaderAtWrapper (os.File_reader name content)))
      with (reader_at name content 0).
    replace "" with (String.substring 0 0 content) at 1 by (by destruct content).
    apply ReadAll_loop_file; (done || lia).
  - intros len. rewrite Read_file by done.
    rewrite Nat.sub_diag, Nat.min_0_r, Nat.add_0_r. simpl.
    f_equal. f_equal. clear. induction content as [|c content' IH]; [done|]. simpl. apply IH.
Qed.

End open_facts.

(** ** Identify returns what the document states *)
Section identify_more.
Context {Cache : Type}.
Variable json_scan : string -> result json.value.
Implicit Types (s : @store.Store Cache) (members : list (string * json.value)).

Local Abbreviation Identify := (store.Identify json_scan).

Lemma store_Config_members_written members :
  forall c saved c' saved',
  json.store_Config_members members c saved = (c', saved') ->
  json.Config_MediaType c' = json.Config_MediaType c \/
  exists key,
    (key, json.String_ (json.Config_MediaType c')) ∈ members /\
    json.equalFold "mediaType" key = true.
Proof.
  induction members as [|[k x] rest IH]; intros c saved c' saved'; simpl.
  - intros [= <- _]. by left.
  - destruct (json.equalFold "mediaType" k) eqn:Hk.
    + destruct (json.store_MediaType x c saved) as [c1 saved1] eqn:Hx. intros Hrest.
      destruct (IH _ _ _ _ Hrest) as [Heq|(key & Hin & Hkey)].
      * rewrite Heq. destruct x; simpl in Hx; injection Hx as <- _; try (by left).
        right. exists k. split; [by left|done].
      * right. exists key. split; [by right|done].
    + intros Hrest. destruct (IH _ _ _ _ Hrest) as [Heq|(key & Hin & Hkey)]; [by left|].
      right. exists key. split; [by right|done].
Qed.

Lemma store_members_written members :
  forall m saved m' saved',
  json.store_members members m saved = (m', saved') ->
  json.Config_MediaType (json.Config m') = json.Config_MediaType (json.Config m) \/
  exists key config key',
    (key, json.Object config) ∈ members /\
    json.equalFold "config" key = true /\
    (key', json.String_ (json.Config_MediaType (json.Config m'))) ∈ config /\
    json.equalFold "mediaType" key' = true.
Proof.
  induction members as [|[k x] rest IH]; intros m saved m' saved'; simpl.
  - intros [= <- _]. by left.
  - destruct (json.equalFold "config" k) eqn:Hk.
    + destruct (json.store_Config x m saved) as [m1 saved1] eqn:Hx. intros Hrest.
      destruct (IH _ _ _ _ Hrest) as [Heq|(key & config & key' & Hin & Hkey & Hin' & Hkey')].
      * rewrite Heq. destruct x as [| | | |elements|config]; simpl in Hx;
          try (injection Hx as <- _; by left).
        destruct (json.store_Config_members config (json.Config m) saved) as [c1 s1] eqn:Hc.
        injection Hx as <- _. simpl.
        destruct (store_Config_members_written _ _ _ _ _ Hc) as [Hsame|(key' & Hin' & Hkey')];
          [by left|].
        right. exists k, config, key'. split; [by left|done].
      * right. exists key, config, key'. split; [by right|done].
    + intros Hrest.
      destruct (IH _ _ _ _ Hrest) as [Heq|(key & config & key' & Hin & Hkey & Hin' & Hkey')];
        [by left|].
      right. exists key, config, key'. split; [by right|done].
Qed.

(** X7: a media type that Identify returns is written in the document.
    When the result is not the empty string, the descriptor's blob was
    fetched and holds a JSON object with a member config (the name matched
    without regard to case) whose value is an object with a member
    mediaType whose value is that string; duplicate member names or not,
    nothing else makes Identify return a non-empty string. *)
Theorem Identify_returns_what_is_written s (desc : Descriptor) (mediaType : string) :
  Identify s desc = mediaType ->
  mediaType <> "" ->
  exists rc members key config key',
    Fetch (store.store s) desc = Ok rc /\
    json_scan rc = Ok (json.Object members) /\
    (key, json.Object config) ∈ members /\
    json.equalFold "config" key = true /\
    (key', json.String_ mediaType) ∈ config /\
    json.equalFold "mediaType" key' = true.
Proof.
  unfold store.Identify, store.Decode. intros Hid Hne.
  destruct (Fetch (store.store s) desc) as [rc|]; [|congruence].
  destruct (json_scan rc) as [v|] eqn:Hscan; [|congruence].
  destruct (json.unmarshal v json.manifest_zero) as [m [x|]] eqn:Hdec; [congruence|].
  destruct v as [| | | |elements|members]; simpl in Hdec; try congruence.
  - injection Hdec as <-. simpl in Hid. congruence.
  - destruct (store_members_written _ _ _ _ _ Hdec)
      as [Hsame|(key & config & key' & Hin & Hkey & Hin' & Hkey')].
    + simpl in Hsame. congruence.
    + rewrite Hid in Hin'. by exists rc, members, key, config, key'.
Qed.

End identify_more.

(** ** The download command *)
Section download_facts.
Context {World Registry RemoteDescriptor Manifest Target : Type}.
Variable content_NewRegistry : download.RegistryOptions -> World -> result Registry * World.
Variable remote_Get : name.Reference -> World -> result RemoteDescriptor * World.
Variable RawManifest : RemoteDescriptor -> result string.
Variable json_Unmarshal : string -> result Manifest.
Variable mapper_FromManifest : Manifest -> string -> World -> result Target * World.
Variable oras_Copy :
  Registry -> string -> Target -> string -> list string -> World
  -> (Descriptor * error) * World.
Variable DockerManifestSchema2 : string.
Variable Infof : string -> list string -> World -> World.

Local Abbreviation Cmd :=
  (download.Cmd content_NewRegistry remote_Get RawManifest json_Unmarshal
     mapper_FromManifest oras_Copy DockerManifestSchema2 Infof).

Local Abbreviation registry_options o :=
  {| download.reg_Configs := []; download.reg_Username := download.Username o;
     download.reg_Password := download.Password o;
     download.reg_Insecure := download.Insecure o;
     download.reg_PlainHTTP := download.PlainHTTP o |}.


End download_facts.

(** ** Where the registry of a parsed reference comes from *)
Section registry_facts.
Import strings name store.

Lemma NewDigest_pieces (opts : list Option) (s : string) (d : Digest) :
  NewDigest s opts = Ok d ->
  exists b0 base,
    s = b0 +:+ String digestDelim (digest d) /\
    NewRepository base opts = Ok (Digest_Repository d) /\
    (base = b0 \/
     exists t, NewTag b0 opts = Ok t /\ base = Repository_Name (Tag_Repository t)).
Proof.
  unfold NewDigest.
  destruct (Split s digestDelim) as [|b0 [|dig [|]]] eqn:Hsplit; try done.
  pose proof (Join_Split s digestDelim) as Hjoin. rewrite Hsplit in Hjoin. simpl in Hjoin.
  destruct (checkDigest dig); [done|].
  destruct (NewTag b0 opts) as [t|] eqn:Ht.
  - destruct (NewRepository _ opts) as [r|] eqn:Hr; [|done]. intros [= <-].
    exists b0, (Repository_Name (Tag_Repository t)). split; [done|]. split; [done|].
    right. by exists t.
  - destruct (NewRepository _ opts) as [r|] eqn:Hr; [|done]. intros [= <-].
    exists b0, b0. split; [done|]. split; [done|]. by left.
Qed.

Lemma head_unique (a b c d : string) :
  ContainsRune a "/" = false -> ContainsRune c "/" = false ->
  a +:+ String "/" b = c +:+ String "/" d -> a = c /\ b = d.
Proof.
  intros Ha Hc Heq.
  pose proof (Cut_app_sep a b "/" Ha) as H1. rewrite Heq, (Cut_app_sep c d "/" Hc) in H1.
  by injection H1 as -> ->.
Qed.

Lemma NewRepository_given (base : string) (r : Repository) :
  NewRepository base AddArtifact_options = Ok r ->
  RegistryStr (Repository_Registry r) = "" \/
  exists p0, base = p0 +:+ String "/" (repository r) /\ registry_domain p0 = true /\
             RegistryStr (Repository_Registry r) = stored_registry p0.
Proof.
  intros Hr.
  destruct (NewRepository_inv _ weak_AddArtifact_options _ _ Hr) as (_ & [[_ ->]|(p0 & -> & Hdom & ->)]).
  - by left.
  - right. by exists p0.
Qed.

(** X17: AddArtifact never supplies a registry.  Whatever reference it
    parses, the registry of the parsed reference is empty, or it is the
    registry the reference string itself starts with, up to its first '/'
    (docker.io being stored as index.docker.io): index.docker.io is not
    put in front of a reference that names no registry. *)
Theorem AddArtifact_never_defaults_the_registry (reference : string) (ref : Reference) :
  ParseReference reference AddArtifact_options = Ok ref ->
  RegistryStr (Repository_Registry (Context ref)) = "" \/
  exists p0 rest,
    reference = p0 +:+ String "/" rest /\ registry_domain p0 = true /\
    RegistryStr (Repository_Registry (Context ref)) = stored_registry p0.
Proof.
  unfold ParseReference.
  destruct (NewTag reference AddArtifact_options) as [t|] eqn:Ht.
  - intros [= <-]. cbn [Context].
    destruct (NewTag_inv _ weak_AddArtifact_options _ _ Ht) as (base & Hrepo & Hs).
    destruct (NewRepository_given _ _ Hrepo) as [Hreg|(p0 & Hbase & Hdom & Hreg)]; [by left|].
    right. subst base.
    destruct Hs as [[-> _]|[[-> _]|[-> _]]].
    + by exists p0, (repository (Tag_Repository t)).
    + exists p0, (repository (Tag_Repository t) +:+ String tagDelim (tag t)).
      by rewrite app_assoc_s.
    + exists p0, (repository (Tag_Repository t) +:+ String tagDelim "").
      by rewrite app_assoc_s.
  - destruct (NewDigest reference AddArtifact_options) as [d|] eqn:Hd; [|done].
    intros [= <-]. cbn [Context].
    destruct (NewDigest_pieces _ _ _ Hd) as (b0 & base & -> & Hrepo & Hbase).
    destruct (NewRepository_given _ _ Hrepo) as [Hreg|(p1 & Hb & Hdom1 & Hreg)]; [by left|].
    right. destruct Hbase as [->|(t & Ht' & Hbase)].
    + exists p1, (repository (Digest_Repository d) +:+ String digestDelim (digest d)).
      by rewrite Hb, app_assoc_s.
    + destruct (NewTag_inv _ weak_AddArtifact_options _ _ Ht') as (base' & Hrepo' & Hs).
      destruct (NewRepository_given _ _ Hrepo') as [Hreg0|(p0 & Hbase' & Hdom0 & Hreg0)].
      * (* the tag's repository has no registry: its name is its path *)
        exfalso.
        assert (base = repository (Tag_Repository t)) as Hname.
        { rewrite Hbase. unfold Repository_Name, Registry_Name. rewrite Hreg0. simpl.
          unfold RepositoryStr, hasImplicitNamespace. rewrite Hreg0.
          by rewrite andb_false_r. }
        destruct (NewRepository_inv _ weak_AddArtifact_options _ _ Hrepo')
          as (_ & [[Hb' _]|(p0 & _ & Hd0 & Hr0)]).
        -- rewrite Hname, <- Hb', Hrepo' in Hrepo. injection Hrepo as Heq.
           rewrite <- Heq, Hreg0 in Hreg.
           apply registry_domain_spec in Hdom1 as (_ & _ & Hne & _).
           destruct (String.eqb_spec p1 defaultRegistryAlias) as [->|Hn];
             unfold stored_registry in Hreg.
           ++ done.
           ++ apply String.eqb_neq in Hn. rewrite Hn in Hreg. congruence.
        -- rewrite Hr0 in Hreg0. simpl in Hreg0.
           apply registry_domain_spec in Hd0 as (_ & _ & Hne & _).
           unfold stored_registry in Hreg0.
           destruct (String.eqb p0 defaultRegistryAlias); [done|]. congruence.
      * assert (base = stored_registry p0 +:+ String "/" (RepositoryStr (Tag_Repository t)))
          as Hname.
        { rewrite Hbase. rewrite Repository_Name_domain; [by rewrite <- Hreg0|].
          change (name.registry (Repository_Registry (Tag_Repository t)))
            with (RegistryStr (Repository_Registry (Tag_Repository t))).
          rewrite Hreg0. by apply stored_registry_domain. }
        rewrite Hname in Hb.
        apply head_unique in Hb as [Hp _].
        2:{ by apply stored_registry_domain, registry_domain_spec in Hdom0 as (_ & _ & _ & ? & _). }
        2:{ by apply registry_domain_spec in Hdom1 as (_ & _ & _ & ? & _). }
        subst p1. rewrite stored_registry_idem in Hreg.
        assert (exists sfx, b0 = p0 +:+ String "/" sfx) as [sfx ->].
        { subst base'. destruct Hs as [[-> _]|[[-> _]|[-> _]]]; eexists;
            [done|by rewrite app_assoc_s..]. }
        exists p0, (sfx +:+ String digestDelim (digest d)).
        by rewrite app_assoc_s.
Qed.

Lemma AddArtifact_never_defaults_the_registry_witness :
  exists ref,
    ParseReference "rancher/hauler:v0.3.0" AddArtifact_options = Ok ref /\
    (RegistryStr (Repository_Registry (Context ref)) = "" \/
     exists p0 rest,
       "rancher/hauler:v0.3.0" = p0 +:+ String "/" rest /\ registry_domain p0 = true /\
       RegistryStr (Repository_Registry (Context ref)) = stored_registry p0).
Proof.
  eexists. split; [vm_compute; reflexivity|].
  apply (AddArtifact_never_defaults_the_registry "rancher/hauler:v0.3.0").
  vm_compute; reflexivity.
Defined.

Lemma RepositoryStr_chars (r : Repository) (c : ascii) :
  checkRepository (repository r) = None ->
  ContainsRune repositoryChars c = false ->
  ContainsRune (RepositoryStr r) c = false.
Proof.
  intros Hcheck Hc. pose proof (checkRepository_chars _ _ Hcheck Hc) as Hrepo.
  unfold RepositoryStr. destruct (hasImplicitNamespace _ _); [|done].
  rewrite !ContainsRune_app, Hrepo, !orb_false_r.
  rewrite (all_bytes_excludes repositoryChars defaultNamespace c) by done.
  by rewrite (all_bytes_excludes repositoryChars "/" c).
Qed.

(** X18: what RelocateReference returns whenever it succeeds, with no
    condition on the input.  The result has the identifier of the parsed
    input, of the same kind.  Its registry is the given one (docker.io
    stored as index.docker.io) and its repository the input's repository
    path; or else the input's repository path is head/rest for a head that
    is a URI authority holding a '.' or a ':', and then the result's
    registry is that head and its repository is rest. *)
Theorem RelocateReference_result (reference registry : string) (ref out : Reference) :
  ParseReference reference [] = Ok ref ->
  RelocateReference reference registry = Ok out ->
  same_identifier ref out /\
  ((RegistryStr (Repository_Registry (Context out)) = stored_registry registry /\
    repository (Context out) = RepositoryStr (Context ref)) \/
   (exists head rest,
      RepositoryStr (Context ref) = head +:+ String "/" rest /\
      registry_domain head = true /\
      RegistryStr (Repository_Registry (Context out)) = stored_registry head /\
      repository (Context out) = rest)).
Proof.
  intros Hparse. rewrite (RelocateReference_parsed _ _ _ Hparse).
  pose proof (parsed_checkRepository _ _ Hparse) as Hcheck.
  set (path := RepositoryStr (Context ref)).
  assert (ContainsRune path ":" = false) as Hcolon by (by apply RepositoryStr_chars).
  assert (ContainsRune path "@" = false) as Hat by (by apply RepositoryStr_chars).
  destruct (ParseReference path [WithDefaultRegistry registry]) as [relocated|] eqn:Hrel; [|done].
  assert (RegistryStr (Repository_Registry (Context relocated)) = stored_registry registry /\
          repository (Context relocated) = path \/
          exists head rest,
            path = head +:+ String "/" rest /\ registry_domain head = true /\
            RegistryStr (Repository_Registry (Context relocated)) = stored_registry head /\
            repository (Context relocated) = rest) as Hctx.
  { unfold ParseReference in Hrel.
    destruct (NewTag path _) as [t|] eqn:Ht.
    - injection Hrel as <-. cbn [Context].
      destruct (NewTag_inv _ (weak_registry registry) _ _ Ht) as (base & Hrepo & Hs).
      assert (path = base) as <-.
      { destruct Hs as [[-> _]|[[Hs _]|[Hs _]]]; [done|..];
          rewrite Hs, ContainsRune_app in Hcolon; simpl in Hcolon;
          by rewrite orb_true_r in Hcolon. }
      destruct (NewRepository_inv _ (weak_registry registry) _ _ Hrepo)
        as (_ & [[Hp ->]|(p0 & Hp & Hdom & ->)]).
      + left. by split.
      + right. by exists p0, (repository (Tag_Repository t)).
    - destruct (NewDigest path _) as [d|] eqn:Hd; [|done].
      destruct (NewDigest_pieces _ _ _ Hd) as (b0 & base & Hs & _).
      rewrite Hs, ContainsRune_app in Hat. simpl in Hat. by rewrite orb_true_r in Hat. }
  destruct ref as [t|d]; intros [= <-]; (split; [done|]); apply Hctx.
Qed.

Lemma RelocateReference_result_witness :
  exists ref out,
    ParseReference "gcr.io/foo.bar/baz:v1" [] = Ok ref /\
    RelocateReference "gcr.io/foo.bar/baz:v1" "myreg.io" = Ok out /\
    same_identifier ref out /\
    ((RegistryStr (Repository_Registry (Context out)) = stored_registry "myreg.io" /\
      repository (Context out) = RepositoryStr (Context ref)) \/
     (exists head rest,
        RepositoryStr (Context ref) = head +:+ String "/" rest /\
        registry_domain head = true /\
        RegistryStr (Repository_Registry (Context out)) = stored_registry head /\
        repository (Context out) = rest)).
Proof.
  eexists _, _. split; [vm_compute; reflexivity|]. split; [vm_compute; reflexivity|].
  apply (RelocateReference_result "gcr.io/foo.bar/baz:v1" "myreg.io"); vm_compute; reflexivity.
Defined.

End registry_facts.

(** ** Instances of the statements above *)
Section instances.
Import staged examples.


Lemma AddArtifact_keeps_an_explicit_registry_witness :
  exists t,
    name.ParseReference "docker.io/alpine:3.15" store.AddArtifact_options
      = Ok (name.RefTag t) /\
    name.RegistryStr (name.Repository_Registry (name.Tag_Repository t)) = "index.docker.io" /\
    name.RepositoryStr (name.Tag_Repository t) = "library/alpine" /\
    name.TagStr t = "3.15" /\
    forall (s : @store.Store Cache) (oci : OCI) (e e1 : Env) (stage : layout),
      newLayout e = (Ok stage, e1) ->
      AddArtifact digest_of s oci "docker.io/alpine:3.15" e =
        match stage_add digest_of stage (from_option (cache_Oci oci) oci (store.cache s))
                (name.RefTag t) e1 with
        | (Some err, (_, e2)) => ((Descriptor_zero, Some err), (s, e2))
        | (None, (stage', e2)) => stage_commit stage' s e2
        end.
Proof.
  apply (AddArtifact_keeps_an_explicit_registry cache_Oci newLayout (stage_add digest_of)
           stage_commit "docker.io" "alpine" "3.15");
    vm_compute; reflexivity.
Defined.

Lemma Open_reads_the_blob_witness :
  exists rc,
    store.Open blob_reader hello_store
      (descriptor_of "application/vnd.oci.image.manifest.v1+json" "hello manifest") = Ok rc /\
    forall fuel, (String.length "hello manifest" < fuel)%nat ->
      exists rc',
        io.ReadAll ioutil.Read (fun c => c + 512)%nat fuel rc
          = Some (("hello manifest", None), rc') /\
        ioutil.Close rc' = (None, rc') /\
        forall len, ioutil.Read rc' (S len) = (("", Some io.EOF), rc').
Proof.
  apply (Open_reads_the_blob blob_reader hello_store
           (descriptor_of "application/vnd.oci.image.manifest.v1+json" "hello manifest")
           (digest_of "hello manifest") "hello manifest" (fun c => c + 512)%nat).
  - vm_compute; reflexivity.
  - vm_compute; reflexivity.
  - intros c. lia.
Defined.

Lemma Identify_returns_what_is_written_witness :
  exists rc members key config key',
    Fetch (store.store hello_store)
      (descriptor_of "application/vnd.oci.image.manifest.v1+json" "hello manifest") = Ok rc /\
    scan_hello rc = Ok (json.Object members) /\
    (key, json.Object config) ∈ members /\
    json.equalFold "config" key = true /\
    (key', json.String_ "application/vnd.hauler.file.config.v1+json") ∈ config /\
    json.equalFold "mediaType" key' = true.
Proof.
  apply (Identify_returns_what_is_written scan_hello hello_store
           (descriptor_of "application/vnd.oci.image.manifest.v1+json" "hello manifest")
           "application/vnd.hauler.file.config.v1+json").
  - vm_compute; reflexivity.
  - discriminate.
Defined.

End instances.
